(** * Fault-localization experiment: engine and evaluation

    A shallow embedding of [code/Experiment_code/evaluation.py] and of the
    inference strategies of [code/Experiment_code/engine.py], with the
    properties of their specification, followed by the client's reading of
    an answer, the expected-behaviour step and two helpers of
    [code/Experiment_code/config.py], with further properties of the code.

    Conventions of the embedding.
    - A Python [str] is a [list ascii]; the model is exact on ASCII text
      (characters above 127 are neither whitespace nor cased).
    - A Python [int] is a [Z].  A Python [float] is idealised as an exact
      rational ([Q]): no rounding, no infinities, no NaN.
    - A Python [set] is a [gset], a [dict] read by key is a [gmap]; a [dict]
      whose iteration order is observed (the vote table of the aggregator,
      a parsed JSON object) is an association list in insertion order.
    - The oracle (HTTP client) is a state-passing function over an abstract
      world; printing progress and writing files to disk are left out. *)

From Stdlib Require Import ZArith QArith List Ascii String Lia Permutation.
From Stdlib Require Import Sorted DecimalString DecimalZ Lqa.
From stdpp Require Import base gmap sets list strings.
Import ListNotations.
Open Scope Z_scope.
Set Warnings "-register-all".

(** ** Python runtime *)

Module Py.

Abbreviation str := (list ascii).

(** A string literal. *)
Definition L (s : string) : str := list_ascii_of_string s.

(** [str.isspace] on one ASCII character: TAB..CR, FS..US and the space. *)
Definition isspace (c : ascii) : bool :=
  let n := N_of_ascii c in
  (((9 <=? n) && (n <=? 13)) || ((28 <=? n) && (n <=? 32)))%N.

Fixpoint lstrip (s : str) : str :=
  match s with
  | [] => []
  | c :: s' => if isspace c then lstrip s' else s
  end.

Definition rstrip (s : str) : str := rev (lstrip (rev s)).

(** [s.strip()] *)
Definition strip (s : str) : str := rstrip (lstrip s).

Definition lower_char (c : ascii) : ascii :=
  let n := N_of_ascii c in
  if ((65 <=? n) && (n <=? 90))%N then ascii_of_N (n + 32) else c.

(** [s.lower()] on ASCII text: the letters A to Z go to a to z, one
    character at a time.  On other text [str.lower] does more (it maps
    letters outside ASCII, and a final capital sigma by its context);
    a statement that depends on that is made for ASCII text only. *)
Definition lower (s : str) : str := map lower_char s.

(** A character that lower-casing neither creates nor removes. *)
Definition uncased (c : ascii) : Prop :=
  forall x, Ascii.eqb c (lower_char x) = Ascii.eqb c x.

Fixpoint startswith (sep s : str) : bool :=
  match sep, s with
  | [], _ => true
  | _ :: _, [] => false
  | a :: sep', b :: s' => if Ascii.eqb a b then startswith sep' s' else false
  end.

(** [sep in s] *)
Fixpoint contains (sep s : str) : bool :=
  startswith sep s ||
  match s with
  | [] => false
  | _ :: s' => contains sep s'
  end.

(** The rightmost occurrence of [sep] in [s]: the text before it and the
    text after it. *)
Fixpoint rfind_split (sep s : str) : option (str * str) :=
  match s with
  | [] => if startswith sep [] then Some ([], []) else None
  | c :: s' =>
      match rfind_split sep s' with
      | Some (before, after) => Some (c :: before, after)
      | None =>
          if startswith sep s then Some ([], skipn (length sep) s) else None
      end
  end.

(** [s.rsplit(sep, 1)] for a non-empty separator. *)
Definition rsplit1 (sep s : str) : list str :=
  match rfind_split sep s with
  | Some (before, after) => [before; after]
  | None => [s]
  end.

(** [s.split(c)] for a one-character separator. *)
Fixpoint split_char (c : ascii) (s : str) : list str :=
  match s with
  | [] => [[]]
  | x :: s' =>
      if Ascii.eqb x c then [] :: split_char c s'
      else match split_char c s' with
           | h :: t => (x :: h) :: t
           | [] => [[x]]
           end
  end.

Definition lparen : ascii := "("%char.

(** [l[-1]] and [l[0]] on lists of strings that are never empty here. *)
Definition item_last (l : list str) : str := List.last l [].
Definition item_first (l : list str) : str := List.hd [] l.

(** [l[:k]]: the first [k] elements, or all but the last [-k] when [k] is
    negative. *)
Definition slice_to {A} (k : Z) (l : list A) : list A :=
  if 0 <=? k then firstn (Z.to_nat k) l
  else firstn (length l - Z.to_nat (- k)) l.

(** [len(l)] *)
Definition len {A} (l : list A) : Z := Z.of_nat (length l).

(** [str(n)] for an integer. *)
Definition str_of_int (n : Z) : str :=
  L (NilZero.string_of_int (Z.to_int n)).

(** Truth value of a string. *)
Definition str_truthy (s : str) : bool :=
  match s with [] => false | _ => true end.

(** Order of strings: lexicographic on the character codes. *)
Fixpoint str_ltb (a b : str) : bool :=
  match a, b with
  | _, [] => false
  | [], _ :: _ => true
  | x :: a', y :: b' =>
      if (N_of_ascii x <? N_of_ascii y)%N then true
      else if (N_of_ascii y <? N_of_ascii x)%N then false
      else str_ltb a' b'
  end.

(** [sorted(l)] / [l.sort()] for a strict order [ltb] on the keys: a stable
    sort, elements that compare equal keep their order. *)
Section Sort.
Context {A : Type} (ltb : A -> A -> bool).

Fixpoint insert_sorted (x : A) (l : list A) : list A :=
  match l with
  | [] => [x]
  | y :: l' => if ltb y x then y :: insert_sorted x l' else x :: l
  end.

Definition sorted (l : list A) : list A := foldr insert_sorted [] l.
End Sort.

(** [sum] of a list of integers and of a list of floats. *)
Definition sumZ (l : list Z) : Z := foldr Z.add 0 l.
Definition sumQ (l : list Q) : Q := foldr Qplus 0%Q l.

(** Structural equality of rationals is decidable. *)
#[global] Instance Q_eq_dec : EqDecision Q.
Proof. solve_decision. Defined.

(** [a / b] on two integers (true division). *)
Definition divZ (a b : Z) : Q := (inject_Z a / inject_Z b)%Q.

End Py.
Import Py.

(** ** Ranked candidates

    The dictionaries [{"method": ..., "justification": ...}] built by the
    response parser, voted on by the aggregator, stored under ["top_k"] in
    the result file and read back by the evaluation. *)

Record candidate := { method : str; justification : str }.

(** ** evaluation.py *)

Module Evaluation.

(** [normalize_method]: the loop over the three separators is unrolled by
    [foldl]; every separator is tried on the result of the one before. *)
Definition strip_prefix_at (method sep : str) : str :=
  if contains sep method then item_last (rsplit1 sep method) else method.

Definition normalize_method (method : str) : str :=
  let method := strip method in
  let method := foldl strip_prefix_at method [L "#"; L "::"; L "."] in
  let method :=
    if contains (L "(") method then item_first (split_char lparen method)
    else method in
  lower method.

(** A string on which [normalize_method] has nothing left to cut. *)
Definition plain (s : str) : Prop :=
  contains (L "#") s = false /\ contains (L "::") s = false /\
  contains (L ".") s = false /\ contains (L "(") s = false.

Record metrics := {
  top_1 : bool; top_3 : bool; top_5 : bool;
  precision : Q; recall : Q; f1 : Q; accuracy : Q
}.

(** The four counts computed at the head of [evaluate_bug]. *)
Record counts := { tp : Z; fp : Z; fn : Z; tn : Z }.

Definition pred_norm (predicted : list str) (k : Z) : list str :=
  map normalize_method (slice_to k predicted).

Definition actual_norm (actual : gset str) : gset str :=
  set_map normalize_method actual.

Definition confusion (predicted : list str) (actual : gset str) (k : Z)
  : counts :=
  let pred_set : gset str := list_to_set (pred_norm predicted k) in
  let an := actual_norm actual in
  let tp := Z.of_nat (size (pred_set ∩ an)) in
  let fp := Z.of_nat (size (pred_set ∖ an)) in
  let fn := Z.of_nat (size (an ∖ pred_set)) in
  {| tp := tp; fp := fp; fn := fn; tn := Z.max 0 (k - tp - fp) |}.

(** [bool(set(l) & s)] *)
Definition hits (l : list str) (s : gset str) : bool :=
  negb (bool_decide ((list_to_set l : gset str) ∩ s = ∅)).

Definition evaluate_bug (predicted : list str) (actual : gset str) (k : Z)
  : metrics :=
  let pn := pred_norm predicted k in
  let an := actual_norm actual in
  let c := confusion predicted actual k in
  let precision :=
    if 0 <? tp c + fp c then divZ (tp c) (tp c + fp c) else 0%Q in
  let recall :=
    if 0 <? tp c + fn c then divZ (tp c) (tp c + fn c) else 0%Q in
  let f1 :=
    if Qlt_le_dec 0 (precision + recall)
    then (2 * precision * recall / (precision + recall))%Q else 0%Q in
  let accuracy := if 0 <? k then divZ (tp c + tn c) k else 0%Q in
  {| top_1 := hits (slice_to 1 pn) an;
     top_3 := hits (slice_to 3 pn) an;
     top_5 := hits (slice_to 5 pn) an;
     precision := precision; recall := recall; f1 := f1;
     accuracy := accuracy |}.

(** The result file of one bug; the report reads its ["top_k"] only. *)
Record result_data := { top_k : list candidate }.

(** One entry of [project_results]: the metrics with the two keys
    ["project"] and ["bug_id"] added. *)
Record scored := { project : str; bug_id : Z; scores : metrics }.

(** A line of the report.  [Metric label v] is the text [label] followed
    by [v] printed with four decimals. *)
Inductive line :=
  | Text (s : str)
  | Metric (label : str) (value : Q).

(** [ground_truth.get(project, {}).get(bug_id, set())] *)
Definition lookup_truth (ground_truth : gmap str (gmap Z (gset str)))
    (project : str) (bug_id : Z) : gset str :=
  default ∅ (ground_truth !! project ≫= (fun bugs => bugs !! bug_id)).

(** Body of the grouping loop. *)
Definition add_result (ground_truth : gmap str (gmap Z (gset str))) (k : Z)
    (project_results : gmap str (list scored))
    (r : str * Z * result_data) : gmap str (list scored) :=
  let '(project, bug_id, data) := r in
  let actual := lookup_truth ground_truth project bug_id in
  if bool_decide (actual = ∅) then project_results
  else
    let predicted := map method (top_k data) in
    let m := evaluate_bug predicted actual k in
    <[project :=
        default [] (project_results !! project)
          ++ [{| project := project; bug_id := bug_id; scores := m |}]]>
      project_results.

Definition group_results (results : list (str * Z * result_data))
    (ground_truth : gmap str (gmap Z (gset str))) (k : Z)
  : gmap str (list scored) :=
  foldl (add_result ground_truth k) ∅ results.

(** The running totals of the report loop. *)
Record totals := {
  total_bugs : Z; total_top1 : Z; total_top3 : Z; total_top5 : Z;
  total_precision : Q; total_recall : Q; total_f1 : Q; total_accuracy : Q
}.

Definition totals_zero : totals :=
  {| total_bugs := 0; total_top1 := 0; total_top3 := 0; total_top5 := 0;
     total_precision := 0; total_recall := 0; total_f1 := 0;
     total_accuracy := 0 |}.

(** [sum(1 for b in bugs if b[flag])] *)
Definition count_hits (flag : metrics -> bool) (bugs : list scored) : Z :=
  sumZ (map (fun b => if flag (scores b) then 1 else 0) bugs).

(** [sum(b[metric] for b in bugs) / n_bugs] *)
Definition mean_of (metric : metrics -> Q) (bugs : list scored) : Q :=
  (sumQ (map (fun b => metric (scores b)) bugs) / inject_Z (len bugs))%Q.

(** Body of the loop over the sorted project names. *)
Definition project_step (project_results : gmap str (list scored))
    (acc : list line * totals) (project : str) : list line * totals :=
  let '(lines, t) := acc in
  let bugs := default [] (project_results !! project) in
  let n_bugs := len bugs in
  if n_bugs =? 0 then acc
  else
    let top1 := count_hits top_1 bugs in
    let top3 := count_hits top_3 bugs in
    let top5 := count_hits top_5 bugs in
    let mean_prec := mean_of precision bugs in
    let mean_rec := mean_of recall bugs in
    let mean_f1 := mean_of f1 bugs in
    let mean_acc := mean_of accuracy bugs in
    (lines ++
       [ Text (L "Project: " ++ lower project ++ L " (" ++ str_of_int n_bugs
                 ++ L " bugs analyzed)");
         Text (L "  Top-1 Hits: " ++ str_of_int top1);
         Text (L "  Top-3 Hits: " ++ str_of_int top3);
         Text (L "  Top-5 Hits: " ++ str_of_int top5);
         Metric (L "  Mean Precision: ") mean_prec;
         Metric (L "  Mean Recall:    ") mean_rec;
         Metric (L "  Mean F1 Score:  ") mean_f1;
         Metric (L "  Mean Accuracy:  ") mean_acc;
         Text [] ],
     {| total_bugs := total_bugs t + n_bugs;
        total_top1 := total_top1 t + top1;
        total_top3 := total_top3 t + top3;
        total_top5 := total_top5 t + top5;
        total_precision := total_precision t + mean_prec * inject_Z n_bugs;
        total_recall := total_recall t + mean_rec * inject_Z n_bugs;
        total_f1 := total_f1 t + mean_f1 * inject_Z n_bugs;
        total_accuracy := total_accuracy t + mean_acc * inject_Z n_bugs |}).

(** [sorted(project_results.keys())] *)
Definition sorted_projects (project_results : gmap str (list scored))
  : list str :=
  sorted str_ltb (elements (dom project_results)).

Definition header (k : Z) (benchmark_type : str) : list line :=
  [ Text ((if bool_decide (benchmark_type = L "python")
           then L "BugsInPy Classification Metrics (K="
           else L "Fault Localization Evaluation (K=")
            ++ str_of_int k ++ L ")");
    Text (concat (replicate 50 (L "=")));
    Text [] ].

(** The lines after the project blocks. *)
Definition global_lines (benchmark_type : str) (t : totals) : list line :=
  let python := bool_decide (benchmark_type = L "python") in
  let n := inject_Z (total_bugs t) in
  [ Text (if python then L "GLOBAL AVERAGES" else L "OVERALL TOTALS");
    Text (concat (replicate 15 (L "-"))) ] ++
  (if python then
     [ Text (L "Total Bugs Processed: " ++ str_of_int (total_bugs t)) ] ++
     (if 0 <? total_bugs t then
        [ Metric (L "Average F1 Score:     ") (total_f1 t / n);
          Metric (L "Average Accuracy:     ") (total_accuracy t / n) ]
      else [])
   else
     [ Text (L "Total Bugs Analyzed: " ++ str_of_int (total_bugs t));
       Text (L "Total Top-1: " ++ str_of_int (total_top1 t));
       Text (L "Total Top-3: " ++ str_of_int (total_top3 t));
       Text (L "Total Top-5: " ++ str_of_int (total_top5 t)) ] ++
     (if 0 <? total_bugs t then
        [ Metric (L "Average Precision: ") (total_precision t / n);
          Metric (L "Average Recall:    ") (total_recall t / n);
          Metric (L "Average F1:        ") (total_f1 t / n);
          Metric (L "Average Accuracy:  ") (total_accuracy t / n) ]
      else [])).

(** [generate_evaluation_report]: the lines that the source joins with
    newlines. *)
Definition generate_evaluation_report
    (results : list (str * Z * result_data))
    (ground_truth : gmap str (gmap Z (gset str)))
    (k : Z) (benchmark_type : str) : list line :=
  let project_results := group_results results ground_truth k in
  let '(lines, t) :=
    foldl (project_step project_results)
          (header k benchmark_type, totals_zero)
          (sorted_projects project_results) in
  lines ++ global_lines benchmark_type t.

End Evaluation.
Import Evaluation.

(** ** engine.py *)

Module Engine.

(** A value produced by [json.loads]. *)
Inductive json :=
  | JNull
  | JBool (b : bool)
  | JInt (n : Z)
  | JFloat (x : Q)
  | JStr (s : str)
  | JArr (items : list json)
  | JObj (members : list (str * json)).

(** Truth value of a JSON value, as tested by [or] and [if]. *)
Definition truthy (v : json) : bool :=
  match v with
  | JNull => false
  | JBool b => b
  | JInt n => negb (n =? 0)
  | JFloat x => negb (Qeq_bool x 0)
  | JStr s => str_truthy s
  | JArr items => match items with [] => false | _ => true end
  | JObj members => match members with [] => false | _ => true end
  end.

(** [d.get(key, dflt)] on a parsed object: each key is bound once. *)
Fixpoint dict_get (key : str) (dflt : json) (d : list (str * json)) : json :=
  match d with
  | [] => dflt
  | (k, v) :: d' => if bool_decide (k = key) then v else dict_get key dflt d'
  end.

Record LLMResponse := {
  raw_text : str;
  parsed_json : option (list (str * json));
  error : option str;
  latency_seconds : Q
}.

(** An entry of [all_iterations]: the dictionary appended by the iterative
    strategy or the one appended by the self-consistency strategy. *)
Inductive history_record :=
  | IterationRecord (iteration : Z) (methods : list candidate) (latency : Q)
  | RunRecord (run : Z) (methods : list candidate).

(** [record.get("methods", [])] *)
Definition record_methods (r : history_record) : list candidate :=
  match r with
  | IterationRecord _ methods _ => methods
  | RunRecord _ methods => methods
  end.

Record InferenceResult := {
  final_ranking : list candidate;
  iterations_used : Z;
  converged : bool;
  all_iterations : list history_record;
  expected_behavior : option (list str);
  errors : list str;
  total_latency_seconds : Q
}.

(** [range(1, n + 1)] *)
Definition range_from_1 (n : Z) : list Z :=
  map Z.of_nat (seq 1 (Z.to_nat n)).

(** [response.error and response.parsed_json is None]: the call reported a
    non-empty error and nothing was parsed. *)
Definition call_failed (response : LLMResponse) : bool :=
  match error response with
  | Some e => str_truthy e && bool_decide (parsed_json response = None)
  | None => false
  end.

(** The text of [response.error] inside an error message. *)
Definition error_text (response : LLMResponse) : str :=
  match error response with
  | Some e => e
  | None => L "None"
  end.

(** *** _aggregate_results *)

(** An entry of [stats]. *)
Record stat := { count : Z; ranks : list Z; justifications : list str }.

(** [method in stats] and [stats[method]] on the vote table, whose keys
    are kept in the order of their first insertion. *)
Definition stats_mem (method : str) (stats : list (str * stat)) : bool :=
  bool_decide (method ∈ map fst stats).

Fixpoint stats_alter (f : stat -> stat) (method : str)
    (stats : list (str * stat)) : list (str * stat) :=
  match stats with
  | [] => []
  | (m, st) :: rest =>
      if bool_decide (m = method) then (m, f st) :: rest
      else (m, st) :: stats_alter f method rest
  end.

(** Body of the inner loop: one candidate at one rank. *)
Definition record_vote (stats : list (str * stat)) (rank : Z)
    (item : candidate) : list (str * stat) :=
  let m := method item in
  if negb (str_truthy m) then stats
  else
    let stats :=
      if stats_mem m stats then stats
      else stats ++ [(m, {| count := 0; ranks := []; justifications := [] |})]
    in
    stats_alter
      (fun st =>
         {| count := count st + 1;
            ranks := ranks st ++ [rank];
            justifications :=
              if str_truthy (justification item)
              then justifications st ++ [justification item]
              else justifications st |})
      m stats.

(** [enumerate(l, start)] *)
Fixpoint enumerate {A} (start : Z) (l : list A) : list (Z * A) :=
  match l with
  | [] => []
  | x :: l' => (start, x) :: enumerate (start + 1) l'
  end.

Definition tally_run (stats : list (str * stat)) (run : history_record)
  : list (str * stat) :=
  foldl (fun st ri => record_vote st (fst ri) (snd ri)) stats
        (enumerate 1 (record_methods run)).

Definition tally (runs : list history_record) : list (str * stat) :=
  foldl tally_run [] runs.

(** [min(x :: l, key=len)]: the first of the shortest strings. *)
Fixpoint min_by_len (x : str) (l : list str) : str :=
  match l with
  | [] => x
  | y :: l' => if len y <? len x then min_by_len y l' else min_by_len x l'
  end.

(** The tuple [(method, count, avg_rank, justification)] of one entry. *)
Definition vote_item (e : str * stat) : str * Z * Q * str :=
  let '(m, s) := e in
  let avg_rank := divZ (sumZ (ranks s)) (len (ranks s)) in
  let j :=
    match justifications s with
    | [] => []
    | x :: l => min_by_len x l
    end in
  (m, count s, avg_rank, j).

(** The order of the sort keys [(-count, avg_rank)]. *)
Definition key_ltb (x y : str * Z * Q * str) : bool :=
  let '(_, cx, ax, _) := x in
  let '(_, cy, ay, _) := y in
  (- cx <? - cy) || ((- cx =? - cy) && negb (Qle_bool ay ax)).

(** [items] after [items.sort(key=...)]. *)
Definition ranked_items (runs : list history_record)
  : list (str * Z * Q * str) :=
  sorted key_ltb (map vote_item (tally runs)).

Definition _aggregate_results (runs : list history_record) (top_k : Z)
  : list candidate :=
  map (fun x => let '(m, _, _, j) := x in
                {| method := m; justification := j |})
      (slice_to top_k (ranked_items runs)).

Section Runtime.

(** [str(v)] of a float, a list or a dictionary is left to the runtime. *)
Variable py_repr : json -> str.

(** [str(v)] *)
Definition py_str (v : json) : str :=
  match v with
  | JStr s => s
  | JNull => L "None"
  | JBool true => L "True"
  | JBool false => L "False"
  | JInt n => str_of_int n
  | _ => py_repr v
  end.

(** The body of the loop of [extract_top_k_methods]: the entry appended
    for [item], if any. *)
Definition extract_item (item : json) : option candidate :=
  match item with
  | JObj d =>
      let m := dict_get (L "method") (JStr []) d in
      let method :=
        if truthy m then m else dict_get (L "method_name") (JStr []) d in
      if truthy method then
        Some {| method := strip (py_str method);
                justification :=
                  strip (py_str (dict_get (L "justification") (JStr []) d)) |}
      else None
  | _ => None
  end.

Definition extract_top_k_methods (response : LLMResponse)
  : list candidate :=
  match parsed_json response with
  | None => []
  | Some d =>
      match dict_get (L "top_k") (JArr []) d with
      | JArr top_k =>
          foldl (fun results item =>
                   match extract_item item with
                   | Some c => results ++ [c]
                   | None => results
                   end) [] top_k
      | _ => []
      end
  end.

(** [json.dumps(v, ensure_ascii=False)] *)
Variable json_dumps : json -> str.

Definition methods_to_json (methods : list candidate) : str :=
  json_dumps
    (JArr (map (fun m => JObj [(L "method", JStr (method m))]) methods)).

(** The oracle: [client.generate(prompt, temperature)] answers and moves
    the world on. *)
Variable World : Type.
Variable generate : str -> Q -> World -> LLMResponse * World.

(** [prompt_builder.wrap_zero_shot] and [wrap_self_consistency]. *)
Variable wrap_zero_shot : str -> str -> str.
Variable wrap_self_consistency : str -> str.

(** *** run_zero_shot_iterative *)

(** The variables of the loop. *)
Record loop_state := {
  prev_candidates : str;
  prev_methods : option (list str);
  ls_all_iterations : list history_record;
  ls_total_latency : Q;
  ls_errors : list str
}.

Definition loop_init : loop_state :=
  {| prev_candidates := L "[]"; prev_methods := None;
     ls_all_iterations := []; ls_total_latency := 0; ls_errors := [] |}.

(** What one pass of the body does with the response it received: go on
    with a new state ([continue], or the end of the body), or return. *)
Definition iteration_step (iteration : Z) (s : loop_state)
    (response : LLMResponse) : loop_state + InferenceResult :=
  let total_latency := (ls_total_latency s + latency_seconds response)%Q in
  if call_failed response then
    inl {| prev_candidates := prev_candidates s;
           prev_methods := prev_methods s;
           ls_all_iterations := ls_all_iterations s;
           ls_total_latency := total_latency;
           ls_errors :=
             ls_errors s ++
               [L "Iteration " ++ str_of_int iteration ++ L ": "
                  ++ error_text response] |}
  else
    let methods := extract_top_k_methods response in
    let method_names := map method methods in
    let all_iterations :=
      ls_all_iterations s ++
        [IterationRecord iteration methods (latency_seconds response)] in
    if match prev_methods s with
       | Some prev => bool_decide (method_names = prev)
       | None => false
       end
    then
      inr {| final_ranking := methods; iterations_used := iteration;
             converged := true; all_iterations := all_iterations;
             expected_behavior := None; errors := ls_errors s;
             total_latency_seconds := total_latency |}
    else
      inl {| prev_candidates := methods_to_json methods;
             prev_methods := Some method_names;
             ls_all_iterations := all_iterations;
             ls_total_latency := total_latency;
             ls_errors := ls_errors s |}.

(** The result built after the loop. *)
Definition exhausted (max_iterations : Z) (s : loop_state)
  : InferenceResult :=
  let final_methods :=
    match last (ls_all_iterations s) with
    | Some r => record_methods r
    | None => []
    end in
  {| final_ranking := final_methods; iterations_used := max_iterations;
     converged := false; all_iterations := ls_all_iterations s;
     expected_behavior := None; errors := ls_errors s;
     total_latency_seconds := ls_total_latency s |}.

Fixpoint zero_shot_loop (base_prompt : str) (temperature : Q)
    (max_iterations : Z) (iterations : list Z) (s : loop_state) (w : World)
  : InferenceResult * World :=
  match iterations with
  | [] => (exhausted max_iterations s, w)
  | iteration :: rest =>
      let full_prompt := wrap_zero_shot base_prompt (prev_candidates s) in
      let '(response, w') := generate full_prompt temperature w in
      match iteration_step iteration s response with
      | inl s' => zero_shot_loop base_prompt temperature max_iterations rest s' w'
      | inr result => (result, w')
      end
  end.

Definition run_zero_shot_iterative (base_prompt : str)
    (max_iterations : Z) (temperature : Q) (w : World)
  : InferenceResult * World :=
  zero_shot_loop base_prompt temperature max_iterations
    (range_from_1 max_iterations) loop_init w.

(** The iterations that a run executes, each with the response it
    received, in order. *)
Fixpoint zero_shot_trace (base_prompt : str) (temperature : Q)
    (iterations : list Z) (s : loop_state) (w : World)
  : list (Z * LLMResponse) :=
  match iterations with
  | [] => []
  | iteration :: rest =>
      let full_prompt := wrap_zero_shot base_prompt (prev_candidates s) in
      let '(response, w') := generate full_prompt temperature w in
      (iteration, response) ::
      match iteration_step iteration s response with
      | inl s' => zero_shot_trace base_prompt temperature rest s' w'
      | inr _ => []
      end
  end.

(** *** run_self_consistency *)

Record sc_state := {
  sc_all_runs : list history_record;
  sc_total_latency : Q;
  sc_errors : list str
}.

Definition run_step (run_idx : Z) (s : sc_state) (response : LLMResponse)
  : sc_state :=
  let total_latency := (sc_total_latency s + latency_seconds response)%Q in
  if call_failed response then
    {| sc_all_runs := sc_all_runs s;
       sc_total_latency := total_latency;
       sc_errors :=
         sc_errors s ++
           [L "Run " ++ str_of_int run_idx ++ L ": " ++ error_text response]
    |}
  else
    let methods := extract_top_k_methods response in
    {| sc_all_runs := sc_all_runs s ++ [RunRecord run_idx methods];
       sc_total_latency := total_latency;
       sc_errors := sc_errors s |}.

Fixpoint self_consistency_loop (base_prompt : str) (temperature : Q)
    (runs : list Z) (s : sc_state) (w : World) : sc_state * World :=
  match runs with
  | [] => (s, w)
  | run_idx :: rest =>
      let full_prompt := wrap_self_consistency base_prompt in
      let '(response, w') := generate full_prompt temperature w in
      self_consistency_loop base_prompt temperature rest
        (run_step run_idx s response) w'
  end.

Definition run_self_consistency (base_prompt : str) (num_runs : Z)
    (temperature : Q) (top_k : Z) (w : World) : InferenceResult * World :=
  let '(s, w') :=
    self_consistency_loop base_prompt temperature (range_from_1 num_runs)
      {| sc_all_runs := []; sc_total_latency := 0; sc_errors := [] |} w in
  let aggregated := _aggregate_results (sc_all_runs s) top_k in
  ({| final_ranking := aggregated; iterations_used := num_runs;
      converged := true; all_iterations := sc_all_runs s;
      expected_behavior := None; errors := sc_errors s;
      total_latency_seconds := sc_total_latency s |}, w').

End Runtime.

End Engine.
Import Engine.

(** ** The specification's reading of some operations, and sample data *)

Module Spec.

(** Normalisation as the specification words it: of the separators ["#"],
    ["::"], ["."], only the first one found is applied. *)
Definition first_separator (s : str) : option str :=
  List.find (fun sep => contains sep s) [L "#"; L "::"; L "."].

Definition normalize_first_separator (identifier : str) : str :=
  let s := strip identifier in
  let s :=
    match first_separator s with
    | Some sep => item_last (rsplit1 sep s)
    | None => s
    end in
  let s :=
    if contains (L "(") s then item_first (split_char lparen s) else s in
  lower s.

(** [r] is [s] without the whitespace at its two ends. *)
Definition trimmed (s r : str) : Prop :=
  exists a b,
    s = a ++ r ++ b /\
    Forall (fun c => isspace c = true) a /\
    Forall (fun c => isspace c = true) b /\
    (forall c, head r = Some c -> isspace c = false) /\
    (forall c, last r = Some c -> isspace c = false).

(** [r] is what remains of [s] after the last occurrence of [sep], or [s]
    itself when [sep] does not occur.  The occurrence that ends where [r]
    begins is the last one: no occurrence starts after its first
    character, be it inside [r] or across the two (for ["::"] in
    ["a:::b"] the last occurrence starts at the second colon, and ["b"]
    remains). *)
Definition after_last (sep s r : str) : Prop :=
  (contains sep s = false /\ r = s) \/
  (exists before,
     s = before ++ sep ++ r /\ contains sep (tl (sep ++ r)) = false).

(** [r] is [s] up to its first ["("], or [s] itself when there is none. *)
Definition before_paren (s r : str) : Prop :=
  ((lparen ∉ s) /\ r = s) \/
  (exists rest, s = r ++ lparen :: rest /\ lparen ∉ r).

(** The array that [extract_top_k_methods] iterates over: the value under
    ["top_k"] when there is parsed JSON and that value is an array. *)
Definition top_k_array (response : LLMResponse) : list json :=
  match parsed_json response with
  | Some d =>
      match dict_get (L "top_k") (JArr []) d with
      | JArr items => items
      | _ => []
      end
  | None => []
  end.

(** An entry without a usable name: not a record, or a record whose
    ["method"] and ["method_name"] are both missing or empty. *)
Definition nameless (item : json) : Prop :=
  match item with
  | JObj d =>
      truthy (dict_get (L "method") (JStr []) d) = false /\
      truthy (dict_get (L "method_name") (JStr []) d) = false
  | _ => True
  end.

(** The value that names the method of a record: the one under ["method"]
    when that is not empty, else the one under ["method_name"]; it is not
    empty. *)
Definition named (d : list (str * json)) (v : json) : Prop :=
  truthy v = true /\
  (v = dict_get (L "method") (JStr []) d \/
   (truthy (dict_get (L "method") (JStr []) d) = false /\
    v = dict_get (L "method_name") (JStr []) d)).

(** A failed iteration, as the specification words it: the call fails and
    parsing yields nothing usable.  A call has failed when the response
    carries an error, whatever its text; nothing usable was parsed when
    there is no parsed JSON. *)
Definition failed (response : LLMResponse) : bool :=
  match error response, parsed_json response with
  | Some _, None => true
  | _, _ => false
  end.

Definition successful (response : LLMResponse) : bool :=
  negb (failed response).

(** The last successful iteration of a trace. *)
Definition last_successful (trace : list (Z * LLMResponse))
  : option (Z * LLMResponse) :=
  last (filter (fun x => successful (snd x) = true) trace).

(** The ordered sequence of method identifiers parsed from a response. *)
Definition names (py_repr : json -> str) (response : LLMResponse)
  : list str :=
  map method (extract_top_k_methods py_repr response).

(** The condition of the convergence rule for a response [r] received
    after the iterations [before]: a prior successful iteration exists,
    and the sequence of identifiers of the one immediately before is,
    value for value and in order, that of [r]. *)
Definition repeats_previous (py_repr : json -> str)
    (before : list (Z * LLMResponse)) (r : LLMResponse) : Prop :=
  exists j r', last_successful before = Some (j, r') /\
               names py_repr r' = names py_repr r.

(** The scored bugs of one project, as the specification groups them: the
    results of that project that have ground truth, in the order of the
    results, each scored by [evaluate_bug]. *)
Definition scored_of (ground_truth : gmap str (gmap Z (gset str))) (k : Z)
    (p : str) (results : list (str * Z * result_data)) : list scored :=
  omap (fun r =>
          let '(project, bug_id, data) := r in
          let actual := lookup_truth ground_truth project bug_id in
          if bool_decide (project = p) && negb (bool_decide (actual = ∅))
          then Some {| project := project; bug_id := bug_id;
                       scores := evaluate_bug (map method (top_k data))
                                   actual k |}
          else None) results.

(** The groups of the report: the bugs of each project, by sorted name. *)
Definition project_groups (results : list (str * Z * result_data))
    (ground_truth : gmap str (gmap Z (gset str))) (k : Z)
  : list (list scored) :=
  map (fun p => scored_of ground_truth k p results)
      (sorted_projects (group_results results ground_truth k)).

(** The sum of the per-project means, each multiplied by the number of bugs
    of its project, and the average that it gives: the per-project means
    weighted by the number of bugs of each project. *)
Definition weighted_sum (metric : metrics -> Q)
    (groups : list (list scored)) : Q :=
  sumQ (map (fun bugs => mean_of metric bugs * inject_Z (len bugs))%Q groups).


(** The metric that a line of the global summary reports. *)
Definition metric_of_label (label : str) : metrics -> Q :=
  if bool_decide (label = L "Average Precision: ") then precision
  else if bool_decide (label = L "Average Recall:    ") then recall
  else if bool_decide (label = L "Average F1:        ") then f1
  else if bool_decide (label = L "Average F1 Score:     ") then f1
  else accuracy.



(** *** The vote, as the specification words it *)

(** All votes of the rounds, in the order in which the aggregator reads
    them: every candidate with its 1-based rank in its round. *)
Definition votes_of (runs : list history_record) : list (Z * candidate) :=
  concat (map (fun run => enumerate 1 (record_methods run)) runs).

(** The ranks, and the non-empty justifications, that a list of votes
    gives to an identifier. *)
Definition ranks_of (m : str) (votes : list (Z * candidate)) : list Z :=
  omap (fun v => if bool_decide (method v.2 = m) then Some v.1 else None)
       votes.

Definition reasons_of (m : str) (votes : list (Z * candidate)) : list str :=
  omap (fun v =>
          if bool_decide (method v.2 = m) && str_truthy (justification v.2)
          then Some (justification v.2) else None)
       votes.

(** The 1-based positions of an identifier in one round, and in every
    round where it appears. *)
Definition positions (m : str) (run : history_record) : list Z :=
  ranks_of m (enumerate 1 (record_methods run)).

Definition all_positions (m : str) (runs : list history_record) : list Z :=
  concat (map (positions m) runs).

Definition all_reasons (m : str) (runs : list history_record) : list str :=
  reasons_of m (votes_of runs).

(** The number of occurrences of an identifier over all rounds, and the
    number of distinct rounds in which it appears. *)
Definition occurrences (m : str) (runs : list history_record) : Z :=
  len (all_positions m runs).

Definition rounds_with (m : str) (runs : list history_record) : Z :=
  len (filter (fun run => m ∈ map method (record_methods run)) runs).

(** The shortest string of a list, the first one among equals; the empty
    string for the empty list. *)
Definition shortest (l : list str) : str :=
  match l with
  | [] => []
  | x :: l' => min_by_len x l'
  end.

(** The identifier of a vote tuple. *)
Definition item_method (x : str * Z * Q * str) : str := x.1.1.1.

(** The step of [identifiers]: an identifier is added when it is new and
    not empty. *)
Definition see (seen : list str) (m : str) : list str :=
  if bool_decide (m ∈ seen) || negb (str_truthy m) then seen
  else seen ++ [m].

(** The consensus ranking as the specification words it: every identifier
    that appears, in the order of first appearance, with its [count], with
    [avg_rank] = the mean of its positions and with its shortest
    justification, sorted by [(-count, avg_rank)] and cut to the first [K].
    In the specification [count] is the number of distinct rounds in which
    the identifier appears. *)
Definition identifiers (runs : list history_record) : list str :=
  foldl see [] (map (fun v => method v.2) (votes_of runs)).

Definition consensus_item (count : str -> list history_record -> Z)
    (runs : list history_record) (m : str) : str * Z * Q * str :=
  (m, count m runs,
   divZ (sumZ (all_positions m runs)) (len (all_positions m runs)),
   shortest (all_reasons m runs)).

(** The order that the specification asks for, on the tuples
    [(method, count, avg_rank, justification)]: a tuple comes strictly
    before another when its count is higher, or the counts are equal and
    its average rank is lower; it may stand before another when its count
    is higher, or the counts are equal and its average rank is not
    higher. *)
Definition key_lt (x y : str * Z * Q * str) : bool :=
  (y.1.1.2 <? x.1.1.2)
  || ((x.1.1.2 =? y.1.1.2) && negb (Qle_bool y.1.2 x.1.2)).

Definition key_le (x y : str * Z * Q * str) : Prop :=
  y.1.1.2 < x.1.1.2 \/ (x.1.1.2 = y.1.1.2 /\ (x.1.2 <= y.1.2)%Q).

Definition consensus_by (count : str -> list history_record -> Z)
    (runs : list history_record) (K : Z) : list candidate :=
  map (fun x => {| method := item_method x; justification := x.2 |})
      (slice_to K
         (sorted key_lt (map (consensus_item count runs) (identifiers runs)))).

Definition consensus (runs : list history_record) (K : Z) : list candidate :=
  consensus_by rounds_with runs K.

(** The entry of an identifier after more votes: one more count and one
    more rank for each vote, one more justification for each non-empty
    one. *)
Definition extend (st : stat) (m : str) (votes : list (Z * candidate))
  : stat :=
  {| count := count st + len (ranks_of m votes);
     ranks := ranks st ++ ranks_of m votes;
     justifications := justifications st ++ reasons_of m votes |}.

Definition no_votes : stat :=
  {| count := 0; ranks := []; justifications := [] |}.

(** Whether a list of votes names an identifier. *)
Definition voted (m : str) (votes : list (Z * candidate)) : bool :=
  match ranks_of m votes with [] => false | _ => true end.

(** [stats.get(m)] on the vote table. *)
Fixpoint stats_get (m : str) (stats : list (str * stat)) : option stat :=
  match stats with
  | [] => None
  | (m', st) :: rest =>
      if bool_decide (m' = m) then Some st else stats_get m rest
  end.

(** The vote tuple of an identifier, from the votes of all rounds. *)
Definition item_of (runs : list history_record) (m : str)
  : str * Z * Q * str :=
  vote_item (m, extend no_votes m (votes_of runs)).

(** The sort keys are in ascending order: no element is followed by a
    strictly smaller one. *)
Definition ascending (items : list (str * Z * Q * str)) : Prop :=
  StronglySorted (fun x y => key_ltb y x = false) items.



End Spec.

(** ** Sample data *)

Module Sample.

(** A runtime whose [str] of compound values and whose [json.dumps] are
    empty, and prompt builders that return the base prompt. *)
Definition no_repr (v : json) : str := [].
Definition no_dumps (v : json) : str := [].
Definition plain_wrap (base_prompt previous : str) : str := base_prompt.
Definition plain_wrap1 (base_prompt : str) : str := base_prompt.

(** The response to a call that answered with the given methods. *)
Definition entry (m : string) : json :=
  JObj [(L "method", JStr (L m)); (L "justification", JStr [])].

Definition answer (methods : list string) : LLMResponse :=
  {| raw_text := [];
     parsed_json := Some [(L "top_k", JArr (map entry methods))];
     error := None; latency_seconds := 1 |}.

(** An answer whose array mixes what the parser accepts and what it
    drops. *)
Definition mixed_answer : LLMResponse :=
  {| raw_text := [];
     parsed_json :=
       Some [(L "top_k",
              JArr [ JObj [(L "method", JStr (L " a "));
                           (L "justification", JStr (L " j "))];
                     JInt 5;
                     JObj [(L "method", JStr []);
                           (L "method_name", JStr (L "b"))];
                     JObj [(L "method", JStr [])] ])];
     error := None; latency_seconds := 1 |}.

(** The response to a call that timed out. *)
Definition timeout : LLMResponse :=
  {| raw_text := []; parsed_json := None; error := Some (L "timeout");
     latency_seconds := 1 |}.

(** An oracle that replays a script of responses and then times out. *)
Definition scripted (prompt : str) (temperature : Q)
    (script : list LLMResponse) : LLMResponse * list LLMResponse :=
  match script with
  | r :: script' => (r, script')
  | [] => (timeout, [])
  end.

(** An oracle that is down. *)
Definition down (prompt : str) (temperature : Q) (w : unit)
  : LLMResponse * unit := (timeout, tt).

(** A round that ranks the given methods, without and with
    justifications. *)
Definition run_of (methods : list string) : history_record :=
  RunRecord 0 (map (fun m => {| method := L m; justification := [] |}) methods).

Definition run_with (entries : list (string * string)) : history_record :=
  RunRecord 0
    (map (fun e => {| method := L e.1; justification := L e.2 |}) entries).

(** Two scored bugs of one project and a bug without ground truth. *)
Definition ranking (methods : list string) : result_data :=
  {| top_k := map (fun m => {| method := L m; justification := [] |}) methods |}.

Definition results : list (str * Z * result_data) :=
  [ (L "p", 1, ranking ["a"]);
    (L "p", 2, ranking ["a"; "b"; "c"; "d"]);
    (L "q", 1, ranking ["z"]) ].

Definition truth : gmap str (gmap Z (gset str)) :=
  {[ L "p" := {[ 1 := {[ L "a" ]}; 2 := {[ L "a" ]} ]} ]}.

End Sample.

(** ** engine.py: the client *)

Module Client.

(** [re.sub] of [fence + r"\s*"] by the empty text, for a literal,
    non-empty [fence]:
    each occurrence of the fence, met from the left, goes together with the
    white space that follows it.  Every step takes at least one character,
    so the length of the text is enough [fuel]. *)
Fixpoint re_sub_from (fuel : nat) (fence text : str) : str :=
  match fuel with
  | O => text
  | S fuel' =>
      match text with
      | [] => []
      | c :: rest =>
          if startswith fence text
          then re_sub_from fuel' fence (lstrip (skipn (length fence) text))
          else c :: re_sub_from fuel' fence rest
      end
  end.

Definition re_sub (fence text : str) : str :=
  re_sub_from (length text) fence text.

(** [s.find(c)] and [s.rfind(c)] for one character: [-1] when absent. *)
Fixpoint find_char (c : ascii) (s : str) : Z :=
  match s with
  | [] => -1
  | x :: s' =>
      if Ascii.eqb x c then 0
      else let i := find_char c s' in if i =? -1 then -1 else i + 1
  end.

Fixpoint rfind_char (c : ascii) (s : str) : Z :=
  match s with
  | [] => -1
  | x :: s' =>
      let i := rfind_char c s' in
      if i =? -1 then (if Ascii.eqb x c then 0 else -1) else i + 1
  end.

(** [s[a:b]] for two indices that are not negative. *)
Definition slice (a b : Z) (s : str) : str :=
  firstn (Z.to_nat (b - a)) (skipn (Z.to_nat a) s).

Definition lbrace : ascii := "{"%char.
Definition rbrace : ascii := "}"%char.

Section Loads.

(** [json.loads] on a text that begins with a brace: the dictionary, or
    the message of the [JSONDecodeError]. *)
Variable json_loads : str -> list (str * json) + str.

(** [OllamaClient._extract_json]: the pair [(parsed, error)]. *)
Definition _extract_json (text : str)
  : option (list (str * json)) * option str :=
  if negb (str_truthy (strip text)) then (None, Some (L "Empty response"))
  else
    let text := re_sub (L "```json") text in
    let text := re_sub (L "```") text in
    let start := find_char lbrace text in
    let end_ := rfind_char rbrace text in
    if (start =? -1) || (end_ =? -1) || (end_ <=? start)
    then (None, Some (L "No JSON found"))
    else
      match json_loads (slice start (end_ + 1) text) with
      | inl parsed => (Some parsed, None)
      | inr e => (None, Some (L "JSON parse error: " ++ e))
      end.

(** The response that [OllamaClient.generate] builds.  [outcome] is what
    the request came to: the text of the answer, or the message [str(e)]
    of the exception that the [try] block caught. *)
Definition respond (outcome : str + str) (latency : Q) : LLMResponse :=
  match outcome with
  | inl raw_text =>
      let '(parsed_json, error) := _extract_json raw_text in
      {| raw_text := raw_text; parsed_json := parsed_json; error := error;
         latency_seconds := latency |}
  | inr e =>
      {| raw_text := []; parsed_json := None; error := Some e;
         latency_seconds := latency |}
  end.

End Loads.

End Client.

(** ** engine.py: the expected behaviour of a test *)

Module Expected.

(** The values that [for b in v] goes through; [None] when [v] cannot be
    iterated and a [TypeError] is raised. *)
Definition iterate (v : json) : option (list json) :=
  match v with
  | JArr items => Some items
  | JStr s => Some (map (fun c => JStr [c]) s)
  | JObj members => Some (map (fun kv => JStr kv.1) members)
  | _ => None
  end.

Section Runtime.

Variable py_repr : json -> str.
Variable World : Type.
Variable generate : str -> Q -> World -> LLMResponse * World.

(** [prompt_builder.build_template2_step4a] *)
Variable build_template2_step4a : str -> str -> str.

(** The bullet kept for one value, if any. *)
Definition bullet (b : json) : option str :=
  let t := strip (py_str py_repr b) in
  if str_truthy t then Some t else None.

(** What [extract_expected_behavior] returns for the response it received;
    [None] stands for the [TypeError]. *)
Definition bullets_of (response : LLMResponse) : option (list str) :=
  match parsed_json response with
  | None => Some []
  | Some d =>
      match iterate (dict_get (L "expected_behavior") (JArr []) d) with
      | Some bullets => Some (slice_to 6 (omap bullet bullets))
      | None => None
      end
  end.

Definition extract_expected_behavior (failing_test test_code_snippet : str)
    (temperature : Q) (w : World) : option (list str) * World :=
  let prompt := build_template2_step4a failing_test test_code_snippet in
  let '(response, w') := generate prompt temperature w in
  (bullets_of response, w').

(** main.py, template 2:
    [extract_expected_behavior(...) or ["Could not extract expected behavior"]] *)
Definition expected_for_template2 (failing_test test_code_snippet : str)
    (temperature : Q) (w : World) : option (list str) * World :=
  let '(expected, w') :=
    extract_expected_behavior failing_test test_code_snippet temperature w in
  (match expected with
   | Some [] => Some [L "Could not extract expected behavior"]
   | other => other
   end, w').

End Runtime.

End Expected.

(** ** config.py *)

Module Config.

Record PromptReference := { project : str; bug_id : Z; path : str }.

(** [get_project_stats]: the number of bugs of each project. *)
Definition get_project_stats (refs : list PromptReference) : gmap str Z :=
  foldl (fun stats ref =>
           <[project ref := default 0 (stats !! project ref) + 1]> stats)
        ∅ refs.

(** The last component of the path built by [get_output_dir]:
    [f"{project}-{bug_id}"]. *)
Definition bug_dir_name (project : str) (bug_id : Z) : str :=
  project ++ L "-" ++ str_of_int bug_id.

(** [\d] on one ASCII character. *)
Definition isdigit (c : ascii) : bool :=
  let n := N_of_ascii c in ((48 <=? n) && (n <=? 57))%N.

(** The longest run of digits at the start of a text, and what follows. *)
Fixpoint span_digits (s : str) : str * str :=
  match s with
  | [] => ([], [])
  | c :: s' =>
      if isdigit c then let '(ds, rest) := span_digits s' in (c :: ds, rest)
      else ([], s)
  end.

(** [(\d+)$] at the start of a text: the digits.  [$] is the end of the
    text, or the place before a line feed that ends it. *)
Definition digits_to_end (s : str) : option str :=
  let '(ds, rest) := span_digits s in
  if str_truthy ds
     && (bool_decide (rest = []) || bool_decide (rest = [ascii_of_N 10]))
  then Some ds else None.

(** [re.search(r"-(\d+)$", name)]: group 1 of the leftmost match. *)
Fixpoint search_bug_id (name : str) : option str :=
  match name with
  | [] => None
  | c :: rest =>
      if Ascii.eqb c "-"%char then
        match digits_to_end rest with
        | Some ds => Some ds
        | None => search_bug_id rest
        end
      else search_bug_id rest
  end.

(** [int(ds)] for a text of decimal digits. *)
Definition int_of_digits (ds : str) : option Z :=
  Z.of_uint <$> NilZero.uint_of_string (string_of_list_ascii ds).

(** Lines 222 to 226 of [scan_experiment_outputs]: what the scan reads off
    the base name of a directory that its two [glob] calls returned, the
    bug number, or [None] when the name has no match and the directory is
    passed over.  Which directories [glob] returns is not modelled: it
    returns none whose name starts with a dot, and only those that match
    the pattern [f"{project}-*"], in which [*], [?] and brackets of the
    project name are wildcards. *)
Definition parsed_bug_id (name : str) : option Z :=
  search_bug_id name ≫= int_of_digits.

(** A project name that [glob] takes literally: ASCII letters, digits,
    ["_"] and ["-"] only, and not empty. *)
Definition plain_char (c : ascii) : bool :=
  let n := N_of_ascii c in
  (((48 <=? n) && (n <=? 57)) || ((65 <=? n) && (n <=? 90))
   || ((97 <=? n) && (n <=? 122)) || (n =? 95) || (n =? 45))%N.

Definition plain_name (s : str) : Prop :=
  s <> [] /\ Forall (fun c => plain_char c = true) s.

End Config.

(** ** Further notions used to state properties of the code *)

Module Facts.

(** Every scored bug of a corpus: the results that have ground truth, in
    order, each scored by [evaluate_bug]. *)
Definition all_scored (ground_truth : gmap str (gmap Z (gset str))) (k : Z)
    (results : list (str * Z * result_data)) : list scored :=
  omap (fun r =>
          let '(project, bug_id, data) := r in
          let actual := lookup_truth ground_truth project bug_id in
          if bool_decide (actual = ∅) then None
          else Some {| project := project; bug_id := bug_id;
                       scores := evaluate_bug (map method (top_k data))
                                   actual k |}) results.

(** A non-empty justification that some round gives for an identifier. *)
Definition reason_given (runs : list history_record) (m j : str) : Prop :=
  j <> [] /\
  exists run c,
    run ∈ runs /\ c ∈ record_methods run /\ method c = m /\
    justification c = j.

(** An identifier that some round lists. *)
Definition listed (runs : list history_record) (m : str) : Prop :=
  exists run c, run ∈ runs /\ c ∈ record_methods run /\ method c = m.

(** The ["iteration"] or ["run"] number of a history entry, and the ordered
    identifiers of its ["methods"]. *)
Definition record_index (r : history_record) : Z :=
  match r with
  | IterationRecord iteration _ _ => iteration
  | RunRecord run _ => run
  end.

Definition record_names (r : history_record) : list str :=
  map method (record_methods r).

(** [h[-1]["methods"] if h else []] *)
Definition last_ranking (h : list history_record) : list candidate :=
  match last h with
  | Some r => record_methods r
  | None => []
  end.

(** What the result of the iterative strategy keeps, whatever the oracle
    answered; [max_iterations] is the bound the run was given. *)
Definition zero_shot_kept (max_iterations : Z) (result : InferenceResult)
  : Prop :=
  len (all_iterations result) + len (errors result)
  = Z.max 0 (iterations_used result) /\
  final_ranking result = last_ranking (all_iterations result) /\
  sublist (map record_index (all_iterations result))
          (range_from_1 (iterations_used result)) /\
  (converged result = true ->
   exists h r1 r2,
     all_iterations result = h ++ [r1; r2] /\
     record_names r1 = record_names r2) /\
  (converged result = false -> iterations_used result = max_iterations) /\
  (forall h r1 r2 t,
     all_iterations result = h ++ r1 :: r2 :: t ->
     record_names r1 = record_names r2 ->
     t = [] /\ converged result = true).

(** The text between the first opening brace and the last closing brace,
    both included: what [_extract_json] hands to the parser. *)
Definition braced (text : str) : option str :=
  let start := Client.find_char Client.lbrace text in
  let end_ := Client.rfind_char Client.rbrace text in
  if (start =? -1) || (end_ =? -1) || (end_ <=? start) then None
  else Some (Client.slice start (end_ + 1) text).

(** A text after the two substitutions of [_extract_json]. *)
Definition without_fences (text : str) : str :=
  Client.re_sub (L "```") (Client.re_sub (L "```json") text).

(** A text of white space only. *)
Definition blank (s : str) : Prop := Forall (fun c => isspace c = true) s.

(** A parser for examples: it reads the empty object only. *)
Definition sample_loads (t : str) : list (str * json) + str :=
  if bool_decide (t = L "{}") then inl [] else inr (L "Expecting value").

(** The response that [generate] builds when the request raises an
    exception whose message [str(e)] is empty, as [MemoryError()] or
    [TimeoutError()] have it. *)
Definition raised_silently : LLMResponse :=
  Client.respond sample_loads (inr []) 1.

(** The response of [generate] to a request that raised an exception with
    the given message. *)
Definition raised (message : string) : LLMResponse :=
  Client.respond sample_loads (inr (L message)) 1.

(** *** The calls of the iterative strategy *)

Section Calls.

Variable py_repr : json -> str.
Variable json_dumps : json -> str.
Variable World : Type.
Variable generate : str -> Q -> World -> LLMResponse * World.
Variable wrap_zero_shot : str -> str -> str.

(** The prompts that a run sends, in order: the loop of
    [run_zero_shot_iterative] with its [full_prompt] collected. *)
Fixpoint zero_shot_prompts (base_prompt : str) (temperature : Q)
    (iterations : list Z) (s : loop_state) (w : World) : list str :=
  match iterations with
  | [] => []
  | iteration :: rest =>
      let full_prompt := wrap_zero_shot base_prompt (prev_candidates s) in
      let '(response, w') := generate full_prompt temperature w in
      full_prompt ::
      match iteration_step py_repr json_dumps iteration s response with
      | inl s' => zero_shot_prompts base_prompt temperature rest s' w'
      | inr _ => []
      end
  end.

(** A response that passes the test of the loop (engine.py:187) and is
    recorded in the history, and the last such iteration of a trace. *)
Definition recorded (response : LLMResponse) : bool :=
  negb (call_failed response).

Definition last_recorded (trace : list (Z * LLMResponse))
  : option (Z * LLMResponse) :=
  last (filter (fun x => recorded (snd x) = true) trace).

(** The history entry and the error message that an iteration leaves. *)
Definition record_of (x : Z * LLMResponse) : option history_record :=
  if call_failed x.2 then None
  else Some (IterationRecord x.1 (extract_top_k_methods py_repr x.2)
               (latency_seconds x.2)).

Definition error_of (x : Z * LLMResponse) : option str :=
  if call_failed x.2
  then Some (L "Iteration " ++ str_of_int x.1 ++ L ": " ++ error_text x.2)
  else None.

(** The candidate list fed back after the iterations [before]; [start] is
    the text used while none of them was recorded. *)
Definition feedback (start : str) (before : list (Z * LLMResponse)) : str :=
  match last_recorded before with
  | Some (_, r) => methods_to_json json_dumps (extract_top_k_methods py_repr r)
  | None => start
  end.

End Calls.

(** A text of ASCII characters, the texts on which [lower] and [isspace]
    are Python's [str.lower] and [str.isspace]. *)
Definition ascii_text (s : str) : Prop :=
  Forall (fun c => (N_of_ascii c < 128)%N) s.

End Facts.

(** * Properties *)

(** ** Strings *)

Section Strings.

Implicit Types (s sep : str) (c : ascii).

Lemma startswith_spec sep s :
  startswith sep s = true <-> exists v, s = sep ++ v.
Proof.
  revert s. induction sep as [|a sep IH]; intros s; simpl.
  - split; eauto.
  - destruct s as [|b s].
    + split; [discriminate | intros [v Hv]; discriminate].
    + destruct (Ascii.eqb_spec a b) as [->|Hne].
      * rewrite IH. split; intros [v Hv]; exists v; simpl; congruence.
      * split; [discriminate | intros [v Hv]; simpl in Hv; congruence].
Qed.

Lemma contains_spec sep s :
  contains sep s = true <-> exists u v, s = u ++ sep ++ v.
Proof.
  induction s as [|c s IH]; simpl.
  - rewrite orb_false_r, startswith_spec. split.
    + intros [v Hv]. exists [], v. exact Hv.
    + intros (u & v & Huv). destruct u; simpl in Huv; [eauto|discriminate].
  - rewrite orb_true_iff, startswith_spec, IH. split.
    + intros [[v Hv] | (u & v & Huv)].
      * exists [], v. exact Hv.
      * exists (c :: u), v. simpl. congruence.
    + intros (u & v & Huv). destruct u as [|c' u]; simpl in Huv.
      * left. eauto.
      * right. exists u, v. congruence.
Qed.

Lemma contains_false_infix sep a s b :
  contains sep (a ++ s ++ b) = false -> contains sep s = false.
Proof.
  intros H. destruct (contains sep s) eqn:E; [|reflexivity].
  apply contains_spec in E as (u & v & ->).
  rewrite <- H. symmetry. apply contains_spec.
  exists (a ++ u), (v ++ b). by rewrite <- !app_assoc.
Qed.

Lemma contains_false_suffix sep a s :
  contains sep (a ++ s) = false -> contains sep s = false.
Proof.
  intros H. apply (contains_false_infix sep a s []). by rewrite app_nil_r.
Qed.

Lemma contains_false_prefix sep s b :
  contains sep (s ++ b) = false -> contains sep s = false.
Proof. apply (contains_false_infix sep [] s b). Qed.

Lemma contains_char c s : contains [c] s = true <-> c ∈ s.
Proof.
  rewrite contains_spec. split.
  - intros (u & v & ->). set_solver.
  - intros (u & v & ->)%list_elem_of_split. exists u, v. reflexivity.
Qed.

Lemma contains_char_false c s : contains [c] s = false <-> c ∉ s.
Proof. rewrite <- contains_char. destruct (contains [c] s); naive_solver. Qed.

Lemma rfind_split_None sep s :
  rfind_split sep s = None <-> contains sep s = false.
Proof.
  induction s as [|c s IH]; simpl.
  - rewrite orb_false_r. destruct (startswith sep []); naive_solver.
  - destruct (rfind_split sep s) as [[b a]|].
    + destruct IH as [_ IH]. split; [discriminate|].
      intros [_ H]%orb_false_iff. by apply IH in H.
    + destruct IH as [IH _]. rewrite (IH eq_refl), orb_false_r.
      destruct (startswith sep (c :: s)); naive_solver.
Qed.

Lemma rfind_split_Some sep s before after :
  sep <> [] ->
  rfind_split sep s = Some (before, after) ->
  s = before ++ sep ++ after /\ contains sep (tl (sep ++ after)) = false.
Proof.
  intros Hsep. revert before after.
  induction s as [|c s IH]; intros before after; simpl.
  - destruct sep; [done|]. discriminate.
  - destruct (rfind_split sep s) as [[b a]|] eqn:E.
    + intros [= <- <-]. by destruct (IH b a eq_refl) as [-> ?].
    + destruct (startswith sep (c :: s)) eqn:Hs; [|discriminate].
      intros [= <- <-]. apply startswith_spec in Hs as [v Hv].
      rewrite Hv, drop_app_length. split; [done|].
      apply rfind_split_None in E. rewrite <- Hv. exact E.
Qed.

(** What the body of the separator loop computes. *)
Lemma strip_prefix_at_spec s sep :
  sep <> [] -> Spec.after_last sep s (strip_prefix_at s sep).
Proof.
  intros Hsep. unfold strip_prefix_at, rsplit1.
  destruct (contains sep s) eqn:E; [|by left].
  destruct (rfind_split sep s) as [[b a]|] eqn:R.
  - right. exists b. by apply rfind_split_Some.
  - apply rfind_split_None in R. congruence.
Qed.

Lemma after_last_suffix sep s r :
  Spec.after_last sep s r -> exists a, s = a ++ r.
Proof.
  intros [[_ ->] | (b & -> & _)]; [by exists []|].
  exists (b ++ sep). by rewrite <- app_assoc.
Qed.

Lemma after_last_clean sep s r :
  Spec.after_last sep s r -> contains sep r = false.
Proof.
  intros [[? ->] | (b & -> & H)]; [done|].
  destruct sep as [|x sep']; cbn [app tl] in H.
  - by destruct (tl r).
  - by apply contains_false_suffix in H.
Qed.

Lemma split_char_head c s :
  exists h t, split_char c s = h :: t /\ (c ∉ h) /\
    ((t = [] /\ s = h) \/ exists rest, s = h ++ c :: rest).
Proof.
  induction s as [|x s (h & t & E & Hh & Hs)]; simpl.
  - exists [], []. set_solver.
  - destruct (Ascii.eqb_spec x c) as [->|Hne].
    + exists [], (split_char c s). split_and!; [done|set_solver|].
      right. by exists s.
    + rewrite E. exists (x :: h), t.
      split_and!; [done|by apply not_elem_of_cons|].
      destruct Hs as [[-> ->] | [rest ->]]; [by left|right; by exists rest].
Qed.

(** What cutting at the first parenthesis computes. *)
Lemma cut_paren_spec s :
  Spec.before_paren s
    (if contains (L "(") s then item_first (split_char lparen s) else s).
Proof.
  change (L "(") with [lparen].
  destruct (contains [lparen] s) eqn:E.
  - destruct (split_char_head lparen s) as (h & t & -> & Hh & Hs).
    simpl. destruct Hs as [[-> ->] | [rest ->]].
    + apply contains_char in E. done.
    + right. by exists rest.
  - left. by apply contains_char_false in E.
Qed.

Lemma lstrip_suffix s : exists a, s = a ++ lstrip s.
Proof.
  induction s as [|c s [a IH]]; simpl; [by exists []|].
  destruct (isspace c); [|by exists []].
  exists (c :: a). simpl. congruence.
Qed.

Lemma strip_infix s : exists a b, s = a ++ strip s ++ b.
Proof.
  unfold strip, rstrip.
  destruct (lstrip_suffix s) as [a Ha].
  destruct (lstrip_suffix (rev (lstrip s))) as [b Hb].
  exists a, (rev b). rewrite <- rev_app_distr, <- Hb, rev_involutive. done.
Qed.

Lemma lstrip_spec s :
  exists a,
    s = a ++ lstrip s /\ Forall (fun c => isspace c = true) a /\
    forall c, head (lstrip s) = Some c -> isspace c = false.
Proof.
  induction s as [|c s (a & E & Ha & Hh)]; simpl.
  - exists []. by split_and!.
  - destruct (isspace c) eqn:Hc.
    + exists (c :: a). split_and!; [simpl; congruence|by constructor|done].
    + exists []. split_and!; [done|constructor|]. by intros ? [= <-].
Qed.

(** What [strip] computes. *)
Lemma strip_spec s : Spec.trimmed s (strip s).
Proof.
  unfold strip, rstrip, Spec.trimmed.
  destruct (lstrip_spec s) as (a & Ea & Ha & Hh).
  destruct (lstrip_spec (rev (lstrip s))) as (b & Eb & Hb & Hl).
  set (t := lstrip (rev (lstrip s))) in *.
  assert (lstrip s = rev t ++ rev b) as Et.
  { by rewrite <- rev_app_distr, <- Eb, rev_involutive. }
  exists a, (rev b). split_and!.
  - by rewrite <- Et.
  - done.
  - by apply Forall_rev.
  - intros c Hc. apply Hh. rewrite Et.
    destruct (rev t); [done|]. exact Hc.
  - intros c Hc. apply Hl. destruct t as [|c' t]; [done|].
    simpl in Hc. by rewrite last_snoc in Hc.
Qed.

Lemma lower_char_idemp c : lower_char (lower_char c) = lower_char c.
Proof. by destruct c as [[] [] [] [] [] [] [] []]. Qed.

Lemma lower_idemp s : lower (lower s) = lower s.
Proof.
  unfold lower. rewrite map_map. apply map_ext. apply lower_char_idemp.
Qed.

Lemma uncased_hash : uncased "#".
Proof. by intros [[] [] [] [] [] [] [] []]. Qed.
Lemma uncased_colon : uncased ":".
Proof. by intros [[] [] [] [] [] [] [] []]. Qed.
Lemma uncased_dot : uncased ".".
Proof. by intros [[] [] [] [] [] [] [] []]. Qed.
Lemma uncased_paren : uncased "(".
Proof. by intros [[] [] [] [] [] [] [] []]. Qed.

Lemma startswith_lower sep s :
  Forall uncased sep -> startswith sep (lower s) = startswith sep s.
Proof.
  intros Hsep. revert s.
  induction Hsep as [|a sep Ha _ IH]; intros [|b s]; simpl; try done.
  by rewrite Ha, IH.
Qed.

Lemma contains_lower sep s :
  Forall uncased sep -> contains sep (lower s) = contains sep s.
Proof.
  intros Hsep. induction s as [|c s IH].
  - simpl. rewrite !orb_false_r. by apply (startswith_lower sep []).
  - change (lower (c :: s)) with (lower_char c :: lower s).
    change (contains sep (lower_char c :: lower s))
      with (startswith sep (lower (c :: s)) || contains sep (lower s)).
    rewrite startswith_lower, IH by done. done.
Qed.

End Strings.

(** ** Normalisation *)

Section Normalisation.

Lemma plain_infix a s b : plain (a ++ s ++ b) -> plain s.
Proof.
  intros (H1 & H2 & H3 & H4).
  repeat split; eapply contains_false_infix; eassumption.
Qed.

Lemma plain_lower s : plain s -> plain (lower s).
Proof.
  intros (H1 & H2 & H3 & H4). unfold plain.
  rewrite !contains_lower; [done|..]; unfold L; simpl;
    repeat constructor;
    auto using uncased_hash, uncased_colon, uncased_dot, uncased_paren.
Qed.

(** The decomposition of [normalize_method] into its stages. *)
Lemma normalize_method_stages x :
  exists a b c d,
    Spec.after_last (L "#") (strip x) a /\
    Spec.after_last (L "::") a b /\
    Spec.after_last (L ".") b c /\
    Spec.before_paren c d /\
    normalize_method x = lower d.
Proof.
  unfold normalize_method. cbn [foldl].
  eexists _, _, _, _.
  split_and!; [apply strip_prefix_at_spec; done ..| apply cut_paren_spec|done].
Qed.

Lemma normalize_method_plain x : plain (normalize_method x).
Proof.
  destruct (normalize_method_stages x) as (a & b & c & d & Ha & Hb & Hc & Hd & ->).
  apply plain_lower.
  pose proof (after_last_clean _ _ _ Ha) as Ha'.
  pose proof (after_last_clean _ _ _ Hb) as Hb'.
  pose proof (after_last_clean _ _ _ Hc) as Hc'.
  destruct (after_last_suffix _ _ _ Hb) as [ub ->].
  destruct (after_last_suffix _ _ _ Hc) as [uc ->].
  apply contains_false_suffix in Ha'.
  pose proof (contains_false_suffix _ _ _ Ha') as Ha''.
  pose proof (contains_false_suffix _ _ _ Hb') as Hb''.
  assert (contains (L "(") d = false /\ exists rest, c = d ++ rest)
    as [Hp [rest ->]].
  { change (L "(") with [lparen]. rewrite contains_char_false.
    destruct Hd as [[? ->] | (rest & -> & ?)]; split; try done.
    - exists []. by rewrite app_nil_r.
    - by exists (lparen :: rest). }
  repeat split; try done; eapply contains_false_prefix; eassumption.
Qed.

Lemma normalize_method_lowered x :
  lower (normalize_method x) = normalize_method x.
Proof. unfold normalize_method. apply lower_idemp. Qed.

Lemma lower_infix a s b : lower (a ++ s ++ b) = a ++ s ++ b -> lower s = s.
Proof.
  unfold lower. rewrite !map_app. intros H.
  apply app_inj_1 in H as [_ H]; [|by rewrite length_map].
  apply app_inj_1 in H as [H _]; [done|by rewrite length_map].
Qed.

(** On a plain lower-case string, [normalize_method] only trims. *)
Lemma normalize_method_on_plain y :
  plain y -> lower y = y -> normalize_method y = strip y.
Proof.
  intros Hy Hl.
  destruct (strip_infix y) as (a & b & E).
  assert (plain (strip y)) as (H1 & H2 & H3 & H4).
  { eapply plain_infix. rewrite <- E. done. }
  assert (lower (strip y) = strip y) as Hl'.
  { eapply lower_infix. rewrite <- E. done. }
  unfold normalize_method. cbn [foldl]. unfold strip_prefix_at.
  by rewrite H1, H2, H3, H4.
Qed.

End Normalisation.

(** C5 fails as stated: on "a#b.c" the separator "." is still applied after
    "#" was found, so the result is "c" and not "b.c". *)
Lemma normalize_method_not_first_separator_only :
  normalize_method (L "a#b.c") = L "c" /\
  Spec.normalize_first_separator (L "a#b.c") = L "b.c" /\
  normalize_method (L "a#b.c") <> Spec.normalize_first_separator (L "a#b.c").
Proof. by vm_compute. Qed.

(** C9 (as amended).  A second normalisation only trims what the first one
    left: [normalize_method] is idempotent at [x] exactly when the normal
    form of [x] has no whitespace at either end. *)
Theorem normalize_method_idempotent_iff (x : str) :
  normalize_method (normalize_method x) = strip (normalize_method x) /\
  (normalize_method (normalize_method x) = normalize_method x <->
   strip (normalize_method x) = normalize_method x).
Proof.
  rewrite (normalize_method_on_plain (normalize_method x)); [done|..].
  - apply normalize_method_plain.
  - apply normalize_method_lowered.
Qed.

Lemma normalize_method_idempotent_iff_witness :
  normalize_method (normalize_method (L "org.B.bar()"))
  = normalize_method (L "org.B.bar()").
Proof.
  apply (proj2 (proj2 (normalize_method_idempotent_iff (L "org.B.bar()")))).
  reflexivity.
Defined.

(** C9 fails as stated: "foo (x)" normalises to "foo " (with the space),
    which normalises to "foo". *)
Lemma normalize_method_not_idempotent :
  normalize_method (normalize_method (L "foo (x)"))
  <> normalize_method (L "foo (x)").
Proof. by vm_compute. Qed.

(** ** Scoring one bug *)

(** C4 (as amended).  With no prediction, truth [{"a"}] and [k = 5], no
    hit flag is set, precision, recall and F1 are 0, and the accuracy is 1:
    [tn = max(0, 5 - 0 - 0) = 5] and [accuracy = (0 + 5) / 5]. *)
Theorem evaluate_bug_empty_prediction :
  let m := evaluate_bug [] {[ L "a" ]} 5 in
  top_1 m = false /\ top_3 m = false /\ top_5 m = false /\
  (precision m == 0)%Q /\ (recall m == 0)%Q /\ (f1 m == 0)%Q /\
  tn (confusion [] {[ L "a" ]} 5) = 5 /\
  (accuracy m == 1)%Q.
Proof. by vm_compute. Qed.

(** C4 fails as stated: the accuracy of the empty prediction is not 0. *)
Lemma evaluate_bug_empty_prediction_accuracy :
  ~ (accuracy (evaluate_bug [] {[ L "a" ]} 5) == 0)%Q.
Proof. by vm_compute. Qed.

(** The two scoring scenarios of the specification: a perfect match, and a
    miss followed by a hit. *)
Example evaluate_bug_perfect_match :
  let m := evaluate_bug [L "org.B.bar()"] {[ L "org.B.bar" ]} 5 in
  pred_norm [L "org.B.bar()"] 5 = [L "bar"] /\
  top_1 m = true /\ top_3 m = true /\ top_5 m = true /\
  (precision m == 1)%Q /\ (recall m == 1)%Q /\ (f1 m == 1)%Q.
Proof. by vm_compute. Qed.

Example evaluate_bug_mixed :
  let m :=
    evaluate_bug [L "org.A.foo(String)"; L "org.B.bar()"] {[ L "B.bar" ]} 5 in
  pred_norm [L "org.A.foo(String)"; L "org.B.bar()"] 5 = [L "foo"; L "bar"] /\
  top_1 m = false /\ top_3 m = true /\
  (precision m == 1 # 2)%Q /\ (recall m == 1)%Q /\ (f1 m == 2 # 3)%Q.
Proof. by vm_compute. Qed.

(** ** The response parser *)

Section Parser.

Context (py_repr : json -> str).

Lemma extract_top_k_methods_omap response :
  extract_top_k_methods py_repr response
  = omap (extract_item py_repr) (Spec.top_k_array response).
Proof.
  unfold extract_top_k_methods, Spec.top_k_array.
  destruct (parsed_json response) as [d|]; [|done].
  destruct (dict_get (L "top_k") (JArr []) d) as [| | | | |items|]; try done.
  enough (forall acc,
    foldl (fun results item =>
             match extract_item py_repr item with
             | Some c => results ++ [c]
             | None => results
             end) acc items
    = acc ++ omap (extract_item py_repr) items) as H by apply (H []).
  induction items as [|item items IH]; intros acc; simpl.
  - by rewrite app_nil_r.
  - rewrite IH. destruct (extract_item py_repr item); [|done].
    by rewrite <- app_assoc.
Qed.

Lemma length_omap_le {A B} (f : A -> option B) (l : list A) :
  (length (omap f l) <= length l)%nat.
Proof.
  induction l as [|x l IH]; simpl; [done|].
  unfold omap in IH. destruct (f x); simpl; lia.
Qed.

Lemma extract_item_nameless item :
  Spec.nameless item -> extract_item py_repr item = None.
Proof.
  destruct item as [| | | | | |d]; try done.
  simpl. intros [-> ->]. done.
Qed.

Lemma extract_item_named d v :
  Spec.named d v ->
  extract_item py_repr (JObj d)
  = Some {| method := strip (py_str py_repr v);
            justification :=
              strip (py_str py_repr
                       (dict_get (L "justification") (JStr []) d)) |}.
Proof.
  intros [Hv [->|[Hm ->]]]; cbn [extract_item].
  - by rewrite !Hv.
  - by rewrite !Hm, !Hv.
Qed.

Lemma nameless_or_named item :
  Spec.nameless item \/ exists d v, item = JObj d /\ Spec.named d v.
Proof.
  destruct item as [| | | | | |d]; try by left.
  destruct (truthy (dict_get (L "method") (JStr []) d)) eqn:Hm.
  { right. exists d, (dict_get (L "method") (JStr []) d).
    split; [done|]. split; [done|by left]. }
  destruct (truthy (dict_get (L "method_name") (JStr []) d)) eqn:Hn.
  { right. exists d, (dict_get (L "method_name") (JStr []) d).
    split; [done|]. split; [done|by right]. }
  by left.
Qed.

(** C7 (as amended).  The parser emits one entry for each element of the
    [top_k] array that it accepts, in the order of the array, so the list
    is no longer than the array.  It accepts the records that have a
    non-empty value under ["method"], or else under ["method_name"]: the
    entry holds that value and the value under ["justification"], both as
    text and trimmed.  Every other element (not a record, or a record
    whose method name is missing or empty) is dropped silently.  Nothing is
    removed for being a duplicate and no bound [K] is applied: the parse
    of two arrays put end to end is the two parses put end to end. *)
Theorem extract_top_k_methods_entries (response : LLMResponse) :
  extract_top_k_methods py_repr response
  = omap (extract_item py_repr) (Spec.top_k_array response) /\
  (length (extract_top_k_methods py_repr response)
   <= length (Spec.top_k_array response))%nat /\
  (forall d v,
     Spec.named d v ->
     extract_item py_repr (JObj d)
     = Some {| method := strip (py_str py_repr v);
               justification :=
                 strip (py_str py_repr
                          (dict_get (L "justification") (JStr []) d)) |}) /\
  (forall item, Spec.nameless item -> extract_item py_repr item = None) /\
  (forall item,
     Spec.nameless item \/ exists d v, item = JObj d /\ Spec.named d v) /\
  (forall more both,
     Spec.top_k_array both
     = Spec.top_k_array response ++ Spec.top_k_array more ->
     extract_top_k_methods py_repr both
     = extract_top_k_methods py_repr response
         ++ extract_top_k_methods py_repr more).
Proof.
  split_and!.
  - apply extract_top_k_methods_omap.
  - rewrite extract_top_k_methods_omap. apply length_omap_le.
  - apply extract_item_named.
  - apply extract_item_nameless.
  - apply nameless_or_named.
  - intros more both H. rewrite !extract_top_k_methods_omap, H.
    apply omap_app.
Qed.

End Parser.

(** An array with a record named by ["method"], a number, a record named
    by ["method_name"] and a record without a name: two entries, trimmed;
    and a doubled array gives every entry twice. *)
Lemma extract_top_k_methods_entries_witness :
  extract_top_k_methods Sample.no_repr Sample.mixed_answer
  = [ {| method := L "a"; justification := L "j" |};
      {| method := L "b"; justification := [] |} ] /\
  extract_top_k_methods Sample.no_repr (Sample.answer ["a"; "b"; "a"; "b"])
  = extract_top_k_methods Sample.no_repr (Sample.answer ["a"; "b"])
      ++ extract_top_k_methods Sample.no_repr (Sample.answer ["a"; "b"]).
Proof.
  split.
  - rewrite (proj1 (extract_top_k_methods_entries Sample.no_repr
                      Sample.mixed_answer)).
    reflexivity.
  - apply (proj2 (proj2 (proj2 (proj2 (proj2
      (extract_top_k_methods_entries Sample.no_repr
         (Sample.answer ["a"; "b"]))))))).
    reflexivity.
Defined.

(** C7 fails as stated: a response naming the same method twice yields both
    entries, and more entries than a bound of 1 would allow. *)
Lemma extract_top_k_methods_keeps_duplicates :
  let ranked := extract_top_k_methods Sample.no_repr (Sample.answer ["a"; "a"]) in
  map method ranked = [L "a"; L "a"] /\
  ~ NoDup (map method ranked) /\
  ~ (length ranked <= 1)%nat.
Proof.
  split_and!; [done| |vm_compute; lia].
  vm_compute. intros H. apply NoDup_cons_1_1 in H. apply H. left.
Qed.

(** ** The self-consistency strategy *)

Section SelfConsistency.

Context (py_repr : json -> str) {World : Type}
  (generate : str -> Q -> World -> LLMResponse * World)
  (wrap_self_consistency : str -> str).

Local Abbreviation loop :=
  (self_consistency_loop py_repr World generate wrap_self_consistency).
Local Abbreviation run :=
  (run_self_consistency py_repr World generate wrap_self_consistency).

Lemma slice_to_nil {A} k : slice_to k (@nil A) = [].
Proof. unfold slice_to. destruct (0 <=? k); apply take_nil. Qed.

Lemma aggregate_results_nil top_k : _aggregate_results [] top_k = [].
Proof.
  unfold _aggregate_results, ranked_items. simpl. by rewrite slice_to_nil.
Qed.

(** While every call fails, the list of runs does not grow and every run
    leaves one error. *)
Lemma self_consistency_loop_down base_prompt temperature runs s w :
  (forall prompt t w', call_failed (generate prompt t w').1 = true) ->
  sc_all_runs (loop base_prompt temperature runs s w).1 = sc_all_runs s /\
  length (sc_errors (loop base_prompt temperature runs s w).1)
  = (length (sc_errors s) + length runs)%nat.
Proof.
  intros Hdown. revert s w.
  induction runs as [|run_idx rest IH]; intros s w; simpl.
  - split; [done|lia].
  - specialize (Hdown (wrap_self_consistency base_prompt) temperature w).
    destruct (generate _ temperature w) as [response w'].
    simpl in Hdown. destruct (IH (run_step py_repr run_idx s response) w')
      as [-> ->].
    unfold run_step. rewrite Hdown. simpl. rewrite length_app. simpl.
    split; [done|lia].
Qed.

(** C10.  The self-consistency strategy always reports [converged = true]
    and [iterations_used = num_runs], whatever the rounds returned; when
    every call fails the history and the final ranking are empty and the
    flag is still set. *)
Theorem run_self_consistency_always_converged
    (base_prompt : str) (num_runs : Z) (temperature : Q) (top_k : Z)
    (w : World) :
  let result := (run base_prompt num_runs temperature top_k w).1 in
  converged result = true /\
  iterations_used result = num_runs /\
  ((forall prompt t w', call_failed (generate prompt t w').1 = true) ->
   all_iterations result = [] /\ final_ranking result = [] /\
   converged result = true).
Proof.
  unfold run_self_consistency.
  pose proof (self_consistency_loop_down base_prompt temperature
                (range_from_1 num_runs)
                {| sc_all_runs := []; sc_total_latency := 0; sc_errors := [] |}
                w) as Hdown.
  destruct (loop base_prompt temperature (range_from_1 num_runs) _ w)
    as [s w'].
  simpl in *. split_and!; try done.
  intros H. destruct (Hdown H) as [-> _].
  by rewrite aggregate_results_nil.
Qed.

End SelfConsistency.

Lemma run_self_consistency_always_converged_witness :
  let result :=
    (run_self_consistency Sample.no_repr unit Sample.down Sample.plain_wrap1
       (L "prompt") 3 0.7 10 tt).1 in
  all_iterations result = [] /\ final_ranking result = [] /\
  converged result = true.
Proof.
  apply (proj2 (proj2
    (run_self_consistency_always_converged Sample.no_repr Sample.down
       Sample.plain_wrap1 (L "prompt") 3 0.7 10 tt))).
  intros prompt t w'. reflexivity.
Defined.

(** ** The evaluation report *)

Section Report.

Context (ground_truth : gmap str (gmap Z (gset str))) (k : Z).

Lemma sumZ_cons x l : sumZ (x :: l) = x + sumZ l.
Proof. reflexivity. Qed.

Lemma sumQ_cons x l : sumQ (x :: l) = (x + sumQ l)%Q.
Proof. reflexivity. Qed.

Lemma group_results_lookup results p :
  default [] (group_results results ground_truth k !! p)
  = Spec.scored_of ground_truth k p results.
Proof.
  unfold group_results.
  enough (forall acc : gmap str (list scored),
            default [] (foldl (add_result ground_truth k) acc results !! p)
            = default [] (acc !! p) ++ Spec.scored_of ground_truth k p results)
    as H by (rewrite H; by rewrite lookup_empty).
  induction results as [|[[project bug_id] data] results IH]; intros acc.
  - simpl. by rewrite app_nil_r.
  - simpl. rewrite IH. unfold add_result.
    case_bool_decide as Htruth; simpl.
    + by rewrite andb_false_r.
    + rewrite andb_true_r. case_bool_decide as Hp.
      * subst. rewrite lookup_insert_eq. simpl. by rewrite <- app_assoc.
      * by rewrite lookup_insert_ne.
Qed.

(** One project adds its number of bugs to [total_bugs] and its mean times
    that number to each metric total. *)
Lemma project_step_totals (pr : gmap str (list scored)) lines t p :
  let bugs := default [] (pr !! p) in
  exists block t1,
    project_step pr (lines, t) p = (lines ++ block, t1) /\
    total_bugs t1 = total_bugs t + len bugs /\
    (total_precision t1
     == total_precision t + mean_of precision bugs * inject_Z (len bugs))%Q /\
    (total_recall t1
     == total_recall t + mean_of recall bugs * inject_Z (len bugs))%Q /\
    (total_f1 t1 == total_f1 t + mean_of f1 bugs * inject_Z (len bugs))%Q /\
    (total_accuracy t1
     == total_accuracy t + mean_of accuracy bugs * inject_Z (len bugs))%Q.
Proof.
  intros bugs. unfold project_step. fold bugs.
  destruct (len bugs =? 0) eqn:E.
  - apply Z.eqb_eq in E. exists [], t. rewrite app_nil_r, E.
    change (inject_Z 0) with 0%Q. split_and!; [done|lia|ring..].
  - eexists _, _. split; [reflexivity|].
    cbn [total_bugs total_precision total_recall total_f1 total_accuracy].
    split_and!; [lia|reflexivity..].
Qed.

Lemma project_loop_totals (pr : gmap str (list scored)) ps lines t :
  let groups := map (fun p => default [] (pr !! p)) ps in
  exists blocks t',
    foldl (project_step pr) (lines, t) ps = (lines ++ blocks, t') /\
    total_bugs t' = total_bugs t + sumZ (map len groups) /\
    (total_precision t'
     == total_precision t + Spec.weighted_sum precision groups)%Q /\
    (total_recall t' == total_recall t + Spec.weighted_sum recall groups)%Q /\
    (total_f1 t' == total_f1 t + Spec.weighted_sum f1 groups)%Q /\
    (total_accuracy t'
     == total_accuracy t + Spec.weighted_sum accuracy groups)%Q.
Proof.
  revert lines t. induction ps as [|p ps IH]; intros lines t.
  - exists [], t. rewrite app_nil_r. unfold Spec.weighted_sum. simpl.
    split_and!; [done|lia|ring..].
  - cbn [foldl map].
    destruct (project_step_totals pr lines t p)
      as (block & t1 & -> & Hb1 & Hp1 & Hr1 & Hf1 & Ha1).
    destruct (IH (lines ++ block) t1)
      as (blocks & t' & -> & Hb & Hp & Hr & Hf & Ha).
    exists (block ++ blocks), t'. rewrite <- app_assoc. split; [done|].
    unfold Spec.weighted_sum in *. cbn [map].
    rewrite sumZ_cons, !sumQ_cons.
    rewrite Hb, Hp, Hr, Hf, Ha, Hb1, Hp1, Hr1, Hf1, Ha1.
    split_and!; [lia|ring..].
Qed.

Lemma report_structure results benchmark_type :
  let groups := Spec.project_groups results ground_truth k in
  exists blocks t,
    generate_evaluation_report results ground_truth k benchmark_type
    = header k benchmark_type ++ blocks ++ global_lines benchmark_type t /\
    total_bugs t = sumZ (map len groups) /\
    (total_precision t == Spec.weighted_sum precision groups)%Q /\
    (total_recall t == Spec.weighted_sum recall groups)%Q /\
    (total_f1 t == Spec.weighted_sum f1 groups)%Q /\
    (total_accuracy t == Spec.weighted_sum accuracy groups)%Q.
Proof.
  unfold generate_evaluation_report, Spec.project_groups.
  set (pr := group_results results ground_truth k).
  destruct (project_loop_totals pr (sorted_projects pr)
              (header k benchmark_type) totals_zero)
    as (blocks & t & -> & Hb & Hp & Hr & Hf & Ha).
  assert (map (fun p => default [] (pr !! p)) (sorted_projects pr)
          = map (fun p => Spec.scored_of ground_truth k p results)
                (sorted_projects pr)) as E.
  { apply map_ext. intros p. apply group_results_lookup. }
  rewrite E in *. exists blocks, t. rewrite <- app_assoc.
  simpl in *. rewrite Hb, Hp, Hr, Hf, Ha. split_and!; [done|lia|ring..].
Qed.


End Report.


(** ** Sorting *)

Section Sorting.

Context {A : Type} `{EqDecision A} (ltb : A -> A -> bool).

Local Abbreviation le := (fun x y => ltb y x = false).

Lemma insert_sorted_Permutation x l : insert_sorted ltb x l ≡ₚ x :: l.
Proof.
  induction l as [|y l IH]; simpl; [done|].
  destruct (ltb y x); [|done]. rewrite IH. apply Permutation_swap.
Qed.

Lemma sorted_Permutation l : sorted ltb l ≡ₚ l.
Proof.
  induction l as [|x l IH]; simpl; [done|].
  by rewrite insert_sorted_Permutation, IH.
Qed.

Hypothesis ltb_asym : forall x y, ltb x y = true -> ltb y x = false.
Hypothesis le_trans :
  forall x y z, ltb y x = false -> ltb z y = false -> ltb z x = false.

Lemma insert_sorted_StronglySorted x l :
  StronglySorted le l -> StronglySorted le (insert_sorted ltb x l).
Proof.
  induction 1 as [|y l Hl IH Hy]; simpl.
  - by repeat constructor.
  - destruct (ltb y x) eqn:E.
    + constructor; [done|].
      rewrite insert_sorted_Permutation. constructor; [|done].
      by apply ltb_asym.
    + constructor; [by constructor|]. constructor; [done|].
      eapply Forall_impl; [exact Hy|]. intros z Hz. by eapply le_trans.
Qed.

Lemma sorted_StronglySorted l : StronglySorted le (sorted ltb l).
Proof.
  induction l as [|x l IH]; simpl; [constructor|].
  by apply insert_sorted_StronglySorted.
Qed.


End Sorting.

(** ** The vote table *)

Section Votes.

Implicit Types (m : str) (st : stat) (stats : list (str * stat))
  (votes : list (Z * candidate)) (runs : list history_record).

Lemma key_ltb_true (x y : str * Z * Q * str) :
  key_ltb x y = true <->
  x.1.1.2 > y.1.1.2 \/ (x.1.1.2 = y.1.1.2 /\ (x.1.2 < y.1.2)%Q).
Proof.
  destruct x as [[[mx cx] ax] jx], y as [[[my cy] ay] jy]. simpl.
  rewrite orb_true_iff, andb_true_iff, Z.ltb_lt, Z.eqb_eq, negb_true_iff.
  rewrite <- not_true_iff_false, Qle_bool_iff.
  split; (intros [H|[H1 H2]]; [left; lia|right; split; [lia|lra]]).
Qed.

Lemma key_ltb_false (x y : str * Z * Q * str) :
  key_ltb x y = false <->
  x.1.1.2 < y.1.1.2 \/ (x.1.1.2 = y.1.1.2 /\ (y.1.2 <= x.1.2)%Q).
Proof.
  rewrite <- not_true_iff_false, key_ltb_true. split.
  - intros H.
    destruct (Z.lt_trichotomy (x.1.1.2) (y.1.1.2)) as [?|[?|?]];
      [by left| |exfalso; apply H; left; lia].
    right. split; [done|].
    destruct (Qlt_le_dec (x.1.2) (y.1.2)); [|done].
    exfalso. apply H. by right.
  - intros [H|[H1 H2]] [H'|[H1' H2']]; first [lia|lra].
Qed.

Lemma key_ltb_asym x y : key_ltb x y = true -> key_ltb y x = false.
Proof.
  rewrite key_ltb_true, key_ltb_false.
  intros [H|[H1 H2]]; [left; lia|right; split; [lia|lra]].
Qed.

Lemma key_le_trans x y z :
  key_ltb y x = false -> key_ltb z y = false -> key_ltb z x = false.
Proof.
  rewrite !key_ltb_false.
  intros [H|[H1 H2]] [H'|[H1' H2']];
    first [left; lia|right; split; [lia|lra]].
Qed.

Lemma ranked_items_Permutation runs :
  ranked_items runs ≡ₚ map vote_item (tally runs).
Proof. apply sorted_Permutation. Qed.

Lemma ranked_items_ascending runs : Spec.ascending (ranked_items runs).
Proof.
  apply sorted_StronglySorted; [apply key_ltb_asym|apply key_le_trans].
Qed.

(** *** The table as a map *)

Lemma stats_alter_keys f m stats :
  map fst (stats_alter f m stats) = map fst stats.
Proof.
  induction stats as [|[m' st] stats IH]; simpl; [done|].
  case_bool_decide; simpl; [done|]. by rewrite IH.
Qed.

Lemma stats_get_alter f m m' stats :
  Spec.stats_get m' (stats_alter f m stats)
  = if bool_decide (m = m') then f <$> Spec.stats_get m' stats
    else Spec.stats_get m' stats.
Proof.
  induction stats as [|[m0 st] stats IH]; [simpl; by case_bool_decide|].
  cbn [stats_alter Spec.stats_get].
  destruct (decide (m0 = m)) as [->|H0].
  - rewrite (bool_decide_eq_true_2 (m = m)) by done.
    cbn [Spec.stats_get]. by case_bool_decide.
  - rewrite (bool_decide_eq_false_2 (m0 = m)) by done.
    cbn [Spec.stats_get]. rewrite IH.
    destruct (decide (m0 = m')) as [->|H1].
    + rewrite (bool_decide_eq_true_2 (m' = m')) by done.
      by rewrite (bool_decide_eq_false_2 (m = m')) by congruence.
    + by rewrite (bool_decide_eq_false_2 (m0 = m')) by done.
Qed.

Lemma stats_get_snoc m m' st stats :
  Spec.stats_get m' (stats ++ [(m, st)])
  = match Spec.stats_get m' stats with
    | Some x => Some x
    | None => if bool_decide (m = m') then Some st else None
    end.
Proof.
  induction stats as [|[m0 st0] stats IH]; simpl; [done|].
  by destruct (bool_decide (m0 = m')).
Qed.

Lemma stats_get_keys m stats :
  m ∈ map fst stats <-> is_Some (Spec.stats_get m stats).
Proof.
  induction stats as [|[m0 st0] stats IH]; simpl.
  - rewrite elem_of_nil. split; [done|]. by intros [? ?].
  - rewrite elem_of_cons, IH. case_bool_decide; simplify_eq.
    + split; [by eexists|by left].
    + split; [by intros [?|?]|by right].
Qed.

Lemma stats_get_elem_of m st stats :
  NoDup (map fst stats) -> (m, st) ∈ stats -> Spec.stats_get m stats = Some st.
Proof.
  induction stats as [|[m0 st0] stats IH]; simpl.
  - by intros _ ?%elem_of_nil.
  - intros [Hm0 Hnd]%NoDup_cons [[= -> ->]|Hin]%elem_of_cons.
    + by rewrite bool_decide_eq_true_2.
    + case_bool_decide; [|by apply IH]. subst. exfalso. apply Hm0.
      by apply (list_elem_of_fmap_2 fst) in Hin.
Qed.

(** *** One vote *)

Lemma record_vote_keys stats rank item :
  map fst (record_vote stats rank item)
  = (if bool_decide (method item ∈ map fst stats)
        || negb (str_truthy (method item))
     then map fst stats else map fst stats ++ [method item]).
Proof.
  unfold record_vote, stats_mem.
  destruct (str_truthy (method item)); simpl; [|by rewrite orb_true_r].
  rewrite orb_false_r, stats_alter_keys.
  case_bool_decide; [done|]. by rewrite map_app.
Qed.

Lemma extend_one st rank item :
  Spec.extend st (method item) [(rank, item)]
  = {| count := count st + 1;
       ranks := ranks st ++ [rank];
       justifications :=
         if str_truthy (justification item)
         then justifications st ++ [justification item]
         else justifications st |}.
Proof.
  unfold Spec.extend, Spec.ranks_of, Spec.reasons_of. simpl.
  rewrite bool_decide_eq_true_2 by done. simpl.
  destruct (str_truthy (justification item)); [done|].
  by rewrite app_nil_r.
Qed.

Lemma record_vote_get stats rank item m :
  Spec.stats_get m (record_vote stats rank item)
  = if bool_decide (method item = m) && str_truthy m
    then Some (Spec.extend (default Spec.no_votes (Spec.stats_get m stats))
                 m [(rank, item)])
    else Spec.stats_get m stats.
Proof.
  unfold record_vote, stats_mem.
  destruct (decide (method item = m)) as [<-|Hm].
  - rewrite (bool_decide_eq_true_2 (method item = method item)) by done.
    destruct (str_truthy (method item)); simpl; [|done].
    rewrite extend_one, stats_get_alter, bool_decide_eq_true_2 by done.
    destruct (decide (method item ∈ map fst stats)) as [Hin|Hin].
    + rewrite (bool_decide_eq_true_2 _ Hin).
      apply stats_get_keys in Hin as [st ->]. done.
    + rewrite (bool_decide_eq_false_2 _ Hin), stats_get_snoc.
      destruct (Spec.stats_get (method item) stats) as [st|] eqn:E.
      * exfalso. apply Hin, stats_get_keys. by rewrite E.
      * by rewrite bool_decide_eq_true_2.
  - rewrite (bool_decide_eq_false_2 (method item = m)) by done.
    destruct (str_truthy (method item)); simpl; [|done].
    rewrite stats_get_alter, bool_decide_eq_false_2 by done.
    destruct (bool_decide (method item ∈ map fst stats)); [done|].
    rewrite stats_get_snoc. destruct (Spec.stats_get m stats); [done|].
    by rewrite bool_decide_eq_false_2.
Qed.

(** *** All votes *)

Lemma extend_nil st m : Spec.extend st m [] = st.
Proof.
  destruct st as [c r j]. unfold Spec.extend. simpl.
  by rewrite Z.add_0_r, !app_nil_r.
Qed.

Lemma ranks_of_cons m v votes :
  Spec.ranks_of m (v :: votes)
  = (if bool_decide (method v.2 = m) then [v.1] else [])
      ++ Spec.ranks_of m votes.
Proof.
  unfold Spec.ranks_of. simpl. by destruct (bool_decide (method v.2 = m)).
Qed.

Lemma reasons_of_cons m v votes :
  Spec.reasons_of m (v :: votes)
  = (if bool_decide (method v.2 = m) && str_truthy (justification v.2)
     then [justification v.2] else [])
      ++ Spec.reasons_of m votes.
Proof.
  unfold Spec.reasons_of. simpl.
  by destruct (bool_decide (method v.2 = m) && str_truthy (justification v.2)).
Qed.

Lemma len_app {B} (l1 l2 : list B) : len (l1 ++ l2) = len l1 + len l2.
Proof. unfold len. rewrite length_app. lia. Qed.

Lemma extend_cons st m v votes :
  Spec.extend st m (v :: votes)
  = Spec.extend
      (if bool_decide (method v.2 = m) then Spec.extend st m [v] else st)
      m votes.
Proof.
  destruct (bool_decide (method v.2 = m)) eqn:E; unfold Spec.extend;
    rewrite ranks_of_cons, reasons_of_cons, E; [|done].
  cbn [count ranks justifications].
  rewrite (ranks_of_cons m v []), (reasons_of_cons m v []), E.
  change (Spec.ranks_of m []) with (@nil Z).
  change (Spec.reasons_of m []) with (@nil str).
  rewrite !app_nil_r, !len_app, <- !app_assoc. f_equal. lia.
Qed.

Lemma voted_cons m v votes :
  Spec.voted m (v :: votes) = bool_decide (method v.2 = m) || Spec.voted m votes.
Proof.
  unfold Spec.voted. rewrite ranks_of_cons.
  by destruct (bool_decide (method v.2 = m)).
Qed.

Local Abbreviation vote := (fun stats v => record_vote stats v.1 v.2).

(** The entry of an identifier after a list of votes. *)
Lemma votes_get votes stats m :
  str_truthy m = true ->
  Spec.stats_get m (foldl vote stats votes)
  = match Spec.stats_get m stats with
    | Some st => Some (Spec.extend st m votes)
    | None =>
        if Spec.voted m votes then Some (Spec.extend Spec.no_votes m votes)
        else None
    end.
Proof.
  intros Hm. revert stats.
  induction votes as [|v votes IH]; intros stats.
  - simpl. destruct (Spec.stats_get m stats); [|done]. by rewrite extend_nil.
  - destruct v as [rank item].
    cbn [foldl]. rewrite IH, record_vote_get, Hm, andb_true_r, voted_cons.
    destruct (Spec.stats_get m stats) as [st|];
      rewrite ?(extend_cons _ m (rank, item) votes); cbn [fst snd];
      by destruct (bool_decide (method item = m)).
Qed.

(** The keys of the table are the identifiers in the order in which they
    were first seen. *)
Lemma votes_keys votes stats :
  map fst (foldl vote stats votes)
  = foldl Spec.see (map fst stats) (map (fun v => method v.2) votes).
Proof.
  revert stats. induction votes as [|v votes IH]; intros stats; [done|].
  cbn [foldl map]. by rewrite IH, record_vote_keys.
Qed.

Lemma see_NoDup l seen :
  NoDup seen -> Forall (fun m => str_truthy m = true) seen ->
  NoDup (foldl Spec.see seen l) /\
  Forall (fun m => str_truthy m = true) (foldl Spec.see seen l).
Proof.
  revert seen. induction l as [|m l IH]; intros seen Hnd Ht; [done|].
  cbn [foldl]. apply IH; unfold Spec.see.
  - case_bool_decide as Hin; simpl; [done|].
    destruct (str_truthy m); simpl; [|done].
    apply NoDup_app. split_and!; [done| |apply NoDup_singleton].
    intros x Hx ->%list_elem_of_singleton. done.
  - destruct (bool_decide (m ∈ seen)); simpl; [done|].
    destruct (str_truthy m) eqn:E; simpl; [|done].
    apply Forall_app. split; [done|]. by constructor.
Qed.

Lemma foldl_concat {B C} (f : B -> C -> B) (ls : list (list C)) (b : B) :
  foldl f b (concat ls) = foldl (fun acc l => foldl f acc l) b ls.
Proof.
  revert b. induction ls as [|l ls IH]; intros b; [done|].
  simpl. by rewrite foldl_app, IH.
Qed.

Lemma tally_votes runs : tally runs = foldl vote [] (Spec.votes_of runs).
Proof.
  unfold tally, Spec.votes_of. rewrite foldl_concat.
  generalize (@nil (str * stat)).
  induction runs as [|run runs IH]; intros stats; [done|].
  simpl. by rewrite IH.
Qed.

Lemma tally_keys runs : map fst (tally runs) = Spec.identifiers runs.
Proof. by rewrite tally_votes, votes_keys. Qed.

Lemma identifiers_NoDup runs :
  NoDup (Spec.identifiers runs) /\
  Forall (fun m => str_truthy m = true) (Spec.identifiers runs).
Proof. apply see_NoDup; [apply NoDup_nil_2|constructor]. Qed.

(** Every entry of the table holds the votes of its identifier. *)
Lemma tally_entries runs :
  map vote_item (tally runs)
  = map (Spec.item_of runs) (Spec.identifiers runs).
Proof.
  rewrite <- tally_keys, map_map.
  apply map_ext_in. intros [m st] Hin%list_elem_of_In.
  destruct (identifiers_NoDup runs) as [Hnd Ht]. rewrite <- tally_keys in Hnd, Ht.
  assert (str_truthy m = true) as Hm.
  { rewrite Forall_forall in Ht. apply Ht.
    by apply (list_elem_of_fmap_2 fst) in Hin. }
  pose proof (stats_get_elem_of m st _ Hnd Hin) as Hget.
  rewrite tally_votes, votes_get in Hget by done. simpl in Hget.
  unfold Spec.item_of. simpl.
  destruct (Spec.voted m (Spec.votes_of runs)); by simplify_eq.
Qed.

(** *** Counts, positions and justifications *)

Lemma ranks_of_app m votes1 votes2 :
  Spec.ranks_of m (votes1 ++ votes2)
  = Spec.ranks_of m votes1 ++ Spec.ranks_of m votes2.
Proof. apply omap_app. Qed.

Lemma reasons_of_app m votes1 votes2 :
  Spec.reasons_of m (votes1 ++ votes2)
  = Spec.reasons_of m votes1 ++ Spec.reasons_of m votes2.
Proof. apply omap_app. Qed.

Lemma ranks_of_votes m runs :
  Spec.ranks_of m (Spec.votes_of runs) = Spec.all_positions m runs.
Proof.
  unfold Spec.votes_of, Spec.all_positions.
  induction runs as [|run runs IH]; [done|].
  cbn [map concat]. by rewrite ranks_of_app, IH.
Qed.


(** The vote tuple of an identifier holds its number of occurrences, the
    mean of its positions and its shortest justification. *)
Lemma item_of_consensus runs m :
  Spec.item_of runs m = Spec.consensus_item Spec.occurrences runs m.
Proof.
  unfold Spec.item_of, Spec.consensus_item, Spec.occurrences, vote_item,
    Spec.extend, Spec.all_reasons.
  cbn [count ranks justifications Spec.no_votes].
  rewrite ranks_of_votes. reflexivity.
Qed.

(** In a round that lists no identifier twice, an identifier has one
    position or none. *)
Lemma positions_NoDup m (l : list candidate) start :
  NoDup (map method l) ->
  len (Spec.ranks_of m (enumerate start l))
  = if bool_decide (m ∈ map method l) then 1 else 0.
Proof.
  revert start. induction l as [|c l IH]; intros start; [done|].
  cbn [map enumerate]. intros [Hc Hnd]%NoDup_cons.
  rewrite ranks_of_cons, len_app, (IH _ Hnd). cbn [fst snd].
  destruct (decide (method c = m)) as [<-|Hne].
  - rewrite bool_decide_eq_true_2 by done.
    rewrite (bool_decide_eq_false_2 _ Hc).
    rewrite bool_decide_eq_true_2 by left. done.
  - rewrite (bool_decide_eq_false_2 (method c = m)) by done.
    destruct (decide (m ∈ map method l)) as [Hin|Hin].
    + rewrite !bool_decide_eq_true_2; [done|by right|done].
    + rewrite !bool_decide_eq_false_2; [done| |done].
      by intros [?|?]%elem_of_cons.
Qed.

Lemma occurrences_rounds_with m runs :
  Forall (fun run => NoDup (map method (record_methods run))) runs ->
  Spec.occurrences m runs = Spec.rounds_with m runs.
Proof.
  unfold Spec.occurrences, Spec.rounds_with, Spec.all_positions.
  induction 1 as [|run runs Hrun _ IH]; [done|].
  cbn [map concat]. rewrite len_app, IH, filter_cons.
  unfold Spec.positions. rewrite (positions_NoDup _ _ _ Hrun).
  case_decide as Hin.
  - rewrite bool_decide_eq_true_2 by done. unfold len. simpl. lia.
  - rewrite bool_decide_eq_false_2 by done. done.
Qed.

Lemma key_lt_ltb (x y : str * Z * Q * str) : Spec.key_lt x y = key_ltb x y.
Proof.
  destruct x as [[[mx cx] ax] jx], y as [[[my cy] ay] jy].
  unfold Spec.key_lt, key_ltb. cbn [fst snd].
  destruct (Z.ltb_spec cy cx), (Z.ltb_spec (- cx) (- cy)); try lia;
    destruct (Z.eqb_spec cx cy), (Z.eqb_spec (- cx) (- cy)); try lia; done.
Qed.

Lemma sorted_ext {B} (f g : B -> B -> bool) (l : list B) :
  (forall x y, f x y = g x y) -> sorted f l = sorted g l.
Proof.
  intros H. unfold sorted. induction l as [|x l IH]; [done|].
  cbn [foldr]. rewrite IH. generalize (foldr (insert_sorted g) [] l).
  intros l'. induction l' as [|y l' IH']; [done|].
  cbn [insert_sorted]. by rewrite H, IH'.
Qed.

Lemma ranked_items_sorted_by_key runs :
  StronglySorted Spec.key_le (ranked_items runs).
Proof.
  pose proof (ranked_items_ascending runs) as H. unfold Spec.ascending in H.
  induction H as [|x l _ IH Hx]; constructor; [done|].
  eapply Forall_impl; [exact Hx|]. intros y Hy.
  apply key_ltb_false in Hy. unfold Spec.key_le.
  destruct Hy as [?|[? ?]]; [by left|right; by split].
Qed.

Lemma aggregate_results_by_occurrences runs K :
  _aggregate_results runs K = Spec.consensus_by Spec.occurrences runs K.
Proof.
  unfold _aggregate_results, Spec.consensus_by, ranked_items.
  rewrite (sorted_ext Spec.key_lt key_ltb) by apply key_lt_ltb.
  rewrite tally_entries.
  rewrite (map_ext _ _ (item_of_consensus runs)).
  apply map_ext. by intros [[[m c] a] j].
Qed.

Lemma slice_to_nonneg {B} K (l : list B) :
  0 <= K -> slice_to K l = firstn (Z.to_nat K) l.
Proof. intros H. unfold slice_to. by rewrite (proj2 (Z.leb_le 0 K) H). Qed.

(** C2 (as amended).  The aggregator gives every identifier that appears
    [count] = its number of occurrences over all rounds, which is the
    number of distinct rounds in which it appears whenever no round lists an
    identifier twice, and [avg_rank] = the mean of its 1-based positions; it
    sorts the identifiers by [(-count, avg_rank)] in ascending order (a
    higher count first, then a lower average rank, identifiers with equal
    keys in the order of their first appearance) and returns the first
    [K].  For R1 = [A, B], R2 = [B, A], R3 = [A] the output order is
    [A, B]; for the rounds [B], [A], [A] it is [A, B] as well, against
    the order of appearance. *)
Theorem aggregate_results_consensus (runs : list history_record) (K : Z) :
  _aggregate_results runs K = Spec.consensus_by Spec.occurrences runs K /\
  (Forall (fun run => NoDup (map method (record_methods run))) runs ->
   _aggregate_results runs K = Spec.consensus runs K) /\
  ranked_items runs
    ≡ₚ map (Spec.consensus_item Spec.occurrences runs)
           (Spec.identifiers runs) /\
  StronglySorted Spec.key_le (ranked_items runs) /\
  (0 <= K ->
   _aggregate_results runs K
   = map (fun x => {| method := Spec.item_method x; justification := x.2 |})
         (firstn (Z.to_nat K) (ranked_items runs))) /\
  map method
    (_aggregate_results
       (map Sample.run_of [["A"; "B"]; ["B"; "A"]; ["A"]]%string) K)
  = map method
      (slice_to K [ {| method := L "A"; justification := [] |};
                    {| method := L "B"; justification := [] |} ]) /\
  map method
    (_aggregate_results (map Sample.run_of [["B"]; ["A"]; ["A"]]%string) K)
  = map method
      (slice_to K [ {| method := L "A"; justification := [] |};
                    {| method := L "B"; justification := [] |} ]).
Proof.
  split_and!.
  - apply aggregate_results_by_occurrences.
  - intros Hruns. rewrite aggregate_results_by_occurrences.
    unfold Spec.consensus, Spec.consensus_by. do 3 f_equal.
    apply map_ext. intros m. unfold Spec.consensus_item.
    by rewrite (occurrences_rounds_with m runs Hruns).
  - rewrite ranked_items_Permutation, tally_entries.
    by rewrite (map_ext _ _ (item_of_consensus runs)).
  - apply ranked_items_sorted_by_key.
  - intros HK. unfold _aggregate_results. rewrite slice_to_nonneg by done.
    apply map_ext. by intros [[[m c] a] j].
  - unfold _aggregate_results.
    replace (ranked_items _)
      with [ (L "A", 3, divZ 4 3, @nil ascii); (L "B", 2, divZ 3 2, @nil ascii) ]
      by (by vm_compute).
    unfold slice_to. by destruct (0 <=? K), (Z.to_nat K) as [|[|[|?]]],
      (Z.to_nat (- K)) as [|[|[|?]]].
  - unfold _aggregate_results.
    replace (ranked_items _)
      with [ (L "A", 2, divZ 2 2, @nil ascii); (L "B", 1, divZ 1 1, @nil ascii) ]
      by (by vm_compute).
    unfold slice_to. by destruct (0 <=? K), (Z.to_nat K) as [|[|[|?]]],
      (Z.to_nat (- K)) as [|[|[|?]]].
Qed.

(** *** The order of the rounds *)






(** [min_by_len] returns one of the shortest strings. *)
Lemma min_by_len_spec x l :
  min_by_len x l ∈ x :: l /\
  forall y, y ∈ x :: l -> (length (min_by_len x l) <= length y)%nat.
Proof.
  revert x. induction l as [|z l IH]; intros x; simpl.
  - split; [left|]. by intros y ->%list_elem_of_singleton.
  - unfold len. destruct (Z.ltb_spec (Z.of_nat (length z)) (Z.of_nat (length x)))
      as [Hlt|Hge]; destruct (IH z) as [Hz1 Hz2], (IH x) as [Hx1 Hx2].
    + split; [by right|]. intros y [->|Hy]%elem_of_cons; [|by apply Hz2].
      specialize (Hz2 z ltac:(left)). lia.
    + split.
      * apply elem_of_cons in Hx1 as [->|?]; [left|right; by right].
      * intros y [->|[->|Hy]%elem_of_cons]%elem_of_cons.
        -- apply Hx2. left.
        -- specialize (Hx2 x ltac:(left)). lia.
        -- apply Hx2. by right.
Qed.


(** The identifiers are the non-empty names that have a position. *)
Lemma elem_of_identifiers m runs :
  m ∈ Spec.identifiers runs
  <-> str_truthy m = true /\ Spec.all_positions m runs <> [].
Proof.
  split.
  - intros Hin. destruct (identifiers_NoDup runs) as [_ Ht].
    rewrite Forall_forall in Ht. pose proof (Ht m Hin) as Hm. split; [done|].
    rewrite <- tally_keys in Hin. apply stats_get_keys in Hin as [st Hst].
    rewrite tally_votes, votes_get in Hst by done. simpl in Hst.
    unfold Spec.voted in Hst. rewrite ranks_of_votes in Hst.
    by destruct (Spec.all_positions m runs).
  - intros [Hm Hpos]. rewrite <- tally_keys. apply stats_get_keys.
    rewrite tally_votes, votes_get by done. simpl.
    unfold Spec.voted. rewrite ranks_of_votes.
    by destruct (Spec.all_positions m runs).
Qed.





End Votes.

(** Three rounds in which the order of appearance is not the order of the
    keys: B appears first, A has the higher count and comes out first. *)
Lemma aggregate_results_consensus_witness :
  _aggregate_results (map Sample.run_of [["B"]; ["A"]; ["A"]]%string) 1
  = Spec.consensus (map Sample.run_of [["B"]; ["A"]; ["A"]]%string) 1
  /\
  _aggregate_results (map Sample.run_of [["B"]; ["A"]; ["A"]]%string) 1
  = [ {| method := L "A"; justification := [] |} ].
Proof.
  pose proof (aggregate_results_consensus
                (map Sample.run_of [["B"]; ["A"]; ["A"]]%string) 1)
    as (_ & Hspec & _ & _ & Hfirst & _).
  split.
  - apply Hspec. apply (bool_decide_unpack _). by vm_compute.
  - rewrite Hfirst by lia. reflexivity.
Defined.

(** C2 fails as stated: when a round lists A twice, A counts twice although
    it appears in one round only, and is ranked before B. *)
Lemma aggregate_results_counts_occurrences :
  let runs := map Sample.run_of [["A"; "A"]; ["B"]]%string in
  Spec.rounds_with (L "A") runs = 1 /\
  map (fun x => x.1.1) (ranked_items runs) = [(L "A", 2); (L "B", 1)] /\
  map method (_aggregate_results runs 10) = [L "A"; L "B"] /\
  map method (Spec.consensus runs 10) = [L "B"; L "A"] /\
  _aggregate_results runs 10 <> Spec.consensus runs 10.
Proof. by vm_compute. Qed.

Lemma reasons_of_absent m (votes : list (Z * candidate)) :
  m ∉ map (fun v => method v.2) votes -> Spec.reasons_of m votes = [].
Proof.
  induction votes as [|v votes IH]; [done|].
  cbn [map]. intros [Hv Hin]%not_elem_of_cons.
  rewrite reasons_of_cons, (IH Hin).
  by rewrite (bool_decide_eq_false_2 (method v.2 = m)) by done.
Qed.





(** ** More on normalisation and scoring *)

(** X1.  A normal form holds none of the separators ["#"], ["::"], ["."], no
    ["("], and no upper-case letter. *)
Theorem normalize_method_normal_form (x : str) :
  plain (normalize_method x) /\
  lower (normalize_method x) = normalize_method x.
Proof. split; [apply normalize_method_plain|apply normalize_method_lowered]. Qed.

Section Scoring.

Context (predicted : list str) (actual : gset str) (k : Z).

Local Abbreviation c := (confusion predicted actual k).
Local Abbreviation m := (evaluate_bug predicted actual k).
Local Abbreviation pred_set :=
  (list_to_set (pred_norm predicted k) : gset str).

Lemma size_list_to_set_le (l : list str) :
  (size (list_to_set l : gset str) <= length l)%nat.
Proof.
  induction l as [|x l IH].
  - by rewrite list_to_set_nil, size_empty.
  - rewrite list_to_set_cons, size_union_alt, size_singleton.
    assert (list_to_set l ∖ {[x]} ⊆ (list_to_set l : gset str)) as Hsub
      by apply subseteq_difference_l, reflexivity.
    apply subseteq_size in Hsub. simpl. lia.
Qed.

Lemma length_slice_to {B} (l : list B) : 0 <= k -> Z.of_nat (length (slice_to k l)) <= k.
Proof.
  intros Hk. unfold slice_to. rewrite (proj2 (Z.leb_le 0 k) Hk).
  rewrite length_take. lia.
Qed.

Lemma confusion_predicted : tp c + fp c = Z.of_nat (size pred_set).
Proof.
  unfold confusion. cbn [tp fp].
  rewrite <- Nat2Z.inj_add, <- size_union.
  2:{ intros x [_ H1]%elem_of_intersection [_ H2]%elem_of_difference. done. }
  do 2 f_equal. apply set_eq. intros x.
  rewrite elem_of_union, elem_of_intersection, elem_of_difference.
  destruct (decide (x ∈ actual_norm actual)); tauto.
Qed.

Lemma confusion_nonneg : 0 <= tp c /\ 0 <= fp c /\ 0 <= fn c /\ 0 <= tn c.
Proof. unfold confusion. cbn [tp fp fn tn]. lia. Qed.

Lemma confusion_at_most_k : 0 <= k -> tp c + fp c <= k.
Proof.
  intros Hk. rewrite confusion_predicted.
  pose proof (size_list_to_set_le (pred_norm predicted k)) as H.
  unfold pred_norm in H at 2. rewrite length_map in H.
  pose proof (length_slice_to predicted Hk). lia.
Qed.

Lemma confusion_sum : 0 <= k -> tp c + fp c + tn c = k.
Proof.
  intros Hk. pose proof (confusion_at_most_k Hk) as H.
  unfold confusion in *. cbn [tp fp tn] in *. lia.
Qed.

Lemma inject_Z_pos (b : Z) : 0 < b -> (0 < inject_Z b)%Q.
Proof. intros H. change 0%Q with (inject_Z 0). by rewrite <- Zlt_Qlt. Qed.

Lemma inject_Z_nonneg (a : Z) : 0 <= a -> (0 <= inject_Z a)%Q.
Proof. intros H. change 0%Q with (inject_Z 0). by rewrite <- Zle_Qle. Qed.

Lemma divZ_unit (a b : Z) :
  0 <= a <= b -> 0 < b -> (0 <= divZ a b <= 1)%Q.
Proof.
  intros [Ha Hab] Hb. unfold divZ.
  assert (0 < inject_Z b)%Q as Hb' by (by apply inject_Z_pos).
  assert (0 <= inject_Z a)%Q as Ha' by (by apply inject_Z_nonneg).
  assert (inject_Z a <= inject_Z b)%Q as Hab' by (by rewrite <- Zle_Qle).
  split.
  - apply Qle_shift_div_l; [done|]. lra.
  - apply Qle_shift_div_r; [done|]. lra.
Qed.

Lemma divZ_pos (a b : Z) : 0 < a -> 0 < b -> (0 < divZ a b)%Q.
Proof.
  intros Ha Hb. unfold divZ.
  assert (0 < inject_Z b)%Q as Hb' by (by apply inject_Z_pos).
  assert (0 < inject_Z a)%Q as Ha' by (by apply inject_Z_pos).
  apply Qlt_shift_div_l; [done|]. lra.
Qed.

Lemma precision_unit : (0 <= precision m <= 1)%Q.
Proof.
  destruct confusion_nonneg as (? & ? & ? & ?).
  unfold evaluate_bug. cbn [precision].
  destruct (Z.ltb_spec 0 (tp c + fp c)); [|lra].
  apply divZ_unit; lia.
Qed.

Lemma recall_unit : (0 <= recall m <= 1)%Q.
Proof.
  destruct confusion_nonneg as (? & ? & ? & ?).
  unfold evaluate_bug. cbn [recall].
  destruct (Z.ltb_spec 0 (tp c + fn c)); [|lra].
  apply divZ_unit; lia.
Qed.

(** X2.  Every metric of [evaluate_bug] lies between 0 and 1, whatever the
    prediction, the truth set and the cutoff. *)
Theorem evaluate_bug_bounds :
  (0 <= precision (evaluate_bug predicted actual k) <= 1)%Q /\
  (0 <= recall (evaluate_bug predicted actual k) <= 1)%Q /\
  (0 <= f1 (evaluate_bug predicted actual k) <= 1)%Q /\
  (0 <= accuracy (evaluate_bug predicted actual k) <= 1)%Q.
Proof.
  pose proof precision_unit as Hp. pose proof recall_unit as Hr.
  split; [exact Hp|]. split; [exact Hr|]. split.
  - unfold evaluate_bug in *. cbn [precision recall f1] in *.
    set (p := if 0 <? tp c + fp c then _ else _) in *.
    set (r := if 0 <? tp c + fn c then _ else _) in *.
    destruct (Qlt_le_dec 0 (p + r)) as [Hpos|_]; [|lra]. split.
    + apply Qle_shift_div_l; [done|]. nra.
    + apply Qle_shift_div_r; [done|]. nra.
  - destruct confusion_nonneg as (? & ? & ? & ?).
    unfold evaluate_bug. cbn [accuracy].
    destruct (Z.ltb_spec 0 k) as [Hk|]; [|lra].
    pose proof (confusion_sum ltac:(lia)).
    apply divZ_unit; lia.
Qed.

(** X3.  With a positive cutoff the counts [tp], [fp], [tn] add up to [k], so
    the accuracy is [1 - fp / k]: it falls with each false positive and
    does not depend on the size of the truth set. *)
Theorem evaluate_bug_accuracy :
  0 < k ->
  tp c + fp c + tn c = k /\
  (accuracy (evaluate_bug predicted actual k) == 1 - divZ (fp c) k)%Q.
Proof.
  intros Hk. pose proof (confusion_sum ltac:(lia)) as Hsum. split; [done|].
  unfold evaluate_bug. cbn [accuracy]. rewrite (proj2 (Z.ltb_lt 0 k) Hk).
  replace (tp c + tn c) with (k - fp c) by lia.
  unfold divZ, Z.sub. rewrite inject_Z_plus, inject_Z_opp.
  assert (0 < inject_Z k)%Q as Hk' by (by apply inject_Z_pos).
  field. lra.
Qed.

Lemma hits_true (l : list str) (s : gset str) :
  hits l s = true <-> exists x, x ∈ l /\ x ∈ s.
Proof.
  unfold hits. rewrite negb_true_iff, bool_decide_eq_false. split.
  - intros H. apply set_choose_L in H as [x Hx].
    apply elem_of_intersection in Hx as [Hx1%elem_of_list_to_set Hx2]. eauto.
  - intros (x & Hx1 & Hx2) E.
    assert (x ∈ (list_to_set l : gset str) ∩ s) as Hin.
    { apply elem_of_intersection. split; [by apply elem_of_list_to_set|done]. }
    rewrite E in Hin. by apply elem_of_empty in Hin.
Qed.

Lemma hits_take (l : list str) (s : gset str) (n n' : nat) :
  (n <= n')%nat -> hits (take n l) s = true -> hits (take n' l) s = true.
Proof.
  rewrite !hits_true. intros Hn (x & Hx & Hs). exists x. split; [|done].
  apply elem_of_take in Hx as (i & Hi & Hlt). apply elem_of_take.
  exists i. split; [done|lia].
Qed.

(** X4.  A hit among the first predictions is a hit among more of them, and a
    hit at all means a true positive, hence positive precision and recall. *)
Theorem evaluate_bug_top_k_monotone :
  (top_1 (evaluate_bug predicted actual k) = true ->
   top_3 (evaluate_bug predicted actual k) = true) /\
  (top_3 (evaluate_bug predicted actual k) = true ->
   top_5 (evaluate_bug predicted actual k) = true) /\
  (top_5 (evaluate_bug predicted actual k) = true ->
   0 < tp (confusion predicted actual k) /\
   (0 < precision (evaluate_bug predicted actual k))%Q /\
   (0 < recall (evaluate_bug predicted actual k))%Q).
Proof.
  split_and!.
  - apply (hits_take _ _ 1 3). lia.
  - apply (hits_take _ _ 3 5). lia.
  - intros (x & Hx & Hs)%hits_true.
    apply subseteq_take in Hx.
    assert (0 < tp c) as Htp.
    { unfold confusion. cbn [tp].
      assert (x ∈ pred_set ∩ actual_norm actual) as Hin.
      { apply elem_of_intersection. split; [by apply elem_of_list_to_set|done]. }
      destruct (size (pred_set ∩ actual_norm actual)) eqn:E; [|lia].
      apply size_empty_iff in E. rewrite E in Hin.
      by apply elem_of_empty in Hin. }
    destruct confusion_nonneg as (? & ? & ? & ?).
    split; [done|]. unfold evaluate_bug. cbn [precision recall].
    rewrite (proj2 (Z.ltb_lt 0 (tp c + fp c))) by lia.
    rewrite (proj2 (Z.ltb_lt 0 (tp c + fn c))) by lia.
    split; apply divZ_pos; lia.
Qed.

(** X5.  F1 is [2 tp / (2 tp + fp + fn)] when there is a true positive and 0
    otherwise. *)
Theorem evaluate_bug_f1_closed_form :
  (0 < tp c ->
   (f1 (evaluate_bug predicted actual k)
    == divZ (2 * tp c) (2 * tp c + fp c + fn c))%Q) /\
  (tp c = 0 -> (f1 (evaluate_bug predicted actual k) == 0)%Q).
Proof.
  destruct confusion_nonneg as (Htp & Hfp & Hfn & _).
  unfold evaluate_bug. cbn [f1]. split.
  - intros Hpos.
    rewrite (proj2 (Z.ltb_lt 0 (tp c + fp c))) by lia.
    rewrite (proj2 (Z.ltb_lt 0 (tp c + fn c))) by lia.
    pose proof (divZ_pos (tp c) (tp c + fp c) Hpos ltac:(lia)) as Hp.
    pose proof (divZ_pos (tp c) (tp c + fn c) Hpos ltac:(lia)) as Hr.
    destruct (Qlt_le_dec _ _) as [_|Hle]; [|lra].
    unfold divZ in *. rewrite !inject_Z_plus, inject_Z_mult.
    set (t := inject_Z (tp c)) in *. set (p := inject_Z (fp c)) in *.
    set (n := inject_Z (fn c)) in *.
    assert (0 < t)%Q as Ht by (by apply inject_Z_pos).
    assert (0 <= p)%Q as Hp' by (by apply inject_Z_nonneg).
    assert (0 <= n)%Q as Hn' by (by apply inject_Z_nonneg).
    clear Hp Hr. clearbody t p n.
    change (inject_Z 2) with 2%Q. field. split_and!; try lra. nra.
  - intros E.
    set (p := if 0 <? tp c + fp c then _ else _).
    set (r := if 0 <? tp c + fn c then _ else _).
    assert (forall b, divZ (tp c) b == 0)%Q as Hzero.
    { intros b. rewrite E. unfold divZ, Qdiv.
      change (inject_Z 0) with 0%Q. ring. }
    assert (p == 0)%Q as Hp.
    { subst p. destruct (0 <? tp c + fp c); [apply Hzero|reflexivity]. }
    assert (r == 0)%Q as Hr.
    { subst r. destruct (0 <? tp c + fn c); [apply Hzero|reflexivity]. }
    destruct (Qlt_le_dec 0 (p + r)); [lra|reflexivity].
Qed.

End Scoring.

(** ** More on the report *)

Section ReportMean.

Context (ground_truth : gmap str (gmap Z (gset str))) (k : Z).

Local Abbreviation scored_of := (Spec.scored_of ground_truth k).
Local Abbreviation all_scored := (Facts.all_scored ground_truth k).

Lemma scored_of_cons p r results :
  scored_of p (r :: results)
  = (if bool_decide (r.1.1 = p) then all_scored [r] else [])
      ++ scored_of p results.
Proof.
  destruct r as [[project bug_id] data].
  unfold Spec.scored_of, Facts.all_scored. simpl.
  destruct (bool_decide (project = p)),
    (bool_decide (lookup_truth ground_truth project bug_id = ∅)); done.
Qed.

Lemma all_scored_cons r results :
  all_scored (r :: results) = all_scored [r] ++ all_scored results.
Proof. apply (omap_app _ [r] results). Qed.

Lemma scored_sum_skip (f : list scored -> Q) (ps : list str) r results :
  r.1.1 ∉ ps ->
  (sumQ (map (fun p => f (scored_of p (r :: results))) ps)
   == sumQ (map (fun p => f (scored_of p results)) ps))%Q.
Proof.
  induction ps as [|q ps IH]; cbn [map]; intros Hp; [reflexivity|].
  rewrite !sumQ_cons, scored_of_cons.
  rewrite bool_decide_eq_false_2 by (intros E; apply Hp; rewrite E; left).
  rewrite IH by (intros ?; apply Hp; by right). reflexivity.
Qed.

(** Summing over distinct projects that cover every scored bug counts each
    bug once. *)
Lemma sum_over_projects (f : list scored -> Q) (ps : list str) results :
  f [] = 0%Q ->
  (forall l1 l2, f (l1 ++ l2) == f l1 + f l2)%Q ->
  NoDup ps ->
  (forall p, p ∉ ps -> scored_of p results = []) ->
  (sumQ (map (fun p => f (scored_of p results)) ps) == f (all_scored results))%Q.
Proof.
  intros Hnil Happ Hnd. induction results as [|r results IH]; intros Hcover.
  - unfold Spec.scored_of, Facts.all_scored. simpl. rewrite Hnil.
    clear. induction ps as [|p ps IH]; simpl; [reflexivity|]. rewrite IH. ring.
  - rewrite all_scored_cons, Happ, <- IH.
    2:{ intros p Hp. specialize (Hcover p Hp). rewrite scored_of_cons in Hcover.
        by apply app_eq_nil in Hcover as [_ ?]. }
    assert (all_scored [r] = [] \/ r.1.1 ∈ ps) as Hr.
    { destruct (decide (r.1.1 ∈ ps)) as [|Hout]; [by right|left].
      specialize (Hcover _ Hout). rewrite scored_of_cons in Hcover.
      rewrite bool_decide_eq_true_2 in Hcover by done.
      by apply app_eq_nil in Hcover as [? _]. }
    clear IH Hcover. induction Hnd as [|p ps Hp Hnd IH]; cbn [map].
    + change (sumQ []) with 0%Q.
      destruct Hr as [->|Hin]; [rewrite Hnil; ring|by apply elem_of_nil in Hin].
    + rewrite !sumQ_cons, scored_of_cons, Happ.
      destruct (decide (r.1.1 = p)) as [E|Hne].
      * rewrite bool_decide_eq_true_2 by done.
        subst p. rewrite (scored_sum_skip f ps r results Hp).
        ring.
      * rewrite bool_decide_eq_false_2 by done. rewrite Hnil, IH.
        -- ring.
        -- destruct Hr as [?|[?|?]%elem_of_cons]; [by left|done|by right].
Qed.

Lemma sumQ_app (l1 l2 : list Q) : (sumQ (l1 ++ l2) == sumQ l1 + sumQ l2)%Q.
Proof.
  induction l1 as [|x l1 IH]; [unfold sumQ; simpl; ring|].
  change ((x :: l1) ++ l2) with (x :: (l1 ++ l2)).
  rewrite !sumQ_cons, IH. ring.
Qed.

Lemma sorted_projects_NoDup (pr : gmap str (list scored)) :
  NoDup (sorted_projects pr) /\
  forall p, p ∉ sorted_projects pr -> pr !! p = None.
Proof.
  unfold sorted_projects. split.
  - rewrite sorted_Permutation. apply NoDup_elements.
  - intros p Hp. rewrite sorted_Permutation in Hp.
    rewrite elem_of_elements in Hp. by apply not_elem_of_dom in Hp.
Qed.

Lemma sum_over_groups (f : list scored -> Q) results :
  f [] = 0%Q ->
  (forall l1 l2, f (l1 ++ l2) == f l1 + f l2)%Q ->
  (sumQ (map f (Spec.project_groups results ground_truth k))
   == f (all_scored results))%Q.
Proof.
  intros Hnil Happ. unfold Spec.project_groups. rewrite map_map.
  destruct (sorted_projects_NoDup (group_results results ground_truth k))
    as [Hnd Hcover].
  apply sum_over_projects; try done.
  intros p Hp. rewrite <- group_results_lookup. by rewrite (Hcover p Hp).
Qed.

Lemma mean_times_len (metric : metrics -> Q) (bugs : list scored) :
  (mean_of metric bugs * inject_Z (len bugs)
   == sumQ (map (fun b => metric (scores b)) bugs))%Q.
Proof.
  unfold mean_of. destruct bugs as [|b bugs].
  - unfold len, sumQ. simpl. ring.
  - assert (0 < inject_Z (len (b :: bugs)))%Q.
    { apply inject_Z_pos. unfold len. simpl. lia. }
    field. lra.
Qed.

Lemma weighted_sum_plain (metric : metrics -> Q) results :
  (Spec.weighted_sum metric (Spec.project_groups results ground_truth k)
   == sumQ (map (fun b => metric (scores b)) (all_scored results)))%Q.
Proof.
  unfold Spec.weighted_sum.
  rewrite <- (sum_over_groups
                (fun l => sumQ (map (fun b => metric (scores b)) l)) results).
  - induction (Spec.project_groups results ground_truth k) as [|g gs IH];
      cbn [map]; [reflexivity|].
    by rewrite !sumQ_cons, IH, mean_times_len.
  - reflexivity.
  - intros l1 l2. rewrite map_app. apply sumQ_app.
Qed.

Lemma total_bugs_plain results :
  sumZ (map len (Spec.project_groups results ground_truth k))
  = len (all_scored results).
Proof.
  apply inject_Z_injective.
  rewrite <- (sum_over_groups (fun l => inject_Z (len l)) results).
  - induction (Spec.project_groups results ground_truth k) as [|g gs IH];
      cbn [map]; [reflexivity|].
    by rewrite sumZ_cons, sumQ_cons, inject_Z_plus, IH.
  - reflexivity.
  - intros l1 l2. by rewrite len_app, inject_Z_plus.
Qed.

(** X6.  In exact arithmetic the weighted mean of the project means is the plain
    mean over all scored bugs: [total_bugs] is the number of results that
    have ground truth, and every average of the global summary is the sum
    of that metric over those bugs divided by their number.  A result
    without ground truth is in no sum and in no denominator. *)
Theorem report_global_average_is_plain_mean
    (results : list (str * Z * result_data)) (benchmark_type : str) :
  exists blocks t,
    generate_evaluation_report results ground_truth k benchmark_type
    = header k benchmark_type ++ blocks ++ global_lines benchmark_type t /\
    total_bugs t = len (all_scored results) /\
    forall label v,
      Metric label v ∈ global_lines benchmark_type t ->
      (v == mean_of (Spec.metric_of_label label) (all_scored results))%Q.
Proof.
  destruct (report_structure ground_truth k results benchmark_type)
    as (blocks & t & E & Hb & Hp & Hr & Hf & Ha).
  rewrite total_bugs_plain in Hb. rewrite weighted_sum_plain in Hp, Hr, Hf, Ha.
  exists blocks, t. split_and!; [done..|].
  intros label v Hin. unfold mean_of. rewrite <- Hb.
  unfold global_lines in Hin.
  destruct (bool_decide (benchmark_type = L "python"));
    destruct (0 <? total_bugs t);
    repeat (apply elem_of_app in Hin as [Hin|Hin]);
    repeat (apply elem_of_cons in Hin as [Hin|Hin]; [try discriminate|]);
    try (by apply elem_of_nil in Hin);
    injection Hin as -> ->.
  - change (Spec.metric_of_label _) with f1. by rewrite Hf.
  - change (Spec.metric_of_label _) with accuracy. by rewrite Ha.
  - change (Spec.metric_of_label _) with precision. by rewrite Hp.
  - change (Spec.metric_of_label _) with recall. by rewrite Hr.
  - change (Spec.metric_of_label _) with f1. by rewrite Hf.
  - change (Spec.metric_of_label _) with accuracy. by rewrite Ha.
Qed.

Lemma group_results_no_truth results :
  Forall (fun r => lookup_truth ground_truth r.1.1 r.1.2 = ∅) results ->
  group_results results ground_truth k = ∅.
Proof.
  intros H. unfold group_results.
  enough (forall acc : gmap str (list scored),
            foldl (add_result ground_truth k) acc results = acc) as E
    by apply E.
  induction H as [|[[project bug_id] data] results Hr _ IH]; intros acc; [done|].
  cbn [foldl]. rewrite IH. unfold add_result. simpl in Hr.
  by rewrite bool_decide_eq_true_2.
Qed.

(** X7.  When no result has ground truth (in particular when there is no result)
    the report is the header followed by the summary of an empty corpus:
    no project block, a total of 0 and no average, so nothing is divided
    by the zero total. *)
Theorem report_without_ground_truth
    (results : list (str * Z * result_data)) (benchmark_type : str) :
  Forall (fun r => lookup_truth ground_truth r.1.1 r.1.2 = ∅) results ->
  generate_evaluation_report results ground_truth k benchmark_type
  = header k benchmark_type ++ global_lines benchmark_type totals_zero /\
  forall label v,
    Metric label v
      ∉ generate_evaluation_report results ground_truth k benchmark_type.
Proof.
  intros H. assert (generate_evaluation_report results ground_truth k
                      benchmark_type
                    = header k benchmark_type
                        ++ global_lines benchmark_type totals_zero) as E.
  { unfold generate_evaluation_report.
    rewrite (group_results_no_truth _ H). reflexivity. }
  split; [done|]. intros label v. rewrite E.
  unfold header, global_lines. cbn [total_bugs totals_zero Z.ltb Z.compare].
  destruct (bool_decide (benchmark_type = L "python"));
    intros Hin;
    repeat (apply elem_of_app in Hin as [Hin|Hin]);
    repeat (apply elem_of_cons in Hin as [Hin|Hin]; [discriminate|]);
    by apply elem_of_nil in Hin.
Qed.

(** *** The totals of the hits *)








End ReportMean.

(** ** More on the vote *)

Section VoteFacts.

Implicit Types (m : str) (runs : list history_record)
  (votes : list (Z * candidate)).

Lemma slice_to_take {B} K (l : list B) : exists n, slice_to K l = take n l.
Proof. unfold slice_to. destruct (0 <=? K); eauto. Qed.

Lemma enumerate_elem_of {B} (l : list B) start i (x : B) :
  (i, x) ∈ enumerate start l -> start <= i /\ x ∈ l.
Proof.
  revert start. induction l as [|y l IH]; intros start; simpl.
  - by intros ?%elem_of_nil.
  - intros [[= -> ->]|H]%elem_of_cons; [split; [lia|left]|].
    apply IH in H as [? ?]. split; [lia|by right].
Qed.

Lemma enumerate_elem_of_2 {B} (l : list B) start (x : B) :
  x ∈ l -> exists i, (i, x) ∈ enumerate start l.
Proof.
  revert start. induction l as [|y l IH]; intros start; simpl.
  - by intros ?%elem_of_nil.
  - intros [->|H]%elem_of_cons; [exists start; left|].
    destruct (IH (start + 1) H) as [i Hi]. exists i. by right.
Qed.

Lemma elem_of_ranks_of m votes i :
  i ∈ Spec.ranks_of m votes <-> exists c, (i, c) ∈ votes /\ method c = m.
Proof.
  unfold Spec.ranks_of. rewrite list_elem_of_omap. split.
  - intros ([i' c] & Hin & H). simpl in H. case_bool_decide; [|done].
    injection H as ->. eauto.
  - intros (c & Hin & Hm). exists (i, c). split; [done|]. simpl.
    by rewrite bool_decide_eq_true_2.
Qed.

Lemma elem_of_reasons_of m votes j :
  j ∈ Spec.reasons_of m votes
  <-> j <> [] /\ exists i c, (i, c) ∈ votes /\ method c = m /\ justification c = j.
Proof.
  unfold Spec.reasons_of. rewrite list_elem_of_omap. split.
  - intros ([i c] & Hin & H). simpl in H.
    destruct (decide (method c = m)) as [Hm|Hm].
    + rewrite bool_decide_eq_true_2 in H by done. simpl in H.
      destruct (justification c) as [|a j'] eqn:E; [done|].
      injection H as <-. split; [done|]. by exists i, c.
    + by rewrite bool_decide_eq_false_2 in H.
  - intros (Hj & i & c & Hin & Hm & Hc). exists (i, c). split; [done|]. simpl.
    rewrite bool_decide_eq_true_2, Hc by done. by destruct j.
Qed.

Lemma elem_of_concat {B} (x : B) (ls : list (list B)) :
  x ∈ concat ls <-> exists l, l ∈ ls /\ x ∈ l.
Proof.
  induction ls as [|l ls IH]; simpl.
  - split; [by intros ?%elem_of_nil|]. by intros (l & ?%elem_of_nil & _).
  - rewrite elem_of_app, IH. split.
    + intros [H|(l' & H1 & H2)]; [exists l; split; [left|done]|].
      exists l'. split; [by right|done].
    + intros (l' & [->|H1]%elem_of_cons & H2); [by left|right; eauto].
Qed.

Lemma elem_of_votes_of runs i c :
  (i, c) ∈ Spec.votes_of runs
  <-> exists run, run ∈ runs /\ (i, c) ∈ enumerate 1 (record_methods run).
Proof.
  unfold Spec.votes_of. rewrite elem_of_concat. split.
  - intros (l & (run & -> & Hrun)%list_elem_of_fmap & Hin). eauto.
  - intros (run & Hrun & Hin). eexists. split; [|done].
    apply list_elem_of_fmap. eauto.
Qed.

Lemma elem_of_all_reasons runs m j :
  j ∈ Spec.all_reasons m runs <-> Facts.reason_given runs m j.
Proof.
  unfold Spec.all_reasons, Facts.reason_given. rewrite elem_of_reasons_of.
  split; intros [Hj H]; (split; [done|]).
  - destruct H as (i & c & (run & Hrun & Hin)%elem_of_votes_of & Hm & Hc).
    apply enumerate_elem_of in Hin as [_ Hin]. by exists run, c.
  - destruct H as (run & c & Hrun & Hin & Hm & Hc).
    destruct (enumerate_elem_of_2 _ 1 _ Hin) as [i Hi].
    exists i, c. split; [|done]. apply elem_of_votes_of. eauto.
Qed.

Lemma identifiers_listed runs m :
  m ∈ Spec.identifiers runs <-> m <> [] /\ Facts.listed runs m.
Proof.
  rewrite elem_of_identifiers, <- ranks_of_votes.
  assert (str_truthy m = true <-> m <> []) as -> by (by destruct m).
  apply and_iff_compat_l. split.
  - intros H. destruct (Spec.ranks_of m (Spec.votes_of runs)) as [|i l] eqn:E;
      [done|].
    assert (i ∈ Spec.ranks_of m (Spec.votes_of runs)) as Hi by (rewrite E; left).
    apply elem_of_ranks_of in Hi as (c & (run & Hrun & Hin)%elem_of_votes_of & Hm).
    apply enumerate_elem_of in Hin as [_ Hin]. by exists run, c.
  - intros (run & c & Hrun & Hin & Hm) E.
    destruct (enumerate_elem_of_2 _ 1 _ Hin) as [i Hi].
    assert (i ∈ Spec.ranks_of m (Spec.votes_of runs)) as Hr.
    { apply elem_of_ranks_of. exists c. split; [|done].
      apply elem_of_votes_of. eauto. }
    rewrite E in Hr. by apply elem_of_nil in Hr.
Qed.

Lemma ranked_items_methods runs :
  map Spec.item_method (ranked_items runs) ≡ₚ Spec.identifiers runs.
Proof.
  rewrite ranked_items_Permutation, tally_entries, map_map.
  by rewrite map_id.
Qed.

Lemma ranked_items_item_of runs x :
  x ∈ ranked_items runs ->
  Spec.item_method x ∈ Spec.identifiers runs /\
  x = Spec.item_of runs (Spec.item_method x).
Proof.
  rewrite ranked_items_Permutation, tally_entries.
  intros (m & -> & Hm)%list_elem_of_fmap. done.
Qed.

Lemma aggregate_results_elem_of runs K c :
  c ∈ _aggregate_results runs K ->
  exists x, x ∈ ranked_items runs /\
            method c = Spec.item_method x /\ justification c = x.2.
Proof.
  unfold _aggregate_results. destruct (slice_to_take K (ranked_items runs)) as [n ->].
  intros ([[[m cnt] a] j] & -> & Hx)%list_elem_of_fmap.
  apply subseteq_take in Hx. eauto.
Qed.

Lemma aggregate_results_methods runs K :
  exists n,
    map method (_aggregate_results runs K)
    = take n (map Spec.item_method (ranked_items runs)) /\
    slice_to K (ranked_items runs) = take n (ranked_items runs).
Proof.
  unfold _aggregate_results.
  destruct (slice_to_take K (ranked_items runs)) as [n ->].
  exists n. split; [|done]. rewrite map_map, <- firstn_map.
  f_equal. apply map_ext. by intros [[[m c] a] j].
Qed.

(** X9.  The aggregated ranking names every identifier at most once, never the
    empty identifier and never one that no round listed; it has at most [K]
    entries, and all listed identifiers when [K] is large enough. *)
Theorem aggregate_results_distinct (runs : list history_record) (K : Z) :
  NoDup (map method (_aggregate_results runs K)) /\
  (forall c, c ∈ _aggregate_results runs K ->
             method c <> [] /\ Facts.listed runs (method c)) /\
  (0 <= K -> len (_aggregate_results runs K) <= K) /\
  (len (Spec.identifiers runs) <= K ->
   forall m, m <> [] -> Facts.listed runs m ->
             m ∈ map method (_aggregate_results runs K)).
Proof.
  destruct (aggregate_results_methods runs K) as (n & Hm & Hs).
  pose proof (ranked_items_methods runs) as Hp.
  split_and!.
  - rewrite Hm. eapply sublist_NoDup; [|apply sublist_take].
    rewrite Hp. apply identifiers_NoDup.
  - intros c Hc. apply identifiers_listed. rewrite <- Hp.
    apply (subseteq_take n). rewrite <- Hm.
    by apply (list_elem_of_fmap_2 method).
  - intros HK. unfold _aggregate_results, len. rewrite length_map.
    rewrite slice_to_nonneg, length_take by done. lia.
  - intros HK m Hne Hl. unfold _aggregate_results.
    assert (len (ranked_items runs) <= K) as HK'.
    { unfold len in *. rewrite <- (length_map Spec.item_method), Hp. done. }
    rewrite slice_to_nonneg by (unfold len in *; lia).
    rewrite take_ge by (unfold len in *; lia).
    rewrite map_map.
    assert (m ∈ map Spec.item_method (ranked_items runs)) as Hin.
    { rewrite Hp. by apply identifiers_listed. }
    erewrite map_ext; [exact Hin|]. by intros [[[? ?] ?] ?].
Qed.

(** X10.  The justification of an aggregated entry is one that some round gave
    for that identifier, and no such justification is shorter; it is empty
    only when no round gave a non-empty one. *)
Theorem aggregate_results_justification
    (runs : list history_record) (K : Z) (c : candidate) :
  c ∈ _aggregate_results runs K ->
  (justification c = [] /\
   forall j, ~ Facts.reason_given runs (method c) j) \/
  (Facts.reason_given runs (method c) (justification c) /\
   forall j, Facts.reason_given runs (method c) j ->
             (length (justification c) <= length j)%nat).
Proof.
  intros (x & Hx & Hm & Hj)%aggregate_results_elem_of.
  apply ranked_items_item_of in Hx as [_ Hx]. rewrite <- Hm in Hx.
  rewrite item_of_consensus in Hx. rewrite Hj, Hx. cbn [snd Spec.consensus_item].
  destruct (Spec.all_reasons (method c) runs) as [|j0 js] eqn:E.
  - left. split; [done|]. intros j Hg%elem_of_all_reasons.
    rewrite E in Hg. by apply elem_of_nil in Hg.
  - right. simpl. destruct (min_by_len_spec j0 js) as [Hin Hmin].
    rewrite <- E in Hin, Hmin. split.
    + by apply elem_of_all_reasons.
    + intros j Hg%elem_of_all_reasons. by apply Hmin.
Qed.

Lemma tally_entry runs m st :
  (m, st) ∈ tally runs ->
  m <> [] /\ Spec.ranks_of m (Spec.votes_of runs) <> [] /\
  st = Spec.extend Spec.no_votes m (Spec.votes_of runs).
Proof.
  intros Hin. destruct (identifiers_NoDup runs) as [Hnd Ht].
  rewrite <- tally_keys in Hnd, Ht.
  assert (str_truthy m = true) as Hm.
  { rewrite Forall_forall in Ht. apply Ht.
    by apply (list_elem_of_fmap_2 fst) in Hin. }
  pose proof (stats_get_elem_of m st _ Hnd Hin) as Hget.
  rewrite tally_votes, votes_get in Hget by done. simpl in Hget.
  unfold Spec.voted in Hget.
  destruct (Spec.ranks_of m (Spec.votes_of runs)) eqn:E; [done|].
  injection Hget as <-. split_and!; [by destruct m|done|done].
Qed.

Lemma sumZ_at_least (l : list Z) :
  Forall (fun r => 1 <= r) l -> len l <= sumZ l.
Proof.
  induction 1 as [|r l Hr _ IH]; [done|].
  rewrite sumZ_cons. unfold len in *. simpl length. lia.
Qed.

(** X11.  Every entry of the vote table has as many ranks as its count, at least
    one, all of them 1 or more: the average rank is never a division by
    zero, and it is at least 1. *)
Theorem tally_counts_positive (runs : list history_record) :
  Forall (fun e =>
            e.1 <> [] /\ count e.2 = len (ranks e.2) /\ 1 <= count e.2 /\
            Forall (fun r => 1 <= r) (ranks e.2) /\
            (len (justifications e.2) <= count e.2) /\
            (1 <= (vote_item e).1.2)%Q)
         (tally runs).
Proof.
  apply Forall_forall. intros [m st] (Hm & Hv & ->)%tally_entry.
  cbn [fst snd vote_item Spec.extend Spec.no_votes count ranks justifications].
  rewrite !app_nil_l, Z.add_0_l.
  set (rs := Spec.ranks_of m (Spec.votes_of runs)) in *.
  assert (Forall (fun r => 1 <= r) rs) as Hge.
  { apply Forall_forall. intros i (c & (run & _ & Hin)%elem_of_votes_of & _)%elem_of_ranks_of.
    by apply enumerate_elem_of in Hin as [? _]. }
  assert (1 <= len rs) as Hlen.
  { unfold len. destruct rs; [done|]. simpl length. lia. }
  split_and!; try done.
  - unfold Spec.ranks_of, Spec.reasons_of, len in *. subst rs.
    clear. induction (Spec.votes_of runs) as [|v votes IH]; [done|]. simpl.
    unfold omap in IH.
    destruct (bool_decide (method v.2 = m)); simpl; [|done].
    destruct (str_truthy (justification v.2)); simpl; lia.
  - pose proof (sumZ_at_least rs Hge) as Hsum. unfold divZ.
    apply Qle_shift_div_l; [apply inject_Z_pos; lia|].
    rewrite Qmult_1_l, <- Zle_Qle. done.
Qed.

(** *** A single round *)

Lemma enumerate_app {B} (l1 l2 : list B) start :
  enumerate start (l1 ++ l2)
  = enumerate start l1 ++ enumerate (start + len l1) l2.
Proof.
  revert start. induction l1 as [|x l1 IH]; intros start; simpl.
  - unfold len. simpl. by rewrite Z.add_0_r.
  - rewrite IH. do 3 f_equal. unfold len. simpl length. lia.
Qed.

Lemma enumerate_methods (l : list candidate) start :
  map (fun v => method v.2) (enumerate start l) = map method l.
Proof.
  revert start. induction l as [|c l IH]; intros start; simpl; [done|].
  by rewrite IH.
Qed.

Lemma length_enumerate {B} (l : list B) start :
  length (enumerate start l) = length l.
Proof.
  revert start. induction l as [|c l IH]; intros start; simpl; [done|].
  by rewrite IH.
Qed.

Lemma ranks_of_absent m votes :
  m ∉ map (fun v => method v.2) votes -> Spec.ranks_of m votes = [].
Proof.
  induction votes as [|v votes IH]; [done|].
  cbn [map]. intros [Hv Hin]%not_elem_of_cons.
  rewrite ranks_of_cons, (IH Hin).
  by rewrite (bool_decide_eq_false_2 (method v.2 = m)) by done.
Qed.

Lemma see_fresh (seen ms : list str) :
  NoDup (seen ++ ms) -> Forall (fun m => m <> []) ms ->
  foldl Spec.see seen ms = seen ++ ms.
Proof.
  revert seen. induction ms as [|m ms IH]; intros seen Hnd Hne.
  - by rewrite app_nil_r.
  - apply Forall_cons in Hne as [Hm Hne]. cbn [foldl]. unfold Spec.see at 2.
    assert (m ∉ seen) as Hout.
    { apply NoDup_app in Hnd as (_ & Hd & _). intros Hin.
      apply (Hd m Hin). left. }
    rewrite (bool_decide_eq_false_2 _ Hout).
    assert (str_truthy m = true) as -> by (by destruct m). simpl.
    rewrite IH, <- app_assoc; [done| |done]. by rewrite <- app_assoc.
Qed.

(** The vote tuple of a candidate listed once, at its place in the round. *)
Lemma item_of_single (run : history_record) (l1 l2 : list candidate) c :
  record_methods run = l1 ++ c :: l2 ->
  NoDup (map method (record_methods run)) ->
  Spec.item_of [run] (method c)
  = (method c, 1, divZ (1 + len l1) 1, justification c).
Proof.
  intros E Hnd. rewrite E, map_app in Hnd. cbn [map] in Hnd.
  apply NoDup_app in Hnd as (_ & Hd & [Hc2 _]%NoDup_cons).
  assert (method c ∉ map method l1) as Hc1.
  { intros Hin. apply (Hd _ Hin). left. }
  rewrite item_of_consensus.
  unfold Spec.consensus_item, Spec.occurrences, Spec.all_reasons,
    Spec.all_positions, Spec.votes_of, Spec.positions.
  cbn [map concat]. rewrite !app_nil_r, E, enumerate_app. cbn [enumerate].
  rewrite ranks_of_app, reasons_of_app, ranks_of_cons, reasons_of_cons.
  cbn [fst snd]. rewrite bool_decide_eq_true_2 by done.
  rewrite !ranks_of_absent, !reasons_of_absent
    by (by rewrite enumerate_methods).
  rewrite !app_nil_r. cbn [app].
  destruct (justification c) eqn:Ej; simpl;
    unfold len, sumZ; simpl; by rewrite Z.add_0_r.
Qed.

Lemma items_single (run : history_record) (l1 l2 : list candidate) :
  record_methods run = l1 ++ l2 ->
  NoDup (map method (record_methods run)) ->
  map (Spec.item_of [run]) (map method l2)
  = map (fun v => (method v.2, 1, divZ v.1 1, justification v.2))
        (enumerate (1 + len l1) l2).
Proof.
  intros E Hnd. revert l1 E. induction l2 as [|c l2 IH]; intros l1 E; [done|].
  cbn [map enumerate fst snd]. f_equal.
  - by apply (item_of_single run l1 l2).
  - replace (1 + len l1 + 1) with (1 + len (l1 ++ [c]))
      by (rewrite len_app; unfold len; simpl; lia).
    apply IH. by rewrite <- app_assoc.
Qed.

Lemma sorted_of_ascending {B} (ltb : B -> B -> bool) (l : list B) :
  StronglySorted (fun x y => ltb y x = false) l -> sorted ltb l = l.
Proof.
  induction 1 as [|x l Hl IH Hx]; [done|].
  change (sorted ltb (x :: l)) with (insert_sorted ltb x (sorted ltb l)).
  rewrite IH. destruct l as [|y l]; [done|]. simpl.
  apply Forall_cons in Hx as [-> _]. done.
Qed.

Lemma enumerated_items_ascending (l : list candidate) start :
  Spec.ascending
    (map (fun v => (method v.2, 1, divZ v.1 1, justification v.2))
         (enumerate start l)).
Proof.
  unfold Spec.ascending. revert start.
  induction l as [|c l IH]; intros start; cbn [enumerate map]; constructor.
  - apply IH.
  - apply Forall_forall. intros x ([i c'] & -> & Hin)%list_elem_of_fmap.
    apply enumerate_elem_of in Hin as [Hi _].
    apply key_ltb_false. right. split; [done|]. cbn [fst snd].
    unfold divZ, Qdiv. change (/ inject_Z 1)%Q with 1%Q.
    rewrite !Qmult_1_r, <- Zle_Qle. lia.
Qed.

Lemma slice_to_map {B C} (f : B -> C) K (l : list B) :
  map f (slice_to K l) = slice_to K (map f l).
Proof.
  unfold slice_to. rewrite length_map. destruct (0 <=? K); symmetry; apply firstn_map.
Qed.

(** X12.  One round whose identifiers are distinct and not empty is its own
    consensus: the aggregator returns the round, cut to its first [K]. *)
Theorem aggregate_results_single_round (run : history_record) (K : Z) :
  NoDup (map method (record_methods run)) ->
  Forall (fun c => method c <> []) (record_methods run) ->
  _aggregate_results [run] K = slice_to K (record_methods run).
Proof.
  intros Hnd Hne. unfold _aggregate_results, ranked_items.
  rewrite tally_entries.
  assert (Spec.identifiers [run] = map method (record_methods run)) as ->.
  { unfold Spec.identifiers, Spec.votes_of. cbn [map concat].
    rewrite app_nil_r, enumerate_methods.
    apply (see_fresh []); [done|]. by apply Forall_fmap. }
  rewrite (items_single run [] (record_methods run) eq_refl Hnd).
  rewrite sorted_of_ascending by apply enumerated_items_ascending.
  rewrite slice_to_map, map_map. f_equal.
  generalize (1 + len (@nil candidate)). clear Hnd Hne.
  induction (record_methods run) as [|[m j] l IH]; intros start; [done|].
  cbn [enumerate map snd method justification]. by rewrite IH.
Qed.

End VoteFacts.

(** ** More on the iterative strategy *)

Section IterativeFacts.

Context (py_repr : json -> str) (json_dumps : json -> str) {World : Type}
  (generate : str -> Q -> World -> LLMResponse * World)
  (wrap_zero_shot : str -> str -> str).

Local Abbreviation step := (iteration_step py_repr json_dumps).
Local Abbreviation loop :=
  (zero_shot_loop py_repr json_dumps World generate wrap_zero_shot).
Local Abbreviation run :=
  (run_zero_shot_iterative py_repr json_dumps World generate wrap_zero_shot).
Local Abbreviation extract := (extract_top_k_methods py_repr).

Lemma seq_1_S (n : nat) :
  map Z.of_nat (seq 1 (S n)) = map Z.of_nat (seq 1 n) ++ [Z.of_nat (S n)].
Proof. by rewrite seq_S, map_app. Qed.

(** Two neighbours of a list that grew by one entry are neighbours of the
    old list, or its last entry and the new one. *)
Lemma neighbours_snoc {B} (h h' t : list B) (x r1 r2 : B) :
  h ++ [x] = h' ++ r1 :: r2 :: t ->
  (t = [] /\ h = h' ++ [r1] /\ x = r2) \/
  (exists t', t = t' ++ [x] /\ h = h' ++ r1 :: r2 :: t').
Proof.
  destruct t as [|y t _] using rev_ind; intros E.
  - left. change (h' ++ [r1; r2]) with (h' ++ [r1] ++ [r2]) in E.
    rewrite app_assoc in E. apply app_inj_tail in E as [-> ->]. done.
  - right. exists t.
    change (h' ++ r1 :: r2 :: t ++ [y])
      with (h' ++ (r1 :: r2 :: t) ++ [y]) in E.
    rewrite app_assoc in E. apply app_inj_tail in E as [-> ->]. done.
Qed.

(** The loop, started after [n] iterations with [m] more to go. *)
Lemma zero_shot_loop_kept base_prompt temperature max_iterations
    (n m : nat) (s : loop_state) (w : World) :
  len (ls_all_iterations s) + len (ls_errors s) = Z.of_nat n ->
  prev_methods s = Facts.record_names <$> last (ls_all_iterations s) ->
  sublist (map Facts.record_index (ls_all_iterations s))
          (map Z.of_nat (seq 1 n)) ->
  (forall h r1 r2 t,
     ls_all_iterations s = h ++ r1 :: r2 :: t ->
     Facts.record_names r1 <> Facts.record_names r2) ->
  Z.of_nat (n + m) = Z.max 0 max_iterations ->
  Facts.zero_shot_kept max_iterations
    (loop base_prompt temperature max_iterations
       (map Z.of_nat (seq (S n) m)) s w).1.
Proof.
  revert n s w. induction m as [|m IH]; intros n s w Hlen Hprev Hsub Hadj Hn.
  - cbn [seq map zero_shot_loop fst]. unfold Facts.zero_shot_kept, exhausted.
    cbn [all_iterations errors iterations_used final_ranking converged].
    rewrite Nat.add_0_r in Hn. split_and!.
    + lia.
    + done.
    + unfold range_from_1. by replace (Z.to_nat max_iterations) with n by lia.
    + done.
    + done.
    + intros h r1 r2 t E He. by destruct (Hadj _ _ _ _ E).
  - cbn [seq map zero_shot_loop].
    destruct (generate _ temperature w) as [r w'].
    unfold iteration_step.
    set (record := IterationRecord (Z.of_nat (S n)) (extract r)
                     (latency_seconds r)).
    assert (Z.of_nat (S n + m) = Z.max 0 max_iterations) as Hn' by lia.
    assert (forall h r1 r2 t,
              prev_methods s <> Some (Facts.record_names record) ->
              ls_all_iterations s ++ [record] = h ++ r1 :: r2 :: t ->
              Facts.record_names r1 <> Facts.record_names r2) as Hadj'.
    { intros h r1 r2 t Hne
        [(-> & Eh & <-)|(t' & -> & Eh)]%neighbours_snoc; [|by eapply Hadj].
      rewrite Eh, last_snoc in Hprev. cbn in Hprev. congruence. }
    destruct (call_failed r).
    { apply (IH (S n)); cbn [ls_all_iterations ls_errors prev_methods];
        [|done| |done|done].
      - rewrite len_app. unfold len in *. simpl length. lia.
      - rewrite seq_1_S. by apply sublist_inserts_r. }
    assert (len (ls_all_iterations s ++ [record]) + len (ls_errors s)
            = Z.of_nat (S n)) as Hlen'.
    { rewrite len_app. unfold len in *. simpl length. lia. }
    assert (sublist
              (map Facts.record_index (ls_all_iterations s ++ [record]))
              (map Z.of_nat (seq 1 (S n)))) as Hsub'.
    { rewrite seq_1_S, map_app. by apply sublist_app. }
    assert (Some (map method (extract r))
            = Facts.record_names <$> last (ls_all_iterations s ++ [record]))
      as Hprev' by (by rewrite last_snoc).
    destruct (prev_methods s) as [prev|] eqn:Ep.
    + destruct (decide (map method (extract r) = prev)) as [Eq|Ne].
      * rewrite bool_decide_eq_true_2 by done.
        cbn [fst]. unfold Facts.zero_shot_kept.
        cbn [all_iterations errors iterations_used final_ranking converged].
        destruct (last (ls_all_iterations s)) as [r1|] eqn:El; [|done].
        injection Hprev as Hprev.
        apply last_Some in El as [h El]. split_and!.
        -- done.
        -- unfold Facts.last_ranking. by rewrite last_snoc.
        -- unfold range_from_1. by rewrite Nat2Z.id.
        -- intros _. exists h, r1, record.
           rewrite El, <- app_assoc. split; [done|].
           unfold Facts.record_names at 2. cbn [record_methods record].
           congruence.
        -- done.
        -- intros h' x1 x2 t
             [(-> & Eh & <-)|(t' & -> & Eh)]%neighbours_snoc; [done|].
           intros. by destruct (Hadj _ _ _ _ Eh).
      * rewrite bool_decide_eq_false_2 by done.
        apply (IH (S n)); cbn [ls_all_iterations ls_errors prev_methods];
          try done.
        intros h r1 r2 t. apply Hadj'.
        unfold Facts.record_names. cbn [record_methods record]. congruence.
    + apply (IH (S n)); cbn [ls_all_iterations ls_errors prev_methods];
        try done.
      intros h r1 r2 t. by apply Hadj'.
Qed.

(** X13.  For every oracle, the result of the iterative strategy accounts for
    every iteration it ran, once: as an entry of the history or as an
    error.  The final ranking is the one of the last history entry, the
    iteration numbers of the history go up within [1..iterations_used],
    and two neighbouring entries name the same methods only at the very
    end of a converged run. *)
Theorem run_zero_shot_iterative_accounts
    (base_prompt : str) (max_iterations : Z) (temperature : Q) (w : World) :
  let result := (run base_prompt max_iterations temperature w).1 in
  len (all_iterations result) + len (errors result)
  = Z.max 0 (iterations_used result) /\
  final_ranking result = Facts.last_ranking (all_iterations result) /\
  sublist (map Facts.record_index (all_iterations result))
          (range_from_1 (iterations_used result)) /\
  (converged result = true ->
   exists h r1 r2,
     all_iterations result = h ++ [r1; r2] /\
     Facts.record_names r1 = Facts.record_names r2) /\
  (converged result = false -> iterations_used result = max_iterations) /\
  (forall h r1 r2 t,
     all_iterations result = h ++ r1 :: r2 :: t ->
     Facts.record_names r1 = Facts.record_names r2 ->
     t = [] /\ converged result = true).
Proof.
  apply (zero_shot_loop_kept base_prompt temperature max_iterations 0
           (Z.to_nat max_iterations) loop_init w); cbn; try done.
  - intros [] ? ? ?; discriminate.
  - lia.
Qed.

(** *** The calls of a run *)

Local Abbreviation trace :=
  (zero_shot_trace py_repr json_dumps World generate wrap_zero_shot).
Local Abbreviation prompts :=
  (Facts.zero_shot_prompts py_repr json_dumps World generate wrap_zero_shot).
Local Abbreviation record_of := (Facts.record_of py_repr).
Local Abbreviation feedback := (Facts.feedback py_repr json_dumps).

Lemma last_recorded_cons (i : Z) (r : LLMResponse)
    (tr : list (Z * LLMResponse)) :
  Facts.last_recorded ((i, r) :: tr)
  = match Facts.last_recorded tr with
    | Some x => Some x
    | None => if Facts.recorded r then Some (i, r) else None
    end.
Proof.
  unfold Facts.last_recorded. rewrite filter_cons.
  case_decide as H; simpl in H.
  - rewrite H. apply last_cons.
  - apply not_true_is_false in H. rewrite H. by destruct (last _).
Qed.

Lemma feedback_cons (i : Z) (r : LLMResponse)
    (pre : list (Z * LLMResponse)) (s' : loop_state) (s : loop_state) :
  step i s r = inl s' ->
  feedback (prev_candidates s) ((i, r) :: pre)
  = feedback (prev_candidates s') pre.
Proof.
  intros Hstep. unfold Facts.feedback. rewrite last_recorded_cons.
  destruct (Facts.last_recorded pre) as [[j r']|]; [done|].
  unfold iteration_step, Facts.recorded in *.
  destruct (call_failed r); cbn [negb].
  - by injection Hstep as <-.
  - destruct (match prev_methods s with
              | Some prev => _ | None => false end); [done|].
    by injection Hstep as <-.
Qed.

Lemma zero_shot_loop_calls base_prompt temperature max_iterations its
    (s : loop_state) (w : World) :
  let result := (loop base_prompt temperature max_iterations its s w).1 in
  let tr := trace base_prompt temperature its s w in
  let sent := prompts base_prompt temperature its s w in
  (forall pre x post,
     tr = pre ++ x :: post ->
     sent !! length pre
     = Some (wrap_zero_shot base_prompt
               (feedback (prev_candidates s) pre))) /\
  length sent = length tr /\
  all_iterations result = ls_all_iterations s ++ omap record_of tr /\
  errors result = ls_errors s ++ omap Facts.error_of tr /\
  (total_latency_seconds result
   == ls_total_latency s + sumQ (map (fun x => latency_seconds x.2) tr))%Q.
Proof.
  revert s w. induction its as [|i its IH]; intros s w.
  - cbn [zero_shot_loop zero_shot_trace Facts.zero_shot_prompts fst exhausted
         all_iterations errors total_latency_seconds omap list_omap map].
    rewrite !app_nil_r. split_and!; try done.
    + by intros [] ? ? ?.
    + unfold sumQ. cbn. ring.
  - cbn [zero_shot_loop zero_shot_trace Facts.zero_shot_prompts].
    destruct (generate _ temperature w) as [r w'].
    destruct (step i s r) as [s'|result] eqn:Hstep.
    + destruct (IH s' w') as (Hsent & Hlen & Hhist & Herr & Hlat).
      assert (ls_all_iterations s' = ls_all_iterations s ++ omap record_of [(i, r)]
              /\ ls_errors s' = ls_errors s ++ omap Facts.error_of [(i, r)]
              /\ (ls_total_latency s'
                  == ls_total_latency s + latency_seconds r)%Q) as (E1 & E2 & E3).
      { unfold iteration_step in Hstep. cbn [omap list_omap].
        unfold Facts.record_of, Facts.error_of. cbn [fst snd].
        destruct (call_failed r).
        - injection Hstep as <-. cbn. rewrite app_nil_r. by split_and!.
        - destruct (match prev_methods s with
                    | Some prev => _ | None => false end); [done|].
          injection Hstep as <-. cbn. rewrite app_nil_r. by split_and!. }
      split_and!.
      * intros [|y pre] x post; cbn [app length]; intros [= ? ?]; subst.
        -- done.
        -- transitivity (prompts base_prompt temperature its s' w'
                           !! length pre); [done|].
           rewrite (Hsent pre x post) by done.
           by rewrite (feedback_cons i r pre s' s).
      * cbn [length]. by rewrite Hlen.
      * rewrite Hhist, E1, <- app_assoc. f_equal.
        by rewrite <- omap_app.
      * rewrite Herr, E2, <- app_assoc. f_equal.
        by rewrite <- omap_app.
      * rewrite Hlat, E3. cbn [map snd]. rewrite sumQ_cons. ring.
    + unfold iteration_step in Hstep.
      destruct (call_failed r) eqn:Hf; [done|].
      destruct (match prev_methods s with
                | Some prev => _ | None => false end); [|done].
      injection Hstep as <-.
      cbn [fst all_iterations errors total_latency_seconds omap list_omap map
           snd length].
      unfold Facts.record_of, Facts.error_of. cbn [fst snd]. rewrite Hf.
      split_and!.
      * intros [|y [|z pre]] x post; cbn [app length]; intros [= ? ?]; subst.
        done.
      * done.
      * done.
      * by rewrite app_nil_r.
      * rewrite sumQ_cons. unfold sumQ. cbn [foldr]. ring.
Qed.

(** X14.  The result of the iterative strategy in terms of the calls it made:
    the prompt of each call wraps the base prompt with the candidate list
    of the last call before it that passed the loop's failure test
    (["[]"] when there is none), the history holds the calls that passed
    the test and the errors those that failed it, both in order, and the
    total latency is the sum over all calls.  The test is the loop's own:
    a non-empty error text and nothing parsed. *)
Theorem run_zero_shot_iterative_calls
    (base_prompt : str) (max_iterations : Z) (temperature : Q) (w : World) :
  let result := (run base_prompt max_iterations temperature w).1 in
  let tr :=
    trace base_prompt temperature (range_from_1 max_iterations) loop_init w in
  let sent :=
    prompts base_prompt temperature (range_from_1 max_iterations)
      loop_init w in
  (forall pre x post,
     tr = pre ++ x :: post ->
     sent !! length pre
     = Some (wrap_zero_shot base_prompt (feedback (L "[]") pre))) /\
  length sent = length tr /\
  all_iterations result = omap record_of tr /\
  errors result = omap Facts.error_of tr /\
  (total_latency_seconds result
   == sumQ (map (fun x => latency_seconds x.2) tr))%Q.
Proof.
  destruct (zero_shot_loop_calls base_prompt temperature max_iterations
              (range_from_1 max_iterations) loop_init w)
    as (Hsent & Hlen & Hhist & Herr & Hlat).
  cbn [loop_init ls_all_iterations ls_errors ls_total_latency prev_candidates
       app] in *.
  split_and!; try done. rewrite Hlat. ring.
Qed.

End IterativeFacts.

(** ** More on the self-consistency strategy *)

Section SelfConsistencyFacts.

Context (py_repr : json -> str) {World : Type}
  (generate : str -> Q -> World -> LLMResponse * World)
  (wrap_self_consistency : str -> str).

Local Abbreviation loop :=
  (self_consistency_loop py_repr World generate wrap_self_consistency).
Local Abbreviation run :=
  (run_self_consistency py_repr World generate wrap_self_consistency).

(** The loop, started after [n] runs with [m] more to go. *)
Lemma self_consistency_loop_kept base_prompt temperature
    (n m : nat) (s : sc_state) (w : World) :
  len (sc_all_runs s) + len (sc_errors s) = Z.of_nat n ->
  sublist (map Facts.record_index (sc_all_runs s)) (map Z.of_nat (seq 1 n)) ->
  let s' := (loop base_prompt temperature (map Z.of_nat (seq (S n) m)) s w).1 in
  len (sc_all_runs s') + len (sc_errors s') = Z.of_nat (n + m) /\
  sublist (map Facts.record_index (sc_all_runs s'))
          (map Z.of_nat (seq 1 (n + m))).
Proof.
  revert n s w. induction m as [|m IH]; intros n s w Hlen Hsub.
  - cbn [seq map self_consistency_loop fst]. by rewrite Nat.add_0_r.
  - cbn [seq map self_consistency_loop].
    destruct (generate _ temperature w) as [r w'].
    replace (n + S m)%nat with (S n + m)%nat by lia.
    apply (IH (S n)); unfold run_step; destruct (call_failed r);
      cbn [sc_all_runs sc_errors].
    + rewrite len_app. unfold len in *. simpl length. lia.
    + rewrite len_app. unfold len in *. simpl length. lia.
    + rewrite seq_1_S. by apply sublist_inserts_r.
    + rewrite seq_1_S, map_app. by apply sublist_app.
Qed.

(** X15.  For every oracle, the result of the self-consistency strategy accounts
    for each of its runs once, as a history entry or as an error; the run
    numbers of the history go up within [1..num_runs]; and the final
    ranking names no method twice, only methods that a recorded run
    listed, and at most [top_k] of them. *)
Theorem run_self_consistency_accounts
    (base_prompt : str) (num_runs : Z) (temperature : Q) (top_k : Z)
    (w : World) :
  let result := (run base_prompt num_runs temperature top_k w).1 in
  len (all_iterations result) + len (errors result) = Z.max 0 num_runs /\
  sublist (map Facts.record_index (all_iterations result))
          (range_from_1 num_runs) /\
  NoDup (map method (final_ranking result)) /\
  (forall c, c ∈ final_ranking result ->
             method c <> [] /\
             Facts.listed (all_iterations result) (method c)) /\
  (0 <= top_k -> len (final_ranking result) <= top_k).
Proof.
  unfold run_self_consistency.
  pose proof (self_consistency_loop_kept base_prompt temperature 0
                (Z.to_nat num_runs)
                {| sc_all_runs := []; sc_total_latency := 0; sc_errors := [] |}
                w eq_refl (sublist_nil_l _)) as [Hlen Hsub].
  fold (range_from_1 num_runs) in Hlen, Hsub.
  destruct (loop base_prompt temperature (range_from_1 num_runs) _ w)
    as [s w'].
  cbn [fst all_iterations errors final_ranking] in *.
  destruct (aggregate_results_methods (sc_all_runs s) top_k) as (k & Hm & Hs).
  pose proof (ranked_items_methods (sc_all_runs s)) as Hp.
  split_and!.
  - lia.
  - done.
  - rewrite Hm. eapply sublist_NoDup; [|apply sublist_take].
    rewrite Hp. apply identifiers_NoDup.
  - intros c Hc. apply identifiers_listed. rewrite <- Hp.
    apply (subseteq_take k). rewrite <- Hm.
    by apply (list_elem_of_fmap_2 method).
  - intros HK. unfold _aggregate_results, len. rewrite length_map.
    rewrite slice_to_nonneg, length_take by done. lia.
Qed.

End SelfConsistencyFacts.

(** ** Project statistics and result directories *)

Section ConfigFacts.

Local Abbreviation bump :=
  (fun (stats : gmap str Z) (ref : Config.PromptReference) =>
     <[Config.project ref
       := default 0 (stats !! Config.project ref) + 1]> stats).

Local Abbreviation of_project p :=
  (filter (fun r => Config.project r = p)).

Lemma project_stats_count (refs : list Config.PromptReference)
    (acc : gmap str Z) (p : str) :
  default 0 (foldl bump acc refs !! p)
  = default 0 (acc !! p) + len (of_project p refs).
Proof.
  revert acc. induction refs as [|r refs IH]; intros acc.
  - unfold len. simpl. lia.
  - cbn [foldl]. rewrite IH, filter_cons.
    destruct (decide (Config.project r = p)) as [<-|Hne].
    + rewrite lookup_insert_eq. unfold len. cbn [from_option length].
      unfold id at 1. lia.
    + by rewrite lookup_insert_ne.
Qed.

Lemma project_stats_positive (refs : list Config.PromptReference)
    (acc : gmap str Z) :
  map_Forall (fun _ n => 0 < n) acc ->
  map_Forall (fun _ n => 0 < n) (foldl bump acc refs).
Proof.
  revert acc. induction refs as [|r refs IH]; intros acc Hacc; [done|].
  cbn [foldl]. apply IH. apply map_Forall_insert_2; [|done].
  destruct (acc !! Config.project r) as [n|] eqn:E; cbn [from_option];
    unfold id; [|lia].
  specialize (Hacc _ _ E). simpl in Hacc. lia.
Qed.

Lemma sum_values_insert (m : gmap str Z) (k : str) (v : Z) :
  m !! k = None ->
  map_fold (fun _ n acc => n + acc) 0 (<[k := v]> m)
  = v + map_fold (fun _ n acc => n + acc) 0 m.
Proof.
  intros Hk. rewrite map_fold_insert_L; [done| |done].
  intros. lia.
Qed.

Lemma project_stats_total (refs : list Config.PromptReference)
    (acc : gmap str Z) :
  map_fold (fun _ n acc => n + acc) 0 (foldl bump acc refs)
  = map_fold (fun _ n acc => n + acc) 0 acc + len refs.
Proof.
  revert acc. induction refs as [|r refs IH]; intros acc.
  - unfold len. simpl. lia.
  - cbn [foldl]. rewrite IH. unfold len. cbn [length].
    set (k := Config.project r).
    rewrite <- (insert_delete_eq acc k (default 0 (acc !! k) + 1)).
    rewrite sum_values_insert by apply lookup_delete_eq.
    destruct (acc !! k) as [n|] eqn:E; cbn [from_option]; unfold id.
    + rewrite <- (insert_delete_id acc k n) at 2 by done.
      rewrite sum_values_insert by apply lookup_delete_eq. lia.
    + rewrite delete_id by done. lia.
Qed.

(** X16.  [get_project_stats] holds, for each project, the number of references
    of that project, never a zero, and its values add up to the number of
    references. *)
Theorem get_project_stats_counts (refs : list Config.PromptReference) :
  (forall p n,
     Config.get_project_stats refs !! p = Some n
     <-> 0 < n /\ n = len (of_project p refs)) /\
  map_fold (fun _ n acc => n + acc) 0 (Config.get_project_stats refs)
  = len refs.
Proof.
  unfold Config.get_project_stats. split.
  - intros p n.
    pose proof (project_stats_count refs ∅ p) as Hc.
    pose proof (project_stats_positive refs ∅ (map_Forall_empty _)) as Hp.
    rewrite lookup_empty in Hc. cbn [from_option] in Hc.
    destruct (foldl bump ∅ refs !! p) as [n'|] eqn:E;
      cbn [from_option] in Hc; unfold id in Hc.
    + specialize (Hp _ _ E). simpl in Hp. split.
      * intros [= <-]. split; [done|lia].
      * intros [_ ->]. f_equal. lia.
    + split; [done|]. intros [H0 ->]. lia.
  - rewrite project_stats_total, map_fold_empty. lia.
Qed.

(** *** The name of a result directory *)

Lemma digits_of_uint (d : Decimal.uint) :
  Forall (fun c => Config.isdigit c = true)
         (L (NilEmpty.string_of_uint d)).
Proof.
  induction d; cbn [NilEmpty.string_of_uint L list_ascii_of_string];
    constructor; done.
Qed.

Lemma digits_of_uint_nonempty (d : Decimal.uint) :
  Forall (fun c => Config.isdigit c = true) (L (NilZero.string_of_uint d))
  /\ L (NilZero.string_of_uint d) <> [].
Proof.
  destruct d; try (split; [apply digits_of_uint|done]).
  split; [by repeat constructor|done].
Qed.

Lemma span_digits_all (ds : str) :
  Forall (fun c => Config.isdigit c = true) ds ->
  Config.span_digits ds = (ds, []).
Proof.
  induction 1 as [|c ds Hc _ IH]; [done|].
  cbn [Config.span_digits]. by rewrite Hc, IH.
Qed.

(** What follows the leading digits keeps every character that is not a
    digit. *)
Lemma span_digits_rest (s : str) (c : ascii) :
  Config.isdigit c = false -> c ∈ s -> c ∈ (Config.span_digits s).2.
Proof.
  intros Hc. induction s as [|x s IH]; [done|].
  cbn [Config.span_digits]. destruct (Config.isdigit x) eqn:Hx; [|done].
  intros [->|Hin]%elem_of_cons; [congruence|].
  destruct (Config.span_digits s). by apply IH.
Qed.

Lemma digits_to_end_dash (s t : str) :
  Config.digits_to_end (s ++ "-"%char :: t) = None.
Proof.
  unfold Config.digits_to_end.
  pose proof (span_digits_rest (s ++ "-"%char :: t) "-"%char eq_refl) as H.
  destruct (Config.span_digits _) as [ds rest]. cbn [snd] in H.
  assert ("-"%char ∈ rest) as Hin.
  { apply H, elem_of_app. right. left. }
  rewrite (bool_decide_eq_false_2 (rest = [])), bool_decide_eq_false_2.
  - by rewrite andb_false_r.
  - intros ->. apply list_elem_of_singleton in Hin. discriminate.
  - intros ->. by apply elem_of_nil in Hin.
Qed.

Lemma search_bug_id_last (pre ds : str) :
  Forall (fun c => Config.isdigit c = true) ds -> ds <> [] ->
  Config.search_bug_id (pre ++ "-"%char :: ds) = Some ds.
Proof.
  intros Hds Hne. induction pre as [|c pre IH].
  - cbn [app Config.search_bug_id]. rewrite Ascii.eqb_refl.
    unfold Config.digits_to_end. rewrite span_digits_all by done.
    rewrite bool_decide_eq_true_2 by done. by destruct ds.
  - cbn [app Config.search_bug_id]. rewrite digits_to_end_dash, IH.
    by destruct (Ascii.eqb c "-").
Qed.

Lemma int_of_digits_uint (d : Decimal.uint) :
  Config.int_of_digits (L (NilZero.string_of_uint d)) = Some (Z.of_uint d).
Proof.
  unfold Config.int_of_digits, L. rewrite string_of_list_ascii_of_string.
  destruct d; [done|by rewrite NilZero.usu..].
Qed.

(** X17.  For a project whose name [glob] takes literally, the bug number
    read off the name of a result directory is the one the directory was
    made for, up to its sign: a negative number comes back as its absolute
    value. *)
Theorem bug_id_of_dir_name (project : str) (bug_id : Z) :
  Config.plain_name project ->
  Config.parsed_bug_id (Config.bug_dir_name project bug_id)
  = Some (Z.abs bug_id).
Proof.
  intros _. unfold Config.parsed_bug_id, Config.bug_dir_name, str_of_int.
  pose proof (DecimalZ.of_to bug_id) as Hz.
  destruct (Z.to_int bug_id) as [d|d] eqn:E;
    cbn [NilZero.string_of_int Z.of_int] in *;
    destruct (digits_of_uint_nonempty d) as [Hd Hne].
  - change (project ++ L "-" ++ L (NilZero.string_of_uint d))
      with (project ++ "-"%char :: L (NilZero.string_of_uint d)).
    rewrite search_bug_id_last by done. cbn [mbind option_bind].
    rewrite int_of_digits_uint. f_equal.
    assert (0 <= Z.of_uint d) by (unfold Z.of_uint; lia). lia.
  - change (project ++ L "-" ++ L (String "-" (NilZero.string_of_uint d)))
      with (project ++ ["-"%char]
              ++ "-"%char :: L (NilZero.string_of_uint d)).
    rewrite app_assoc, search_bug_id_last by done. cbn [mbind option_bind].
    rewrite int_of_digits_uint. f_equal.
    assert (0 <= Z.of_uint d) by (unfold Z.of_uint; lia). lia.
Qed.

End ConfigFacts.

(** ** The expected behaviour of a test *)

Section ExpectedFacts.

Context (py_repr : json -> str) {World : Type}
  (generate : str -> Q -> World -> LLMResponse * World)
  (build_template2_step4a : str -> str -> str).

Local Abbreviation bullet := (Expected.bullet py_repr).
Local Abbreviation extract :=
  (Expected.extract_expected_behavior py_repr World generate
     build_template2_step4a).
Local Abbreviation expected_for :=
  (Expected.expected_for_template2 py_repr World generate
     build_template2_step4a).

Lemma lstrip_fixed (r : str) :
  (forall c, head r = Some c -> isspace c = false) -> lstrip r = r.
Proof.
  destruct r as [|c r]; [done|]. intros H. simpl.
  by rewrite (H c eq_refl).
Qed.

Lemma head_rev (r : str) : head (rev r) = last r.
Proof.
  destruct r as [|x r _] using rev_ind; [done|].
  by rewrite rev_app_distr, last_snoc.
Qed.

Lemma strip_strip (s : str) : strip (strip s) = strip s.
Proof.
  destruct (strip_spec s) as (a & b & _ & _ & _ & Hh & Hl).
  unfold strip at 1. rewrite (lstrip_fixed _ Hh). unfold rstrip.
  rewrite lstrip_fixed; [apply rev_involutive|].
  intros c. rewrite head_rev. apply Hl.
Qed.

Lemma bullet_Some (b : json) (t : str) :
  bullet b = Some t -> t <> [] /\ strip t = t.
Proof.
  unfold Expected.bullet.
  destruct (strip (py_str py_repr b)) as [|c r] eqn:E; [done|].
  intros [= <-]. split; [done|]. by rewrite <- E, strip_strip.
Qed.

(** X18.  For every oracle: without a parsed answer there is no bullet; the
    bullets returned are at most six, none is empty and each is trimmed;
    and the list given to template 2 is never empty. *)
Theorem extract_expected_behavior_bullets
    (failing_test test_code_snippet : str) (temperature : Q) (w : World) :
  let response :=
    (generate (build_template2_step4a failing_test test_code_snippet)
       temperature w).1 in
  let result := (extract failing_test test_code_snippet temperature w).1 in
  let expected :=
    (expected_for failing_test test_code_snippet temperature w).1 in
  (parsed_json response = None -> result = Some []) /\
  (forall bullets,
     result = Some bullets ->
     len bullets <= 6 /\
     Forall (fun b => b <> [] /\ strip b = b) bullets) /\
  (forall e,
     expected = Some e ->
     e <> [] /\ len e <= 6 /\ Forall (fun b => b <> []) e) /\
  (expected = None <-> result = None).
Proof.
  unfold Expected.expected_for_template2, Expected.extract_expected_behavior.
  destruct (generate _ temperature w) as [response w']. cbn [fst].
  assert (forall bullets,
            Expected.bullets_of py_repr response = Some bullets ->
            len bullets <= 6 /\
            Forall (fun b => b <> [] /\ strip b = b) bullets) as Hb.
  { unfold Expected.bullets_of. intros bullets.
    destruct (parsed_json response) as [d|].
    - destruct (Expected.iterate _) as [items|]; [|done].
      intros [= <-]. rewrite slice_to_nonneg by done. split.
      + unfold len. rewrite length_take. lia.
      + apply Forall_take, Forall_forall.
        intros t (b & _ & Hb)%list_elem_of_omap. by eapply bullet_Some.
    - intros [= <-]. split; [done|constructor]. }
  split_and!.
  - unfold Expected.bullets_of. by intros ->.
  - done.
  - intros e. destruct (Expected.bullets_of py_repr response) as [[|b l]|] eqn:E;
      intros [= <-].
    + split_and!; [done|done|by repeat constructor].
    + destruct (Hb _ eq_refl) as [Hlen Hall]. split_and!; [done|done|].
      eapply Forall_impl; [exact Hall|]. by intros ? [? _].
  - by destruct (Expected.bullets_of py_repr response) as [[|b l]|].
Qed.

End ExpectedFacts.

(** ** The client: reading the answer of the model *)

Section ClientFacts.

Context (json_loads : str -> list (str * json) + str).

Local Abbreviation extract_json := (Client._extract_json json_loads).
Local Abbreviation respond := (Client.respond json_loads).
Local Abbreviation lbrace := Client.lbrace.
Local Abbreviation rbrace := Client.rbrace.
Local Abbreviation tick := ("`"%char).

(** *** Occurrences of a character *)

Lemma first_occurrence (c : ascii) (s : str) :
  c ∈ s -> exists a r, s = a ++ c :: r /\ c ∉ a.
Proof.
  induction s as [|x s IH]; [by intros ?%elem_of_nil|].
  destruct (decide (x = c)) as [->|Hne].
  - intros _. exists [], s. split; [done|]. apply not_elem_of_nil.
  - intros [->|Hin]%elem_of_cons; [done|].
    destruct (IH Hin) as (a & r & -> & Ha). exists (x :: a), r.
    split; [done|]. apply not_elem_of_cons. split; [congruence|done].
Qed.

Lemma last_occurrence (c : ascii) (s : str) :
  c ∈ s -> exists a r, s = a ++ c :: r /\ c ∉ r.
Proof.
  induction s as [|x s IH]; [by intros ?%elem_of_nil|].
  destruct (decide (c ∈ s)) as [Hin|Hout].
  - intros _. destruct (IH Hin) as (a & r & -> & Hr). by exists (x :: a), r.
  - intros [->|Hin]%elem_of_cons; [|done]. by exists [], s.
Qed.

Lemma find_char_absent (c : ascii) (s : str) :
  c ∉ s -> Client.find_char c s = -1.
Proof.
  induction s as [|x s IH]; [done|].
  intros [Hx Hs]%not_elem_of_cons. cbn [Client.find_char].
  rewrite (proj2 (Ascii.eqb_neq x c)) by congruence. by rewrite IH.
Qed.

Lemma find_char_first (c : ascii) (a r : str) :
  c ∉ a -> Client.find_char c (a ++ c :: r) = len a.
Proof.
  induction a as [|x a IH]; cbn [app Client.find_char].
  - by rewrite Ascii.eqb_refl.
  - intros [Hx Ha]%not_elem_of_cons.
    rewrite (proj2 (Ascii.eqb_neq x c)) by congruence. rewrite IH by done.
    unfold len. cbn [length].
    destruct (Z.eqb_spec (Z.of_nat (length a)) (-1)); lia.
Qed.

Lemma rfind_char_absent (c : ascii) (s : str) :
  c ∉ s -> Client.rfind_char c s = -1.
Proof.
  induction s as [|x s IH]; [done|].
  intros [Hx Hs]%not_elem_of_cons. cbn [Client.rfind_char].
  rewrite IH by done. cbn.
  by rewrite (proj2 (Ascii.eqb_neq x c)) by congruence.
Qed.

Lemma rfind_char_last (c : ascii) (a r : str) :
  c ∉ r -> Client.rfind_char c (a ++ c :: r) = len a.
Proof.
  intros Hr. induction a as [|x a IH]; cbn [app Client.rfind_char].
  - rewrite rfind_char_absent by done. cbn. by rewrite Ascii.eqb_refl.
  - rewrite IH. unfold len. cbn [length].
    destruct (Z.eqb_spec (Z.of_nat (length a)) (-1)); lia.
Qed.

(** *** The text between the outer braces *)

Lemma braced_decomposed (a body b : str) :
  lbrace ∉ a -> rbrace ∉ b ->
  Facts.braced (a ++ lbrace :: body ++ rbrace :: b)
  = Some (lbrace :: body ++ [rbrace]).
Proof.
  intros Ha Hb. unfold Facts.braced.
  assert (Client.rfind_char rbrace (a ++ lbrace :: body ++ rbrace :: b)
          = len a + 1 + len body) as ->.
  { replace (a ++ lbrace :: body ++ rbrace :: b)
      with ((a ++ lbrace :: body) ++ rbrace :: b)
      by (by rewrite <- app_assoc).
    rewrite rfind_char_last by done.
    rewrite len_app. unfold len. cbn [length]. lia. }
  rewrite find_char_first by done. unfold len.
  destruct (Z.eqb_spec (Z.of_nat (length a)) (-1)); [lia|].
  destruct (Z.eqb_spec (Z.of_nat (length a) + 1 + Z.of_nat (length body))
              (-1)); [lia|].
  destruct (Z.leb_spec (Z.of_nat (length a) + 1 + Z.of_nat (length body))
              (Z.of_nat (length a))); [lia|].
  cbn [orb]. f_equal. unfold Client.slice.
  rewrite Nat2Z.id, drop_app_length.
  replace (Z.to_nat _) with (length (lbrace :: body ++ [rbrace]))
    by (cbn [length]; rewrite length_app; cbn [length]; lia).
  replace (lbrace :: body ++ rbrace :: b)
    with ((lbrace :: body ++ [rbrace]) ++ b)
    by (by rewrite <- app_comm_cons, <- app_assoc).
  apply take_app_length.
Qed.

Lemma braced_Some (text t : str) :
  Facts.braced text = Some t ->
  exists a body b,
    text = a ++ lbrace :: body ++ rbrace :: b /\
    (lbrace ∉ a) /\ (rbrace ∉ b) /\ t = lbrace :: body ++ [rbrace].
Proof.
  intros H.
  assert (lbrace ∈ text) as (a & r1 & E1 & Ha)%first_occurrence.
  { destruct (decide (lbrace ∈ text)) as [|Hout]; [done|].
    unfold Facts.braced in H. by rewrite find_char_absent in H. }
  assert (rbrace ∈ text) as (a2 & b & E2 & Hb)%last_occurrence.
  { destruct (decide (rbrace ∈ text)) as [|Hout]; [done|].
    unfold Facts.braced in H. rewrite (rfind_char_absent _ _ Hout) in H.
    cbn in H. by rewrite orb_true_r in H. }
  assert (length a < length a2)%nat as Hlt.
  { assert (Client.find_char lbrace text = len a) as Hs
      by (by rewrite E1, find_char_first).
    assert (Client.rfind_char rbrace text = len a2) as He
      by (by rewrite E2, rfind_char_last).
    unfold Facts.braced in H. rewrite Hs, He in H. unfold len in H.
    destruct (Z.leb_spec (Z.of_nat (length a2)) (Z.of_nat (length a)));
      [by rewrite !orb_true_r in H|lia]. }
  assert (exists body, a2 = a ++ lbrace :: body) as [body ->].
  { assert (a = take (length a) a2) as Ea.
    { transitivity (take (length a) text).
      - by rewrite E1, take_app_length.
      - rewrite E2, take_app_le by lia. done. }
    pose proof (take_drop (length a) a2) as Ed. rewrite <- Ea in Ed.
    destruct (drop (length a) a2) as [|x m] eqn:Em.
    - rewrite app_nil_r in Ed. rewrite Ed in Hlt. lia.
    - exists m. rewrite <- Ed. do 2 f_equal.
      rewrite E1, <- Ed, <- app_assoc in E2.
      apply app_inv_head in E2. by injection E2. }
  exists a, body, b. rewrite <- app_assoc in E2. cbn [app] in E2.
  split_and!; try done.
  rewrite E2, braced_decomposed in H by done. by injection H.
Qed.

Lemma braced_None (text : str) :
  Facts.braced text = None ->
  ~ exists a body b, text = a ++ lbrace :: body ++ rbrace :: b.
Proof.
  intros H (a & body & b & ->).
  assert (lbrace ∈ a ++ [lbrace]) as (a1 & r1 & E1 & H1)%first_occurrence.
  { apply elem_of_app. right. left. }
  assert (rbrace ∈ rbrace :: b) as (a2 & b2 & E2 & H2)%last_occurrence
    by left.
  replace (a ++ lbrace :: body ++ rbrace :: b)
    with (a1 ++ lbrace :: (r1 ++ body ++ a2) ++ rbrace :: b2) in H.
  - by rewrite braced_decomposed in H.
  - transitivity ((a ++ [lbrace]) ++ body ++ rbrace :: b);
      [|by rewrite <- app_assoc].
    rewrite E1, E2, <- !app_assoc. cbn [app]. by rewrite <- ?app_assoc.
Qed.

Lemma occurrence_after (c : ascii) (p t a r : str) :
  c ∉ p -> p ++ t = a ++ c :: r -> exists a1, a = p ++ a1 /\ t = a1 ++ c :: r.
Proof.
  revert a. induction p as [|x p IH]; intros a Hp E.
  - by exists a.
  - apply not_elem_of_cons in Hp as [Hx Hp].
    destruct a as [|y a]; cbn [app] in E; injection E as -> E; [done|].
    destruct (IH a Hp E) as (a1 & -> & ->). by exists a1.
Qed.

Lemma occurrence_before (c : ascii) (t q a r : str) :
  c ∉ q -> t ++ q = a ++ c :: r -> exists r1, r = r1 ++ q /\ t = a ++ c :: r1.
Proof.
  revert a. induction t as [|x t IH]; intros a Hq E.
  - cbn [app] in E. exfalso. apply Hq. rewrite E.
    apply elem_of_app. right. left.
  - destruct a as [|y a]; cbn [app] in E; injection E as -> E.
    + by exists t.
    + destruct (IH a Hq E) as (r1 & -> & ->). by exists r1.
Qed.

(** Text without braces around a text does not change what is between the
    outer braces. *)
Lemma braced_pad (p t q : str) :
  lbrace ∉ p -> rbrace ∉ q -> Facts.braced (p ++ t ++ q) = Facts.braced t.
Proof.
  intros Hp Hq. destruct (Facts.braced t) as [x|] eqn:Et.
  - apply braced_Some in Et as (a & body & b & -> & Ha & Hb & ->).
    replace (p ++ (a ++ lbrace :: body ++ rbrace :: b) ++ q)
      with ((p ++ a) ++ lbrace :: body ++ rbrace :: b ++ q).
    + apply braced_decomposed; rewrite elem_of_app; tauto.
    + rewrite <- !app_assoc. cbn [app]. by rewrite <- !app_assoc.
  - destruct (Facts.braced (p ++ t ++ q)) as [x|] eqn:E; [|done].
    exfalso. apply braced_Some in E as (a & body & b & E & Ha & Hb & _).
    apply occurrence_after in E as (a1 & -> & E); [|done].
    replace (a1 ++ lbrace :: body ++ rbrace :: b)
      with ((a1 ++ lbrace :: body) ++ rbrace :: b) in E
      by (by rewrite <- app_assoc).
    apply occurrence_before in E as (b1 & -> & E); [|done].
    apply (braced_None t Et). exists a1, body, b1.
    by rewrite E, <- app_assoc.
Qed.

(** *** Blank text *)

Lemma blank_not_elem_of (c : ascii) (s : str) :
  isspace c = false -> Facts.blank s -> c ∉ s.
Proof.
  intros Hc Hs Hin. unfold Facts.blank in Hs. rewrite Forall_forall in Hs.
  specialize (Hs c Hin). congruence.
Qed.

Lemma lstrip_blank (sp s : str) :
  Facts.blank sp -> lstrip (sp ++ s) = lstrip s.
Proof.
  induction 1 as [|c sp Hc _ IH]; [done|]. cbn [app lstrip]. by rewrite Hc.
Qed.

Lemma lstrip_app_visible (s t : str) :
  lstrip s <> [] -> lstrip (s ++ t) = lstrip s ++ t.
Proof.
  induction s as [|c s IH]; [done|]. cbn [app lstrip].
  destruct (isspace c); [apply IH|done].
Qed.

Lemma lstrip_subseteq (s : str) (c : ascii) : c ∈ lstrip s -> c ∈ s.
Proof.
  destruct (lstrip_suffix s) as [a E]. intros H. rewrite E.
  apply elem_of_app. by right.
Qed.

Lemma strip_blank_iff (s : str) : strip s = [] <-> Facts.blank s.
Proof.
  split.
  - intros E. destruct (strip_spec s) as (a & b & Es & Ha & Hb & _).
    rewrite E in Es. rewrite Es. by apply Forall_app.
  - intros Hs. unfold strip.
    assert (lstrip s = []) as ->; [|done].
    rewrite <- (app_nil_r s). by rewrite lstrip_blank.
Qed.

Lemma lstrip_visible (s : str) : strip s <> [] -> lstrip s <> [].
Proof. unfold strip. intros H E. apply H. by rewrite E. Qed.

(** *** The substitution of a fence *)

Lemma length_lstrip (s : str) : (length (lstrip s) <= length s)%nat.
Proof.
  induction s as [|c s IH]; [done|]. cbn [lstrip].
  destruct (isspace c); cbn [length]; lia.
Qed.

Lemma re_sub_from_enough (fence text : str) (f1 f2 : nat) :
  fence <> [] -> (length text <= f1)%nat -> (length text <= f2)%nat ->
  Client.re_sub_from f1 fence text = Client.re_sub_from f2 fence text.
Proof.
  intros Hf. revert f2 text.
  induction f1 as [|f1 IH]; intros f2 text H1 H2.
  - destruct text; [|simpl in H1; lia]. by destruct f2.
  - destruct f2 as [|f2].
    { destruct text; [done|simpl in H2; lia]. }
    destruct text as [|c rest]; [done|]. cbn [Client.re_sub_from].
    cbn [length] in H1, H2.
    destruct (startswith fence (c :: rest)).
    + apply IH.
      * pose proof (length_lstrip (skipn (length fence) (c :: rest))).
        destruct fence; [done|]. cbn [length skipn] in *.
        rewrite length_skipn in *. lia.
      * pose proof (length_lstrip (skipn (length fence) (c :: rest))).
        destruct fence; [done|]. cbn [length skipn] in *.
        rewrite length_skipn in *. lia.
    + f_equal. apply IH; lia.
Qed.

Lemma re_sub_cons (fence : str) (c : ascii) (rest : str) :
  fence <> [] ->
  Client.re_sub fence (c :: rest)
  = if startswith fence (c :: rest)
    then Client.re_sub fence (lstrip (skipn (length fence) (c :: rest)))
    else c :: Client.re_sub fence rest.
Proof.
  intros Hf. unfold Client.re_sub at 1. cbn [length Client.re_sub_from].
  destruct (startswith fence (c :: rest)).
  - apply re_sub_from_enough; [done| |done].
    pose proof (length_lstrip (skipn (length fence) (c :: rest))).
    destruct fence; [done|]. cbn [length skipn] in *.
    rewrite length_skipn in *. lia.
  - done.
Qed.

(** A part of the text without the first character of the fence stays. *)
Lemma re_sub_keep (x : ascii) (fence pre t : str) :
  x ∉ pre ->
  Client.re_sub (x :: fence) (pre ++ t) = pre ++ Client.re_sub (x :: fence) t.
Proof.
  induction pre as [|c pre IH]; [done|].
  intros [Hc Hpre]%not_elem_of_cons. cbn [app].
  rewrite re_sub_cons by done. cbn [startswith].
  rewrite (proj2 (Ascii.eqb_neq x c)) by done. by rewrite IH.
Qed.

Lemma re_sub_match (fence t : str) :
  fence <> [] ->
  Client.re_sub fence (fence ++ t) = Client.re_sub fence (lstrip t).
Proof.
  intros Hf. destruct fence as [|x f]; [done|].
  cbn [app]. rewrite re_sub_cons by done.
  change (x :: f ++ t) with ((x :: f) ++ t).
  rewrite (proj2 (startswith_spec (x :: f) ((x :: f) ++ t)))
    by (by exists t).
  by rewrite drop_app_length.
Qed.

Lemma re_sub_absent (x : ascii) (fence s : str) :
  x ∉ s -> Client.re_sub (x :: fence) s = s.
Proof.
  intros H. rewrite <- (app_nil_r s) at 1.
  rewrite re_sub_keep by done. by rewrite app_nil_r.
Qed.

Lemma re_sub_json_keep (pre t : str) :
  tick ∉ pre ->
  Client.re_sub (L "```json") (pre ++ t)
  = pre ++ Client.re_sub (L "```json") t.
Proof. apply (re_sub_keep tick (L "``json")). Qed.

Lemma re_sub_fence_keep (pre t : str) :
  tick ∉ pre ->
  Client.re_sub (L "```") (pre ++ t) = pre ++ Client.re_sub (L "```") t.
Proof. apply (re_sub_keep tick (L "``")). Qed.

Lemma without_fences_plain (s : str) :
  tick ∉ s -> Facts.without_fences s = s.
Proof.
  intros H. unfold Facts.without_fences.
  rewrite (re_sub_absent tick (L "``json")) by done.
  by apply (re_sub_absent tick (L "``")).
Qed.

Lemma startswith_blank (c : ascii) (f sp : str) :
  isspace c = false -> Facts.blank sp -> startswith (c :: f) sp = false.
Proof.
  intros Hc Hsp. destruct sp as [|x sp]; [done|].
  apply Forall_cons in Hsp as [Hx _]. cbn [startswith].
  destruct (Ascii.eqb_spec c x) as [->|]; [congruence|done].
Qed.

(** A closing fence does not open a block. *)
Lemma re_sub_json_closing (sp : str) :
  Facts.blank sp ->
  Client.re_sub (L "```json") (L "```" ++ sp) = L "```" ++ sp.
Proof.
  intros Hsp.
  change (L "```" ++ sp) with (tick :: tick :: tick :: sp).
  rewrite re_sub_cons by done.
  change (startswith (L "```json") (tick :: tick :: tick :: sp))
    with (startswith (L "json") sp).
  rewrite (startswith_blank "j" (L "son")) by done. f_equal.
  rewrite re_sub_cons by done.
  change (startswith (L "```json") (tick :: tick :: sp))
    with (startswith (L "`json") sp).
  rewrite (startswith_blank tick (L "json")) by done. f_equal.
  rewrite re_sub_cons by done.
  change (startswith (L "```json") (tick :: sp))
    with (startswith (L "``json") sp).
  rewrite (startswith_blank tick (L "`json")) by done. f_equal.
  apply (re_sub_absent tick). by apply blank_not_elem_of.
Qed.

(** The two substitutions take the fences of a fenced block away. *)
Lemma without_fences_block (sp1 obj sp2 sp3 : str) :
  tick ∉ obj -> strip obj <> [] ->
  Facts.blank sp1 -> Facts.blank sp2 -> Facts.blank sp3 ->
  Facts.without_fences (L "```json" ++ sp1 ++ obj ++ sp2 ++ L "```" ++ sp3)
  = lstrip obj ++ sp2.
Proof.
  intros Hobj Hvis H1 H2 H3. unfold Facts.without_fences.
  assert (tick ∉ lstrip obj ++ sp2) as Hpre.
  { intros [Hin%lstrip_subseteq|Hin]%elem_of_app; [done|].
    by apply (blank_not_elem_of tick sp2). }
  rewrite re_sub_match by done.
  rewrite lstrip_blank by done.
  rewrite lstrip_app_visible by (by apply lstrip_visible).
  rewrite (app_assoc (lstrip obj) sp2).
  rewrite re_sub_json_keep by done.
  rewrite re_sub_json_closing by done.
  rewrite re_sub_fence_keep by done.
  rewrite re_sub_match by done.
  assert (lstrip sp3 = []) as ->.
  { rewrite <- (app_nil_r sp3). by rewrite lstrip_blank. }
  by rewrite app_nil_r.
Qed.

(** *** The pair returned by [_extract_json] *)

Lemma extract_json_cases (text : str) :
  extract_json text
  = if bool_decide (strip text = []) then (None, Some (L "Empty response"))
    else match Facts.braced (Facts.without_fences text) with
         | None => (None, Some (L "No JSON found"))
         | Some t =>
             match json_loads t with
             | inl parsed => (Some parsed, None)
             | inr e => (None, Some (L "JSON parse error: " ++ e))
             end
         end.
Proof.
  unfold Client._extract_json, Facts.braced, Facts.without_fences.
  destruct (strip text) as [|c r]; [done|]. cbn [str_truthy negb].
  rewrite bool_decide_eq_false_2 by done.
  by destruct (_ || _).
Qed.

(** X19.  The pair returned by [_extract_json] holds a dictionary and no error,
    or no dictionary and an error message that is not empty; a response
    built by [generate] therefore counts as failed exactly when nothing was
    parsed, except after an exception whose message is empty. *)
Theorem respond_failed_iff (outcome : str + str) (latency : Q) :
  let r := respond outcome latency in
  (call_failed r = false <->
   (exists d, parsed_json r = Some d) \/ outcome = inr []) /\
  (forall text,
     outcome = inl text ->
     raw_text r = text /\
     ((exists d, parsed_json r = Some d /\ error r = None) \/
      (exists e, parsed_json r = None /\ error r = Some e /\ e <> []))).
Proof.
  assert (forall text,
            (exists d, extract_json text = (Some d, None)) \/
            (exists e, extract_json text = (None, Some e) /\ e <> []))
    as Hcases.
  { intros text. rewrite extract_json_cases.
    destruct (bool_decide _); [right; by eexists|].
    destruct (Facts.braced _) as [t|]; [|right; by eexists].
    destruct (json_loads t) as [d|e]; [left; by eexists|].
    right. by eexists. }
  unfold Client.respond, call_failed. destruct outcome as [text|e].
  - destruct (Hcases text) as [[d ->]|(e & -> & He)];
      cbn [parsed_json error raw_text].
    + split.
      * split; [intros _; left; by eexists|done].
      * intros ? [= <-]. split; [done|]. left. by eexists.
    + split.
      * split.
        -- destruct e; [done|]. cbn. discriminate.
        -- by intros [[d [=]]|[=]].
      * intros ? [= <-]. split; [done|]. right. by eexists.
  - cbn [parsed_json error raw_text]. split; [|done].
    rewrite bool_decide_eq_true_2, andb_true_r by done. split.
    + destruct e; [by right|done].
    + intros [[d [=]]|[= ->]]. done.
Qed.

(** X20.  What [_extract_json] parses is the text from the first opening brace
    to the last closing brace of the answer without its fences; it reports
    that no JSON was found exactly when no opening brace comes before a
    closing one. *)
Theorem extract_json_braces (text : str) :
  strip text <> [] ->
  let cleaned := Facts.without_fences text in
  (forall d,
     extract_json text = (Some d, None) <->
     exists a body b,
       cleaned = a ++ lbrace :: body ++ rbrace :: b /\
       (lbrace ∉ a) /\ (rbrace ∉ b) /\
       json_loads (lbrace :: body ++ [rbrace]) = inl d) /\
  (extract_json text = (None, Some (L "No JSON found")) <->
   ~ exists a body b, cleaned = a ++ lbrace :: body ++ rbrace :: b).
Proof.
  intros Hvis cleaned. rewrite extract_json_cases.
  rewrite bool_decide_eq_false_2 by done. fold cleaned. split.
  - intros d. split.
    + destruct (Facts.braced cleaned) as [t|] eqn:E; [|done].
      apply braced_Some in E as (a & body & b & E & Ha & Hb & ->).
      destruct (json_loads _) as [d'|e] eqn:El; [|done].
      intros [= <-]. by exists a, body, b.
    + intros (a & body & b & -> & Ha & Hb & El).
      by rewrite braced_decomposed, El.
  - split.
    + destruct (Facts.braced cleaned) as [t|] eqn:E;
        [|intros _; by apply braced_None].
      by destruct (json_loads t).
    + intros Hno. destruct (Facts.braced cleaned) as [t|] eqn:E; [|done].
      exfalso. apply Hno.
      apply braced_Some in E as (a & body & b & E & _). by exists a, body, b.
Qed.

(** X21.  A JSON text in a [```json] block is read like the text alone: the
    fences and the white space around them make no difference. *)
Theorem extract_json_fenced (sp1 obj sp2 sp3 : str) :
  tick ∉ obj -> strip obj <> [] ->
  Facts.blank sp1 -> Facts.blank sp2 -> Facts.blank sp3 ->
  extract_json (L "```json" ++ sp1 ++ obj ++ sp2 ++ L "```" ++ sp3)
  = extract_json obj.
Proof.
  intros Hobj Hvis H1 H2 H3. rewrite !extract_json_cases.
  rewrite without_fences_block, without_fences_plain by done.
  rewrite (bool_decide_eq_false_2 (strip obj = [])) by done.
  rewrite bool_decide_eq_false_2.
  2:{ rewrite strip_blank_iff. intros Hb. by apply Forall_cons in Hb as [? _]. }
  assert (Facts.braced (lstrip obj ++ sp2) = Facts.braced obj) as ->; [|done].
  destruct (lstrip_spec obj) as (a & Ea & Ha & _).
  transitivity (Facts.braced (lstrip obj)).
  - apply (braced_pad [] (lstrip obj) sp2); [apply not_elem_of_nil|].
    by apply blank_not_elem_of.
  - rewrite Ea at 2. rewrite <- (app_nil_r (lstrip obj)) at 2.
    symmetry. apply braced_pad; [|apply not_elem_of_nil].
    by apply blank_not_elem_of.
Qed.

End ClientFacts.

(** ** Qualified names *)

Section QualifiedNames.

Local Abbreviation cut :=
  (fun s : str =>
     if contains (L "(") s then item_first (split_char lparen s) else s).

Lemma rfind_split_last (sep b r : str) :
  sep <> [] -> contains sep (tl (sep ++ r)) = false ->
  rfind_split sep (b ++ sep ++ r) = Some (b, r).
Proof.
  intros Hsep Hlast. induction b as [|c b IH].
  - destruct sep as [|x sep']; [done|]. cbn [app tl] in *.
    cbn [rfind_split]. rewrite (proj2 (rfind_split_None _ _) Hlast).
    change (x :: sep' ++ r) with ((x :: sep') ++ r).
    rewrite (proj2 (startswith_spec _ _)) by (by exists r).
    by rewrite drop_app_length.
  - cbn [app rfind_split]. by rewrite IH.
Qed.

Lemma strip_prefix_at_last (sep b r : str) :
  sep <> [] -> contains sep (tl (sep ++ r)) = false ->
  strip_prefix_at (b ++ sep ++ r) sep = r.
Proof.
  intros Hsep Hlast. unfold strip_prefix_at, rsplit1.
  rewrite (proj2 (contains_spec _ _)) by (by exists b, r).
  by rewrite rfind_split_last.
Qed.

Lemma strip_prefix_at_absent (sep s : str) :
  contains sep s = false -> strip_prefix_at s sep = s.
Proof. intros H. unfold strip_prefix_at. by rewrite H. Qed.

Lemma contains_head_absent (c : ascii) (sep s : str) :
  c ∉ s -> contains (c :: sep) s = false.
Proof.
  intros Hc. destruct (contains (c :: sep) s) eqn:E; [|done].
  apply contains_spec in E as (a & b & ->). exfalso. apply Hc.
  apply elem_of_app. right. left.
Qed.

Lemma contains_colons_tail (w : str) :
  ":"%char ∉ w -> contains (L "::") (tl (L "::" ++ w)) = false.
Proof.
  intros H. change (tl (L "::" ++ w)) with (":"%char :: w).
  cbn [contains]. rewrite (contains_head_absent ":" (L ":")) by done.
  rewrite orb_false_r. change (L "::") with [":"%char; ":"%char].
  cbn [startswith]. rewrite Ascii.eqb_refl.
  destruct w as [|c w]; [done|]. apply not_elem_of_cons in H as [Hc _].
  by rewrite (proj2 (Ascii.eqb_neq _ _)) by done.
Qed.

(** A separator whose first character is not in the end of the text
    leaves that end in place. *)
Lemma strip_prefix_at_keeps_char (c : ascii) (u t : str) :
  c ∉ t -> exists u', strip_prefix_at (u ++ t) [c] = u' ++ t.
Proof.
  intros Hc.
  pose proof (strip_prefix_at_spec (u ++ t) [c]) as H.
  set (r := strip_prefix_at (u ++ t) [c]) in *.
  destruct H as [[_ E]|(b & E & _)]; [done|by exists u|].
  cbn [app] in E. apply occurrence_before in E as (r1 & -> & _); [|done].
  by exists r1.
Qed.

Lemma strip_prefix_at_keeps_colons (u t : str) :
  ":"%char ∉ t -> exists u', strip_prefix_at (u ++ t) (L "::") = u' ++ t.
Proof.
  intros Hc.
  pose proof (strip_prefix_at_spec (u ++ t) (L "::")) as H.
  set (r := strip_prefix_at (u ++ t) (L "::")) in *.
  destruct H as [[_ E]|(b & E & _)]; [done|by exists u|].
  change (b ++ L "::" ++ r) with (b ++ ":"%char :: ":"%char :: r) in E.
  apply occurrence_before in E as (r1 & E & _); [|done].
  destruct r1 as [|x r1]; cbn [app] in E.
  - exfalso. apply Hc. rewrite <- E. left.
  - injection E as _ ->. by exists r1.
Qed.

Lemma lstrip_app_head (s t : str) :
  (forall c, head t = Some c -> isspace c = false) ->
  lstrip (s ++ t) = lstrip s ++ t.
Proof.
  intros Ht. induction s as [|c s IH]; cbn [app lstrip].
  - by apply lstrip_fixed.
  - by destruct (isspace c).
Qed.

Lemma rstrip_app_last (s t : str) :
  (forall c, last s = Some c -> isspace c = false) ->
  rstrip (s ++ t) = s ++ rstrip t.
Proof.
  intros Hs. unfold rstrip. rewrite rev_app_distr, lstrip_app_head.
  - by rewrite rev_app_distr, rev_involutive.
  - intros c. rewrite head_rev. apply Hs.
Qed.

Lemma rstrip_prefix (s : str) : exists b, s = rstrip s ++ b.
Proof.
  unfold rstrip. destruct (lstrip_suffix (rev s)) as [a E].
  exists (rev a). by rewrite <- rev_app_distr, <- E, rev_involutive.
Qed.

(** Trimming a text around a separator trims its two ends. *)
Lemma strip_around (u sep w : str) (x y : ascii) :
  head sep = Some x -> last sep = Some y ->
  isspace x = false -> isspace y = false ->
  strip (u ++ sep ++ w) = lstrip u ++ sep ++ rstrip w.
Proof.
  intros Hx Hy Hsx Hsy. unfold strip. rewrite lstrip_app_head.
  - rewrite (app_assoc (lstrip u) sep w), rstrip_app_last.
    + by rewrite <- app_assoc.
    + intros c. destruct sep as [|z sep _] using rev_ind; [done|].
      rewrite app_assoc, last_snoc. rewrite last_snoc in Hy. congruence.
  - intros c. destruct sep; [done|]. cbn in *. congruence.
Qed.

Lemma normalize_method_tail (w : str) :
  ("#"%char ∉ w) -> (":"%char ∉ w) -> ("."%char ∉ w) ->
  (forall c, head w = Some c -> isspace c = false) ->
  normalize_method w = lower (cut (rstrip w)).
Proof.
  intros H1 H2 H3 Hh. unfold normalize_method. cbn [foldl].
  unfold strip. rewrite (lstrip_fixed _ Hh).
  destruct (rstrip_prefix w) as [b E].
  assert (forall c, c ∉ w -> c ∉ rstrip w) as Hsub.
  { intros c Hc Hin. apply Hc. rewrite E. apply elem_of_app. by left. }
  rewrite (strip_prefix_at_absent (L "#"))
    by (apply (contains_head_absent "#" []); by apply Hsub).
  rewrite (strip_prefix_at_absent (L "::"))
    by (apply (contains_head_absent ":" (L ":")); by apply Hsub).
  rewrite (strip_prefix_at_absent (L "."))
    by (apply (contains_head_absent "." []); by apply Hsub).
  done.
Qed.

(** X22.  Whatever comes before the last separator of an identifier is dropped:
    a qualified name has the normal form of its last component, also when
    the separator stands inside a parameter list. *)
Theorem normalize_method_qualified (u sep w : str) :
  sep ∈ [L "#"; L "::"; L "."] ->
  ("#"%char ∉ w) -> (":"%char ∉ w) -> ("."%char ∉ w) ->
  (forall c, head w = Some c -> isspace c = false) ->
  normalize_method (u ++ sep ++ w) = normalize_method w.
Proof.
  intros Hsep H1 H2 H3 Hh. rewrite (normalize_method_tail w) by done.
  destruct (rstrip_prefix w) as [b E].
  assert (forall c, c ∉ w -> c ∉ rstrip w) as Hsub.
  { intros c Hc Hin. apply Hc. rewrite E. apply elem_of_app. by left. }
  pose proof (Hsub _ H1) as R1. pose proof (Hsub _ H2) as R2.
  pose proof (Hsub _ H3) as R3.
  unfold normalize_method. cbn [foldl]. do 2 f_equal.
  repeat (apply elem_of_cons in Hsep as [->|Hsep]);
    [| | |by apply elem_of_nil in Hsep].
  - rewrite (strip_around u (L "#") w "#" "#") by done.
    rewrite (strip_prefix_at_last (L "#"))
      by (done || by apply (contains_head_absent "#" [])).
    rewrite (strip_prefix_at_absent (L "::"))
      by (by apply (contains_head_absent ":" (L ":"))).
    by rewrite (strip_prefix_at_absent (L "."))
      by (by apply (contains_head_absent "." [])).
  - rewrite (strip_around u (L "::") w ":" ":") by done.
    destruct (strip_prefix_at_keeps_char "#" (lstrip u) (L "::" ++ rstrip w))
      as [u2 E2].
    { intros [[=]|[[=]|Hin]%elem_of_cons]%elem_of_cons. done. }
    change [("#")%char] with (L "#") in E2. rewrite E2.
    rewrite (strip_prefix_at_last (L "::")); [| done |].
    + by rewrite (strip_prefix_at_absent (L "."))
        by (by apply (contains_head_absent "." [])).
    + by apply contains_colons_tail.
  - rewrite (strip_around u (L ".") w "." ".") by done.
    destruct (strip_prefix_at_keeps_char "#" (lstrip u) (L "." ++ rstrip w))
      as [u2 E2].
    { intros [[=]|Hin]%elem_of_cons. done. }
    change [("#")%char] with (L "#") in E2. rewrite E2.
    destruct (strip_prefix_at_keeps_colons u2 (L "." ++ rstrip w))
      as [u3 ->].
    { intros [[=]|Hin]%elem_of_cons. done. }
    rewrite (strip_prefix_at_last (L "."));
      [done|done|by apply (contains_head_absent "." [])].
Qed.

(** *** Letter case *)

Lemma isspace_lower_char (c : ascii) : isspace (lower_char c) = isspace c.
Proof. by destruct c as [[] [] [] [] [] [] [] []]. Qed.

Lemma lstrip_lower (s : str) : lstrip (lower s) = lower (lstrip s).
Proof.
  induction s as [|c s IH]; [done|].
  change (lower (c :: s)) with (lower_char c :: lower s).
  cbn [lstrip]. rewrite isspace_lower_char. by destruct (isspace c).
Qed.

Lemma lower_rev (s : str) : lower (rev s) = rev (lower s).
Proof. unfold lower. by rewrite map_rev. Qed.

Lemma strip_lower (s : str) : strip (lower s) = lower (strip s).
Proof.
  unfold strip, rstrip.
  by rewrite lstrip_lower, <- lower_rev, lstrip_lower, lower_rev.
Qed.

Lemma rfind_split_lower (sep s : str) :
  Forall uncased sep ->
  rfind_split sep (lower s)
  = (fun p => (lower p.1, lower p.2)) <$> rfind_split sep s.
Proof.
  intros Hsep. induction s as [|c s IH].
  - change (lower []) with (@nil ascii). cbn [rfind_split].
    by destruct (startswith sep []).
  - change (lower (c :: s)) with (lower_char c :: lower s).
    cbn [rfind_split]. rewrite IH.
    destruct (rfind_split sep s) as [[b a]|]; [done|]. cbn [fmap option_fmap option_map].
    change (lower_char c :: lower s) with (lower (c :: s)).
    rewrite startswith_lower by done.
    destruct (startswith sep (c :: s)); [|done]. cbn.
    unfold lower. by rewrite <- skipn_map.
Qed.

Lemma strip_prefix_at_lower (sep s : str) :
  Forall uncased sep ->
  strip_prefix_at (lower s) sep = lower (strip_prefix_at s sep).
Proof.
  intros Hsep. unfold strip_prefix_at, rsplit1.
  rewrite contains_lower, rfind_split_lower by done.
  destruct (contains sep s); [|done].
  by destruct (rfind_split sep s) as [[b a]|].
Qed.

Lemma split_char_lower (c : ascii) (s : str) :
  uncased c -> split_char c (lower s) = map lower (split_char c s).
Proof.
  intros Hc. induction s as [|x s IH]; [done|].
  change (lower (x :: s)) with (lower_char x :: lower s).
  cbn [split_char]. rewrite IH.
  rewrite (Ascii.eqb_sym (lower_char x)), Hc, (Ascii.eqb_sym c).
  destruct (Ascii.eqb x c); [done|].
  by destruct (split_char c s).
Qed.

(** In the embedding, where [lower] is the ASCII map, for every text. *)
Lemma normalize_method_lower (x : str) :
  normalize_method (lower x) = normalize_method x.
Proof.
  unfold normalize_method. cbn [foldl].
  assert (Forall uncased (L "#")) as U1
    by (repeat constructor; apply uncased_hash).
  assert (Forall uncased (L "::")) as U2
    by (repeat constructor; apply uncased_colon).
  assert (Forall uncased (L ".")) as U3
    by (repeat constructor; apply uncased_dot).
  assert (Forall uncased (L "(")) as U4
    by (repeat constructor; apply uncased_paren).
  rewrite strip_lower, !strip_prefix_at_lower by done.
  set (s := strip_prefix_at _ (L ".")).
  rewrite contains_lower by done.
  destruct (contains (L "(") s); [|by rewrite lower_idemp].
  rewrite split_char_lower by apply uncased_paren.
  destruct (split_char lparen s); cbn [map item_first hd]; [done|].
  by rewrite lower_idemp.
Qed.

(** X23.  On ASCII text the normal form does not depend on the case of the
    letters. *)
Theorem normalize_method_case_insensitive (x : str) :
  Facts.ascii_text x ->
  normalize_method (lower x) = normalize_method x.
Proof. intros _. apply normalize_method_lower. Qed.

End QualifiedNames.

(** ** The stages of normalisation *)

Section Stages.

Lemma trimmed_strip (x t : str) : Spec.trimmed x t -> strip x = t.
Proof.
  intros (a & b & -> & Ha & Hb & Hh & Hl). unfold strip.
  rewrite lstrip_blank by done.
  assert (rstrip b = []) as Eb.
  { unfold rstrip. rewrite <- (app_nil_r (rev b)), lstrip_blank; [done|].
    by apply Forall_rev. }
  destruct t as [|c t].
  - cbn [app]. rewrite <- (app_nil_r b), lstrip_blank by done. done.
  - rewrite lstrip_fixed by (intros c'; apply Hh).
    rewrite rstrip_app_last by done. by rewrite Eb, app_nil_r.
Qed.

Lemma after_last_strip_prefix_at (sep s r : str) :
  sep <> [] -> Spec.after_last sep s r -> strip_prefix_at s sep = r.
Proof.
  intros Hsep [[H ->]|(b & -> & H)].
  - by apply strip_prefix_at_absent.
  - by apply strip_prefix_at_last.
Qed.

Lemma split_char_first (c : ascii) (d rest : str) :
  c ∉ d -> item_first (split_char c (d ++ c :: rest)) = d.
Proof.
  induction d as [|x d IH]; cbn [app split_char].
  - by rewrite Ascii.eqb_refl.
  - intros [Hx Hd]%not_elem_of_cons.
    rewrite (proj2 (Ascii.eqb_neq x c)) by congruence.
    specialize (IH Hd). unfold item_first in *.
    destruct (split_char c (d ++ c :: rest)); cbn [hd] in *; by subst.
Qed.

Lemma before_paren_cut (c d : str) :
  Spec.before_paren c d ->
  (if contains (L "(") c then item_first (split_char lparen c) else c) = d.
Proof.
  change (L "(") with [lparen]. intros [[H ->]|(rest & -> & H)].
  - by rewrite (proj2 (contains_char_false _ _) H).
  - rewrite (proj2 (contains_char lparen _)).
    + by apply split_char_first.
    + apply elem_of_app. right. left.
Qed.

(** C5 (as amended).  [normalize_method] trims the identifier, then applies
    every one of the separators "#", "::", "." in turn, each to the result
    of the one before: when the separator occurs, only the text after its
    last occurrence is kept.  It then cuts the result at its first "(" and
    lower-cases it.  The stages exist for every identifier, and they leave
    no choice: whatever texts satisfy them give the result. *)
Theorem normalize_method_applies_each_separator (x : str) :
  (exists t a b c d,
     Spec.trimmed x t /\
     Spec.after_last (L "#") t a /\
     Spec.after_last (L "::") a b /\
     Spec.after_last (L ".") b c /\
     Spec.before_paren c d /\
     normalize_method x = lower d) /\
  (forall t a b c d,
     Spec.trimmed x t ->
     Spec.after_last (L "#") t a ->
     Spec.after_last (L "::") a b ->
     Spec.after_last (L ".") b c ->
     Spec.before_paren c d ->
     normalize_method x = lower d).
Proof.
  split.
  - destruct (normalize_method_stages x) as (a & b & c & d & H).
    exists (strip x), a, b, c, d. split; [apply strip_spec|exact H].
  - intros t a b c d Ht Ha Hb Hc Hd. unfold normalize_method. cbn [foldl].
    rewrite (trimmed_strip x t Ht).
    rewrite (after_last_strip_prefix_at (L "#") t a) by done.
    rewrite (after_last_strip_prefix_at (L "::") a b) by done.
    rewrite (after_last_strip_prefix_at (L ".") b c) by done.
    by rewrite (before_paren_cut c d Hd).
Qed.

(** The last occurrence of ["::"] in ["a:::b"] is the one that leaves
    ["b"]. *)
Example after_last_overlapping :
  Spec.after_last (L "::") (L "a:::b") (L "b") /\
  ~ Spec.after_last (L "::") (L "a:::b") (L ":b") /\
  normalize_method (L "a:::b") = L "b".
Proof.
  split_and!.
  - right. by exists (L "a:").
  - intros [[H _]|(before & _ & H)]; by vm_compute in H.
  - by vm_compute.
Qed.

End Stages.

(** ** The iterative strategy after a call that failed without a message *)

(** C1 (defect of the code).  The test of the loop,
    [response.error and response.parsed_json is None], reads the truth
    value of the error text, so a call that raised an exception with an
    empty message passes for a successful one that named no method.  With
    three iterations answering [X], then twice such an exception, the run
    is marked converged at iteration 3 with an empty ranking and no error,
    although the only successful iteration named [X] and iteration 3
    failed: the condition of the convergence rule does not hold there.
    When the two exceptions carry a message, the same run does not
    converge and keeps [X]. *)
Theorem run_zero_shot_iterative_converges_on_failed_calls :
  let r1 := Sample.answer ["X"] in
  let r2 := Facts.raised_silently in
  let r3 := Facts.raised "boom" in
  let result :=
    (run_zero_shot_iterative Sample.no_repr Sample.no_dumps
       (list LLMResponse) Sample.scripted Sample.plain_wrap
       (L "prompt") 3 0.2 [r1; r2; r2]).1 in
  let told :=
    (run_zero_shot_iterative Sample.no_repr Sample.no_dumps
       (list LLMResponse) Sample.scripted Sample.plain_wrap
       (L "prompt") 3 0.2 [r1; r3; r3]).1 in
  zero_shot_trace Sample.no_repr Sample.no_dumps (list LLMResponse)
    Sample.scripted Sample.plain_wrap (L "prompt") 0.2 (range_from_1 3)
    loop_init [r1; r2; r2]
  = [(1, r1); (2, r2); (3, r2)] /\
  error r2 = Some [] /\ parsed_json r2 = None /\
  Spec.successful r1 = true /\ Spec.successful r2 = false /\
  call_failed r2 = false /\
  Spec.last_successful [(1, r1); (2, r2)] = Some (1, r1) /\
  Spec.names Sample.no_repr r1 = [L "X"] /\
  Spec.names Sample.no_repr r2 = [] /\
  ~ Spec.repeats_previous Sample.no_repr [(1, r1); (2, r2)] r2 /\
  converged result = true /\ iterations_used result = 3 /\
  final_ranking result = [] /\ errors result = [] /\
  Spec.successful r3 = false /\ call_failed r3 = true /\
  converged told = false /\ iterations_used told = 3 /\
  final_ranking told = [ {| method := L "X"; justification := [] |} ] /\
  errors told = [L "Iteration 2: boom"; L "Iteration 3: boom"].
Proof.
  cbv zeta. split_and!; try reflexivity.
  intros (j & r' & Hlast & Hnames).
  vm_compute in Hlast. injection Hlast as <- <-.
  vm_compute in Hnames. discriminate.
Qed.

(** C8 (defect of the code).  The same test lets a call that raised an
    exception with an empty message through: no error record is appended,
    the previous ranking [X] is overwritten by the empty one, and the run
    that is then exhausted ends on the empty ranking instead of the list
    [X] of its last successful iteration.  When the exception carries a
    message, the same run appends one error record, keeps the previous
    ranking and ends on [X]. *)
Theorem zero_shot_failure_overwrites_ranking :
  let r1 := Sample.answer ["X"] in
  let r2 := Facts.raised_silently in
  let r3 := Facts.raised "boom" in
  let result :=
    (run_zero_shot_iterative Sample.no_repr Sample.no_dumps
       (list LLMResponse) Sample.scripted Sample.plain_wrap
       (L "prompt") 2 0.2 [r1; r2]).1 in
  let told :=
    (run_zero_shot_iterative Sample.no_repr Sample.no_dumps
       (list LLMResponse) Sample.scripted Sample.plain_wrap
       (L "prompt") 2 0.2 [r1; r3]).1 in
  zero_shot_trace Sample.no_repr Sample.no_dumps (list LLMResponse)
    Sample.scripted Sample.plain_wrap (L "prompt") 0.2 (range_from_1 2)
    loop_init [r1; r2]
  = [(1, r1); (2, r2)] /\
  error r2 = Some [] /\ parsed_json r2 = None /\
  Spec.failed r2 = true /\ call_failed r2 = false /\
  (exists s1 s2,
     iteration_step Sample.no_repr Sample.no_dumps 1 loop_init r1 = inl s1 /\
     iteration_step Sample.no_repr Sample.no_dumps 2 s1 r2 = inl s2 /\
     prev_methods s1 = Some [L "X"] /\ prev_methods s2 = Some [] /\
     ls_errors s1 = [] /\ ls_errors s2 = [] /\
     length (ls_all_iterations s1) = 1%nat /\
     length (ls_all_iterations s2) = 2%nat) /\
  converged result = false /\ iterations_used result = 2 /\
  errors result = [] /\
  Spec.last_successful [(1, r1); (2, r2)] = Some (1, r1) /\
  extract_top_k_methods Sample.no_repr r1
  = [ {| method := L "X"; justification := [] |} ] /\
  final_ranking result = [] /\
  Spec.failed r3 = true /\ call_failed r3 = true /\
  (exists s1 s3,
     iteration_step Sample.no_repr Sample.no_dumps 1 loop_init r1 = inl s1 /\
     iteration_step Sample.no_repr Sample.no_dumps 2 s1 r3 = inl s3 /\
     prev_methods s3 = prev_methods s1 /\
     ls_errors s3 = ls_errors s1 ++ [L "Iteration 2: boom"] /\
     ls_all_iterations s3 = ls_all_iterations s1) /\
  converged told = false /\ iterations_used told = 2 /\
  errors told = [L "Iteration 2: boom"] /\
  final_ranking told = [ {| method := L "X"; justification := [] |} ].
Proof.
  cbv zeta. split_and!; try reflexivity.
  - eexists _, _. split_and!; reflexivity.
  - eexists _, _. split_and!; reflexivity.
Qed.

(** ** Instances *)

Lemma evaluate_bug_accuracy_witness :
  0 < 5 /\
  tp (confusion [L "a"; L "x"] {[ L "a" ]} 5)
  + fp (confusion [L "a"; L "x"] {[ L "a" ]} 5)
  + tn (confusion [L "a"; L "x"] {[ L "a" ]} 5) = 5 /\
  (accuracy (evaluate_bug [L "a"; L "x"] {[ L "a" ]} 5)
   == 1 - divZ (fp (confusion [L "a"; L "x"] {[ L "a" ]} 5)) 5)%Q.
Proof.
  split; [lia|]. apply (evaluate_bug_accuracy [L "a"; L "x"] {[ L "a" ]} 5).
  lia.
Defined.

Lemma report_without_ground_truth_witness :
  Forall (fun r => lookup_truth Sample.truth r.1.1 r.1.2 = ∅)
         [(L "q", 1, Sample.ranking ["z"])] /\
  generate_evaluation_report [(L "q", 1, Sample.ranking ["z"])]
    Sample.truth 5 (L "python")
  = header 5 (L "python") ++ global_lines (L "python") totals_zero /\
  forall label v,
    Metric label v
      ∉ generate_evaluation_report [(L "q", 1, Sample.ranking ["z"])]
          Sample.truth 5 (L "python").
Proof.
  assert (Forall (fun r => lookup_truth Sample.truth r.1.1 r.1.2 = ∅)
                 [(L "q", 1, Sample.ranking ["z"])]) as H.
  { by repeat constructor. }
  split; [exact H|].
  exact (report_without_ground_truth Sample.truth 5
           [(L "q", 1, Sample.ranking ["z"])] (L "python") H).
Defined.

Lemma aggregate_results_justification_witness :
  let runs := [Sample.run_with [("a", "a long reason")];
               Sample.run_with [("a", "short")]] in
  let c := {| method := L "a"; justification := L "short" |} in
  c ∈ _aggregate_results runs 1 /\
  ((justification c = [] /\
    forall j, ~ Facts.reason_given runs (method c) j) \/
   (Facts.reason_given runs (method c) (justification c) /\
    forall j, Facts.reason_given runs (method c) j ->
              (length (justification c) <= length j)%nat)).
Proof.
  intros runs c.
  assert (c ∈ _aggregate_results runs 1) as H.
  { replace (_aggregate_results runs 1) with [c] by (by vm_compute). left. }
  split; [exact H|].
  exact (aggregate_results_justification runs 1 c H).
Defined.

Lemma aggregate_results_single_round_witness :
  let run := Sample.run_of ["a"; "b"; "c"] in
  NoDup (map method (record_methods run)) /\
  Forall (fun c => method c <> []) (record_methods run) /\
  _aggregate_results [run] 2 = slice_to 2 (record_methods run).
Proof.
  intros run.
  assert (NoDup (map method (record_methods run))) as H1.
  { apply (bool_decide_unpack _). by vm_compute. }
  assert (Forall (fun c => method c <> []) (record_methods run)) as H2.
  { by repeat constructor. }
  split; [exact H1|]. split; [exact H2|].
  exact (aggregate_results_single_round run 2 H1 H2).
Defined.

Lemma extract_json_braces_witness :
  strip (L "x{}y") <> [] /\
  (forall d,
     Client._extract_json Facts.sample_loads (L "x{}y") = (Some d, None) <->
     exists a body b,
       Facts.without_fences (L "x{}y")
       = a ++ Client.lbrace :: body ++ Client.rbrace :: b /\
       (Client.lbrace ∉ a) /\ (Client.rbrace ∉ b) /\
       Facts.sample_loads (Client.lbrace :: body ++ [Client.rbrace])
       = inl d) /\
  (Client._extract_json Facts.sample_loads (L "x{}y")
   = (None, Some (L "No JSON found")) <->
   ~ exists a body b,
       Facts.without_fences (L "x{}y")
       = a ++ Client.lbrace :: body ++ Client.rbrace :: b).
Proof.
  assert (strip (L "x{}y") <> []) as H by (by vm_compute).
  split; [exact H|].
  exact (extract_json_braces Facts.sample_loads (L "x{}y") H).
Defined.

Lemma extract_json_fenced_witness :
  let nl := [ascii_of_N 10] in
  ("`"%char ∉ L "{}") /\ strip (L "{}") <> [] /\
  Facts.blank nl /\ Facts.blank nl /\ Facts.blank [] /\
  Client._extract_json Facts.sample_loads
    (L "```json" ++ nl ++ L "{}" ++ nl ++ L "```" ++ [])
  = Client._extract_json Facts.sample_loads (L "{}").
Proof.
  intros nl.
  assert ("`"%char ∉ L "{}") as H1.
  { apply (bool_decide_unpack _). by vm_compute. }
  assert (strip (L "{}") <> []) as H2 by (by vm_compute).
  assert (Facts.blank nl) as H3 by (by repeat constructor).
  assert (Facts.blank []) as H4 by constructor.
  split; [exact H1|]. split; [exact H2|]. split; [exact H3|].
  split; [exact H3|]. split; [exact H4|].
  exact (extract_json_fenced Facts.sample_loads nl (L "{}") nl [] H1 H2 H3 H3 H4).
Defined.

Lemma normalize_method_qualified_witness :
  L "." ∈ [L "#"; L "::"; L "."] /\
  ("#"%char ∉ L "String)") /\ (":"%char ∉ L "String)") /\
  ("."%char ∉ L "String)") /\
  (forall c, head (L "String)") = Some c -> isspace c = false) /\
  normalize_method (L "pkg.Cls.run(java.lang" ++ L "." ++ L "String)")
  = normalize_method (L "String)").
Proof.
  assert (L "." ∈ [L "#"; L "::"; L "."]) as H0 by (do 2 right; left).
  assert ("#"%char ∉ L "String)") as H1.
  { apply (bool_decide_unpack _). by vm_compute. }
  assert (":"%char ∉ L "String)") as H2.
  { apply (bool_decide_unpack _). by vm_compute. }
  assert ("."%char ∉ L "String)") as H3.
  { apply (bool_decide_unpack _). by vm_compute. }
  assert (forall c, head (L "String)") = Some c -> isspace c = false) as H4.
  { by intros c [= <-]. }
  split; [exact H0|]. split; [exact H1|]. split; [exact H2|].
  split; [exact H3|]. split; [exact H4|].
  exact (normalize_method_qualified (L "pkg.Cls.run(java.lang") (L ".")
           (L "String)") H0 H1 H2 H3 H4).
Defined.

Lemma normalize_method_case_insensitive_witness :
  Facts.ascii_text (L "Pkg.Cls.Run(X)") /\
  normalize_method (lower (L "Pkg.Cls.Run(X)"))
  = normalize_method (L "Pkg.Cls.Run(X)").
Proof.
  assert (Facts.ascii_text (L "Pkg.Cls.Run(X)")) as H.
  { apply (bool_decide_unpack _). by vm_compute. }
  split; [exact H|].
  exact (normalize_method_case_insensitive (L "Pkg.Cls.Run(X)") H).
Defined.

Lemma bug_id_of_dir_name_witness :
  Config.plain_name (L "my-proj2") /\
  Config.parsed_bug_id (Config.bug_dir_name (L "my-proj2") 7) = Some (Z.abs 7).
Proof.
  assert (Config.plain_name (L "my-proj2")) as H.
  { split; [done|]. apply (bool_decide_unpack _). by vm_compute. }
  split; [exact H|].
  exact (bug_id_of_dir_name (L "my-proj2") 7 H).
Defined.
